(** * Clarity: concepts and their slot lists (concept.h, concept.c, main.c)

    A shallow embedding of the four operations of [concept.c]
    ([print_concept], [add_slot], [create_concept], [free_concept]) and of
    the driver [main], over an explicit C heap.

    Reading of the source.  The repository text has a few slips of the pen
    that a C compiler rejects; the embedding reads them the only way the
    surrounding code allows: [concept>slots[i]] is [concept->slots[i]],
    [slots[i].target.id] is [slots[i].target->id], [concet] is [concept],
    [size_of] is [sizeof], and the header's [void create_concept] is the
    [Concept*] of the definition. *)

From Stdlib Require Import ZArith String Ascii DecimalString.
From stdpp Require Import base option list gmap strings.

Local Open Scope Z_scope.

(** ** Data model (concept.h) *)

(** A heap address.  A C pointer is an optional address; [None] is [NULL]. *)
Abbreviation loc := positive.
Abbreviation ptr := (option positive).
Abbreviation NULL := (@None positive).

(** [struct Slot { char* name; Concept* target; }] *)
Record Slot := mkSlot { name : ptr; target : ptr }.

(** [struct Concept { char* id; char* types; Slot* slots; int slot_count;
    int slot_capacity; }] *)
Record Concept := mkConcept {
  id : ptr;
  types : ptr;
  slots : ptr;
  slot_count : Z;
  slot_capacity : Z
}.

Definition set_slots (p : ptr) (r : Concept) : Concept :=
  mkConcept (id r) (types r) p (slot_count r) (slot_capacity r).
Definition set_slot_count (n : Z) (r : Concept) : Concept :=
  mkConcept (id r) (types r) (slots r) n (slot_capacity r).
Definition set_slot_capacity (n : Z) (r : Concept) : Concept :=
  mkConcept (id r) (types r) (slots r) (slot_count r) n.

(** What one allocated block holds.  [BStr s] is a character buffer holding
    the C string [s] (the characters before the terminating NUL).
    [BSlots cells] is a [Slot] array; a cell that was never written is
    [None], and reading it is undefined.  [BUninit] is the storage of a
    [Concept] between [malloc] and its initialisation. *)
Inductive block :=
| BStr (s : string)
| BSlots (cells : list (option Slot))
| BConcept (r : Concept)
| BUninit.

(** The machine: the heap and the two output streams. *)
Record state := mkState {
  heap : gmap positive block;
  stdout : string;
  stderr : string
}.

Definition set_heap (f : gmap positive block → gmap positive block) (s : state) : state :=
  mkState (f (heap s)) (stdout s) (stderr s).

(** ** Computations

    A C function is a state transformer that returns normally ([Ret]),
    ends the process through [exit] ([Exit]), or has undefined behaviour
    ([Undef]: a null or dangling dereference, an out-of-bounds or
    uninitialised read, an invalid [free], a signed overflow). *)
Inductive outcome (A : Type) :=
| Ret (a : A) (s : state)
| Exit (code : Z) (s : state)
| Undef.
Arguments Ret {A} a s.
Arguments Exit {A} code s.
Arguments Undef {A}.

Definition M (A : Type) : Type := state → outcome A.

Definition ret {A} (a : A) : M A := λ s, Ret a s.

Definition bind {A B} (m : M A) (k : A → M B) : M B := λ s,
  match m s with
  | Ret a s' => k a s'
  | Exit c s' => Exit c s'
  | Undef => Undef
  end.

Notation "x ← m ; k" := (bind m (λ x, k))
  (at level 20, m at level 100, k at level 200, only parsing, right associativity).
Notation "m ;; k" := (bind m (λ _, k))
  (at level 100, k at level 200, only parsing, right associativity).

Definition undef {A} : M A := λ _, Undef.
Definition exit {A} (code : Z) : M A := λ s, Exit code s.

(** ** [int] arithmetic

    [int] is 32 bits wide.  Signed overflow is undefined in C, so the
    arithmetic of the embedding yields [Undef] outside the range. *)
Definition INT_MIN : Z := - 2 ^ 31.
Definition INT_MAX : Z := 2 ^ 31 - 1.

Definition in_int (z : Z) : bool := (INT_MIN <=? z) && (z <=? INT_MAX).

Definition int_of (z : Z) : M Z := λ s, if in_int z then Ret z s else Undef.
Definition int_add (a b : Z) : M Z := int_of (a + b).
Definition int_mul (a b : Z) : M Z := int_of (a * b).

(** ** The C library *)

(** The allocator behind [malloc], [realloc] and [strdup]: whether it grants
    a request, which may depend on the heap and on the block that is asked
    for (its size), and which unused address it hands out. *)
Class Allocator := {
  alloc_grant : gmap positive block → block → bool;
  alloc_pick : gmap positive block → positive;
  alloc_pick_fresh : ∀ h, h !! alloc_pick h = None
}.

Definition is_null (p : ptr) : bool :=
  match p with Some _ => false | None => true end.

Definition load (p : ptr) : M block := λ s,
  match p with
  | Some a => match heap s !! a with Some b => Ret b s | None => Undef end
  | None => Undef
  end.

Definition store (p : ptr) (b : block) : M unit := λ s,
  match p with
  | Some a =>
      match heap s !! a with
      | Some _ => Ret tt (set_heap <[a := b]> s)
      | None => Undef
      end
  | None => Undef
  end.

(** Reading a C string through a [char*]. *)
Definition load_str (p : ptr) : M string :=
  b ← load p; match b with BStr str => ret str | _ => undef end.

(** Reading a [Concept] through a [Concept*]. *)
Definition load_concept (p : ptr) : M Concept :=
  b ← load p; match b with BConcept r => ret r | _ => undef end.

(** Reading a [Slot] array through a [Slot*]. *)
Definition load_cells (p : ptr) : M (list (option Slot)) :=
  b ← load p; match b with BSlots cells => ret cells | _ => undef end.

(** [concept->slots[i]], read. *)
Definition load_slot (concept : ptr) (i : Z) : M Slot :=
  r ← load_concept concept;
  cells ← load_cells (slots r);
  if i <? 0 then undef else
  match cells !! Z.to_nat i with
  | Some (Some sl) => ret sl
  | _ => undef
  end.

(** [concept->slots[i] = sl], written. *)
Definition store_slot (concept : ptr) (i : Z) (sl : Slot) : M unit :=
  r ← load_concept concept;
  cells ← load_cells (slots r);
  if (i <? 0) || (Z.of_nat (length cells) <=? i) then undef else
  store (slots r) (BSlots (<[Z.to_nat i := Some sl]> cells)).

(** A write to one field of [*concept]. *)
Definition update_concept (concept : ptr) (f : Concept → Concept) : M unit :=
  r ← load_concept concept; store concept (BConcept (f r)).

Section Libc.
Context `{Allocator}.

(** [malloc]: [NULL] when the allocator refuses, otherwise an unused
    address, holding [b]. *)
Definition malloc (b : block) : M ptr := λ s,
  if alloc_grant (heap s) b
  then let a := alloc_pick (heap s) in Ret (Some a) (set_heap <[a := b]> s)
  else Ret NULL s.

(** [strdup]: a fresh buffer holding a copy of the string at [p]. *)
Definition strdup (p : ptr) : M ptr :=
  str ← load_str p; malloc (BStr str).

(** [realloc(p, n * sizeof(Slot))].  With [p = NULL] it is [malloc].  A
    negative [n] converts to a [size_t] beyond any address space and is
    refused.  On success the old block is released and the new one, at an
    address that is unused once the old block is gone (possibly the old
    address), holds the old cells that fit, then cells never written
    ([resize]); on refusal the old block stays. *)
Definition realloc (p : ptr) (n : Z) : M ptr :=
  match p with
  | None => if n <? 0 then ret NULL else malloc (BSlots (resize (Z.to_nat n) None []))
  | Some a =>
      cells ← load_cells p;
      if n <? 0 then ret NULL else
      λ s, if alloc_grant (heap s) (BSlots (resize (Z.to_nat n) None cells))
           then let h := delete a (heap s) in
                let a' := alloc_pick h in
                Ret (Some a') (set_heap (λ _, <[a' := BSlots (resize (Z.to_nat n) None cells)]> h) s)
           else Ret NULL s
  end.
End Libc.

(** [free]: nothing on [NULL]; undefined on an address that is not
    allocated; otherwise the block is gone. *)
Definition free (p : ptr) : M unit :=
  match p with
  | None => ret tt
  | Some a => load p;; λ s, Ret tt (set_heap (delete a) s)
  end.

(** [printf] and [fprintf(stderr, ...)] with the text already formatted. *)
Definition printf (text : string) : M unit := λ s,
  Ret tt (mkState (heap s) (stdout s +:+ text) (stderr s)).
Definition fprintf_stderr (text : string) : M unit := λ s,
  Ret tt (mkState (heap s) (stdout s) (stderr s +:+ text)).

(** The characters written [\n] and [\t] in the format strings. *)
Definition nl : string := String "010"%char EmptyString.
Definition tab : string := String "009"%char EmptyString.

(** [%d] *)
Definition fmt_d (z : Z) : string := NilZero.string_of_int (Z.to_int z).

(** [for (int i = i0; <n more rounds>; i++) body(i)] *)
Fixpoint for_loop (n : nat) (i : Z) (body : Z → M unit) : M unit :=
  match n with
  | O => ret tt
  | S n' => body i;; i' ← int_add i 1; for_loop n' i' body
  end.

(** ** The program (concept.c, main.c) *)

Section Program.
Context `{Allocator}.

(** [void print_concept(const Concept* concept)] *)
Definition print_concept (concept : ptr) : M unit :=
  if is_null concept then ret tt else
  r ← load_concept concept; s_id ← load_str (id r);
  printf ("ID: " +:+ s_id +:+ nl);;
  r ← load_concept concept; s_types ← load_str (types r);
  printf ("Types: " +:+ s_types +:+ nl);;
  r ← load_concept concept;
  printf ("Slots (# of slots = " +:+ fmt_d (slot_count r) +:+ "):" +:+ nl);;
  r ← load_concept concept;
  for_loop (Z.to_nat (slot_count r)) 0 (λ i,
    i1 ← int_add i 1;
    printf (tab +:+ "#" +:+ fmt_d i1 +:+ nl);;
    sl ← load_slot concept i; s_name ← load_str (name sl);
    printf (tab +:+ tab +:+ "Name: " +:+ s_name +:+ nl);;
    sl ← load_slot concept i;
    if is_null (target sl)
    then printf (tab +:+ tab +:+ "Target: (null)" +:+ nl)
    else
      sl ← load_slot concept i;
      t ← load_concept (target sl); s_tid ← load_str (id t);
      printf (tab +:+ tab +:+ "Target: " +:+ s_tid +:+ nl)).

(** [void add_slot(Concept* concept, const char* slot_name, Concept* target)] *)
Definition add_slot (concept slot_name target : ptr) : M unit :=
  if is_null concept || is_null slot_name || is_null target then ret tt else
  (* 1. Resize if needed *)
  r ← load_concept concept;
  (if slot_capacity r <=? slot_count r then
     new_capacity ← (if slot_capacity r =? 0 then ret 2
                     else int_mul (slot_capacity r) 2);
     new_slots ← realloc (slots r) new_capacity;
     if is_null new_slots then
       fprintf_stderr ("Failed to allocate memory for slots." +:+ nl);;
       exit 1
     else
       update_concept concept (set_slots new_slots);;
       update_concept concept (set_slot_capacity new_capacity)
   else ret tt);;
  (* 2. Add new slot at the next index *)
  r ← load_concept concept;
  let slot := slot_count r in
  new_name ← strdup slot_name;
  store_slot concept slot (mkSlot new_name target);;
  (* 3. Increment count *)
  r ← load_concept concept;
  n ← int_add (slot_count r) 1;
  update_concept concept (set_slot_count n).

(** [Concept* create_concept(const char* id, const char* type)].  The
    field stores into the new record are kept in locals and written as
    one block at the end; no field is read from the record before. *)
Definition create_concept (id type : ptr) : M ptr :=
  concept ← malloc BUninit;
  if is_null concept then
    fprintf_stderr ("Failed to allocate memory for Concept." +:+ nl);;
    exit 1
  else
    concept_id ← strdup id;
    concept_types ← strdup type;
    (* Check for strdup failure *)
    if is_null concept_id || is_null concept_types then
      fprintf_stderr ("Failed to allocate memory for Concept strings." +:+ nl);;
      free concept_id;;
      free concept_types;;
      free concept;;
      exit 1
    else
      store concept (BConcept (mkConcept concept_id concept_types NULL 0 0));;
      ret concept.

(** [void free_concept(Concept* concept)] *)
Definition free_concept (concept : ptr) : M unit :=
  if is_null concept then ret tt else
  r ← load_concept concept; free (id r);;
  r ← load_concept concept; free (types r);;
  r ← load_concept concept;
  for_loop (Z.to_nat (slot_count r)) 0 (λ i,
    sl ← load_slot concept i; free (name sl));;
  r ← load_concept concept; free (slots r);;
  free concept.

(** The string literals of [main.c], in static storage. *)
Definition lit_john : loc := 1%positive.
Definition lit_Person : loc := 2%positive.
Definition lit_book : loc := 3%positive.
Definition lit_Object : loc := 4%positive.
Definition lit_owns : loc := 5%positive.

Definition main_image : gmap positive block :=
  <[lit_john := BStr "john"]> (<[lit_Person := BStr "Person"]>
  (<[lit_book := BStr "book"]> (<[lit_Object := BStr "Object"]>
  (<[lit_owns := BStr "owns"]> ∅)))).

(** [int main()] *)
Definition main : M Z :=
  john ← create_concept (Some lit_john) (Some lit_Person);
  book ← create_concept (Some lit_book) (Some lit_Object);
  add_slot john (Some lit_owns) book;;
  print_concept john;;
  ret 0.
End Program.

(** ** Some allocators *)

(** Never refuses; hands out the least unused address. *)
#[export] Program Instance generous : Allocator := {|
  alloc_grant := λ _ _, true;
  alloc_pick := λ h, fresh (dom h)
|}.
Next Obligation. intros h. apply not_elem_of_dom, is_fresh. Qed.

(** Refuses once [k] blocks are allocated. *)
Program Definition frugal (k : nat) : Allocator := {|
  alloc_grant := λ h _, bool_decide (size h < k)%nat;
  alloc_pick := λ h, fresh (dom h)
|}.
Next Obligation. intros _ h. apply not_elem_of_dom, is_fresh. Qed.

(** Grants exactly the requests that [ok] accepts, in every heap. *)
Program Definition picky (ok : block → bool) : Allocator := {|
  alloc_grant := λ _ b, ok b;
  alloc_pick := λ h, fresh (dom h)
|}.
Next Obligation. intros _ h. apply not_elem_of_dom, is_fresh. Qed.

(** Every block but the strings of fewer than [k] characters. *)
Definition long_string (k : nat) (b : block) : bool :=
  match b with
  | BStr str => bool_decide (k ≤ String.length str)%nat
  | _ => true
  end.

(** ** Pointers into the heap *)

(** The block a pointer refers to. *)
Definition deref (h : gmap positive block) (p : ptr) : option block :=
  match p with Some a => h !! a | None => None end.

(** The heap once the block of [p] is released ([free(NULL)] does nothing). *)
Definition release (p : ptr) (h : gmap positive block) : gmap positive block :=
  match p with Some a => delete a h | None => h end.

(** The cells a [Slot*] gives access to: none through [NULL]. *)
Definition array_at (h : gmap positive block) (p : ptr) (cells : list (option Slot)) : Prop :=
  match p with
  | Some a => h !! a = Some (BSlots cells)
  | None => cells = []
  end.


(** ** Views of the heap *)

Definition str_at (h : gmap positive block) (p : ptr) : option string :=
  match deref h p with Some (BStr str) => Some str | _ => None end.

Definition concept_at (h : gmap positive block) (p : ptr) : option Concept :=
  match deref h p with Some (BConcept r) => Some r | _ => None end.

Definition cells_at (h : gmap positive block) (p : ptr) : option (list (option Slot)) :=
  match deref h p with Some (BSlots cells) => Some cells | _ => None end.

(** All cells written, or nothing. *)
Fixpoint written (cells : list (option Slot)) : option (list Slot) :=
  match cells with
  | [] => Some []
  | Some sl :: rest =>
      match written rest with Some L => Some (sl :: L) | None => None end
  | None :: _ => None
  end.

(** The slots [slots[0 .. slot_count-1]] of a record, when they can all be
    read.  With no slot to read the array is not looked at. *)
Definition committed (h : gmap positive block) (r : Concept) : option (list Slot) :=
  match Z.to_nat (slot_count r) with
  | O => Some []
  | n =>
      match cells_at h (slots r) with
      | Some cells => if decide (n ≤ length cells)%nat then written (take n cells) else None
      | None => None
      end
  end.

(** ** The text of a concept, after the rendering format of the
    specification (section 6): the id, the type label, the slot count, then
    per slot its 1-based ordinal, its name and its target's id or the
    marker [(null)]. *)
Definition render_target (h : gmap positive block) (t : ptr) : option string :=
  match t with
  | None => Some "(null)"
  | Some _ =>
      match concept_at h t with
      | Some tr => str_at h (id tr)
      | None => None
      end
  end.

Definition render_slot (h : gmap positive block) (ordinal : Z) (sl : Slot) : option string :=
  match str_at h (name sl), render_target h (target sl) with
  | Some s_name, Some s_tid =>
      Some (tab +:+ "#" +:+ fmt_d ordinal +:+ nl +:+
            tab +:+ tab +:+ "Name: " +:+ s_name +:+ nl +:+
            tab +:+ tab +:+ "Target: " +:+ s_tid +:+ nl)
  | _, _ => None
  end.

Fixpoint render_slots (h : gmap positive block) (ordinal : Z) (L : list Slot) : option string :=
  match L with
  | [] => Some EmptyString
  | sl :: L' =>
      match render_slot h ordinal sl, render_slots h (ordinal + 1) L' with
      | Some text, Some rest => Some (text +:+ rest)
      | _, _ => None
      end
  end.

Definition render (h : gmap positive block) (c : loc) : option string :=
  match h !! c with
  | Some (BConcept r) =>
      match str_at h (id r), str_at h (types r), committed h r with
      | Some s_id, Some s_types, Some L =>
          if decide (slot_count r ≤ INT_MAX) then
            match render_slots h 1 L with
            | Some body =>
                Some ("ID: " +:+ s_id +:+ nl +:+
                      "Types: " +:+ s_types +:+ nl +:+
                      "Slots (# of slots = " +:+ fmt_d (slot_count r) +:+ "):" +:+ nl +:+
                      body)
            | None => None
            end
          else None
      | _, _, _ => None
      end
  | _ => None
  end.

(** ** Kinds of computations *)

(** A computation that only looks: when it returns, the heap and [stderr]
    are as before and [stdout] has only grown; it never exits. *)
Definition observer {A} (m : M A) : Prop :=
  ∀ s, match m s with
       | Ret _ s' =>
           heap s' = heap s ∧ stderr s' = stderr s ∧
           ∃ text, stdout s' = stdout s +:+ text
       | Exit _ _ => False
       | Undef => True
       end.

(** The body of the loop of [print_concept], for one index. *)
Definition print_slot (concept : ptr) (i : Z) : M unit :=
  i1 ← int_add i 1;
  printf (tab +:+ "#" +:+ fmt_d i1 +:+ nl);;
  sl ← load_slot concept i; s_name ← load_str (name sl);
  printf (tab +:+ tab +:+ "Name: " +:+ s_name +:+ nl);;
  sl ← load_slot concept i;
  if is_null (target sl)
  then printf (tab +:+ tab +:+ "Target: (null)" +:+ nl)
  else
    sl ← load_slot concept i;
    t ← load_concept (target sl); s_tid ← load_str (id t);
    printf (tab +:+ tab +:+ "Target: " +:+ s_tid +:+ nl).

(** Slot [k] of the record [r] can be read, and is [sl]. *)
Definition slot_readable (h : gmap positive block) (r : Concept) (k : nat) (sl : Slot) : Prop :=
  ∃ cells, deref h (slots r) = Some (BSlots cells) ∧ cells !! k = Some (Some sl).

(** A computation that never returns to its caller. *)
Definition fatal {A} (m : M A) : Prop := ∀ s a s', m s ≠ Ret a s'.

(** ** The two halves of [add_slot] *)

(** The capacity [add_slot] asks for when it grows the array. *)
Definition new_capacity_of (capacity : Z) : Z :=
  if capacity =? 0 then 2 else capacity * 2.

Section Halves.
Context `{Allocator}.

(** "1. Resize if needed" *)
Definition grow_slots (concept : ptr) : M unit :=
  r ← load_concept concept;
  if slot_capacity r <=? slot_count r then
    new_capacity ← (if slot_capacity r =? 0 then ret 2
                    else int_mul (slot_capacity r) 2);
    new_slots ← realloc (slots r) new_capacity;
    if is_null new_slots then
      fprintf_stderr ("Failed to allocate memory for slots." +:+ nl);;
      exit 1
    else
      update_concept concept (set_slots new_slots);;
      update_concept concept (set_slot_capacity new_capacity)
  else ret tt.

(** "2. Add new slot at the next index" and "3. Increment count" *)
Definition commit_slot (concept slot_name target : ptr) : M unit :=
  r ← load_concept concept;
  new_name ← strdup slot_name;
  store_slot concept (slot_count r) (mkSlot new_name target);;
  r ← load_concept concept;
  n ← int_add (slot_count r) 1;
  update_concept concept (set_slot_count n).
End Halves.

(** The capacity after one append, as [add_slot] computes it from the count
    and the capacity before. *)
Definition next_capacity (count capacity : Z) : Z :=
  if capacity <=? count then new_capacity_of capacity else capacity.

(** ** Live concepts *)

(** The concept at [c] is live with record [r] and committed slots [L]: the
    count is the number of slots, the capacity is the size of the array
    behind [slots] (no array at capacity 0 and [slots = NULL]), and the
    first cells of the array are the slots, in order. *)
Definition live (h : gmap positive block) (c : loc) (r : Concept) (L : list Slot) : Prop :=
  h !! c = Some (BConcept r) ∧
  slot_count r = Z.of_nat (length L) ∧
  slot_capacity r ≤ INT_MAX ∧
  ∃ cells, array_at h (slots r) cells ∧
    slot_capacity r = Z.of_nat (length cells) ∧
    take (length L) cells = Some <$> L.

(** An allocator that grants every request. *)
Definition granting `{Allocator} : Prop := ∀ h b, alloc_grant h b = true.

(** ** Sequences of appends *)

(** The calls [add_slot(concept, name, target)] of a caller, one after the
    other; a call is the pair of its name and target arguments. *)
Fixpoint add_slots `{Allocator} (concept : ptr) (calls : list (ptr * ptr)) : M unit :=
  match calls with
  | [] => ret tt
  | (slot_name, target) :: rest =>
      add_slot concept slot_name target;; add_slots concept rest
  end.

(** A call with a present name (a C string in the heap) and a present
    target. *)
Definition valid_call (h : gmap positive block) (call : ptr * ptr) : Prop :=
  is_Some (str_at h call.1) ∧ is_Some call.2.

(** The capacity after [n] further appends to a concept with the given
    count and capacity. *)
Fixpoint capacity_after (n : nat) (count capacity : Z) : Z :=
  match n with
  | O => capacity
  | S n' => capacity_after n' (count + 1) (next_capacity count capacity)
  end.

(** Every live concept has its count within its capacity. *)
Definition bounded_block (b : block) : Prop :=
  match b with
  | BConcept r => 0 ≤ slot_count r ≤ slot_capacity r
  | _ => True
  end.

#[export] Instance bounded_block_dec b : Decision (bounded_block b).
Proof. destruct b; simpl; apply _. Defined.

Definition bounded_heap (h : gmap positive block) : Prop :=
  map_Forall (λ _, bounded_block) h.

(** A computation that only releases: when it returns, every block still
    allocated is as it was, and nothing was written to the streams. *)
Definition releaser {A} (m : M A) : Prop :=
  ∀ s a s', m s = Ret a s' →
    heap s' ⊆ heap s ∧ stdout s' = stdout s ∧ stderr s' = stderr s.

(** The text of the end-to-end scenario of the specification (section 8). *)
Definition demo_text : string :=
  "ID: john" +:+ nl +:+
  "Types: Person" +:+ nl +:+
  "Slots (# of slots = 1):" +:+ nl +:+
  tab +:+ "#1" +:+ nl +:+
  tab +:+ tab +:+ "Name: owns" +:+ nl +:+
  tab +:+ tab +:+ "Target: book" +:+ nl.

(** ** What a concept owns, and what its text depends on *)

(** The name pointers, [NULL] left out, of the cells that were written. *)
Definition names_of (cells : list (option Slot)) : list positive :=
  omap (λ cell : option Slot,
          match cell with Some sl => name sl | None => None end) cells.

(** The array behind [slots], empty when there is none. *)
Definition cells_of (h : gmap positive block) (r : Concept) : list (option Slot) :=
  match cells_at h (slots r) with Some cells => cells | None => [] end.

(** The string buffers a record owns: its id and type buffers and the name
    buffers of its committed slots. *)
Definition owned_strings (h : gmap positive block) (r : Concept) : list positive :=
  option_list (id r) ++ option_list (types r) ++
  names_of (take (Z.to_nat (slot_count r)) (cells_of h r)).

(** The blocks the concept at [c] owns besides its record: its string
    buffers and its slot array; in the order in which [free_concept]
    releases them. *)
Definition owned (h : gmap positive block) (c : loc) : list positive :=
  match h !! c with
  | Some (BConcept r) => owned_strings h r ++ option_list (slots r)
  | _ => []
  end.

(** The blocks [free_concept] releases: what the concept owns, and its
    record. *)
Definition released (h : gmap positive block) (c : loc) : list positive :=
  owned h c ++ [c].

(** The body of the loop of [free_concept], for one index. *)
Definition free_name (concept : ptr) (i : Z) : M unit :=
  sl ← load_slot concept i; free (name sl).

(** The blocks the text of a slot depends on: its name buffer, its target's
    record and the target's id buffer. *)
Definition slot_footprint (h : gmap positive block) (sl : Slot) : list positive :=
  option_list (name sl) ++
  match target sl with
  | Some t =>
      t :: match h !! t with
           | Some (BConcept tr) => option_list (id tr)
           | _ => []
           end
  | None => []
  end.

(** The blocks the text of the concept at [c] depends on: its record, its
    id and type buffers, its slot array, and what its committed slots
    depend on. *)
Definition footprint (h : gmap positive block) (c : loc) : list positive :=
  c :: match h !! c with
       | Some (BConcept r) =>
           option_list (id r) ++ option_list (types r) ++ option_list (slots r) ++
           match committed h r with
           | Some L => concat (slot_footprint h <$> L)
           | None => []
           end
       | _ => []
       end.

(** ** Stores with exclusive ownership *)

Definition is_string (h : gmap positive block) (x : loc) : Prop :=
  ∃ str, h !! x = Some (BStr str).

Definition is_array (h : gmap positive block) (x : loc) : Prop :=
  ∃ cells, h !! x = Some (BSlots cells).

(** The ownership discipline of the four operations: the string buffers a
    concept owns hold strings and its slot array is an array, and no block
    is owned by two concepts.  Targets are not owned and may dangle. *)
Definition wf_store (h : gmap positive block) : Prop :=
  (∀ c r, h !! c = Some (BConcept r) →
     Forall (is_string h) (owned_strings h r) ∧
     ∀ y, slots r = Some y → is_array h y) ∧
  (∀ c1 c2 x, x ∈ owned h c1 → x ∈ owned h c2 → c1 = c2).

(** A heap without concepts, such as the one [main] starts in. *)
Definition not_concept (b : block) : Prop :=
  match b with BConcept _ => False | _ => True end.

#[export] Instance not_concept_dec b : Decision (not_concept b).
Proof. destruct b; simpl; apply _. Defined.

Definition concept_free (h : gmap positive block) : Prop :=
  map_Forall (λ _, not_concept) h.

(** No committed slot of the concept at [t] has [c] as its target. *)
Definition avoids (h : gmap positive block) (t c : loc) : Prop :=
  ∀ r L, h !! t = Some (BConcept r) → committed h r = Some L →
    Forall (λ sl, target sl ≠ Some c) L.

(** ** Concrete machines *)

(** The state a computation returns in (the state it started in when it
    does not return). *)
Definition after {A} (m : M A) (s : state) : state :=
  match m s with Ret _ s' => s' | _ => s end.

(** [main] starts here: the literals in memory, nothing written yet. *)
Definition boot : state := mkState main_image EmptyString EmptyString.

(** With the generous allocator: after the two [create_concept] calls of
    [main], john is the concept at address 6 and book the one at 9. *)
Definition john : loc := 6%positive.
Definition book : loc := 9%positive.

Definition two_concepts : state :=
  after (create_concept (Some lit_john) (Some lit_Person);;
         create_concept (Some lit_book) (Some lit_Object)) boot.

(** ... after [add_slot(john, "owns", book)] as well *)
Definition linked : state :=
  after (add_slot (Some john) (Some lit_owns) (Some book)) two_concepts.

(** ... after [add_slot(john, "owns", john)] instead: john is his own
    target *)
Definition self_linked : state :=
  after (add_slot (Some john) (Some lit_owns) (Some john)) two_concepts.

(** ... after [add_slot(john, "owns", book)] and
    [add_slot(book, "owns", john)]: each is the other's target *)
Definition cyclic : state :=
  after (add_slot (Some book) (Some lit_owns) (Some john)) linked.

(** Nine calls that all pass the name ["owns"], with john and book as
    targets in turn. *)
Definition nine_calls : list (ptr * ptr) :=
  [(Some lit_owns, Some book); (Some lit_owns, Some john);
   (Some lit_owns, Some book); (Some lit_owns, Some john);
   (Some lit_owns, Some book); (Some lit_owns, Some john);
   (Some lit_owns, Some book); (Some lit_owns, Some john);
   (Some lit_owns, Some book)].

(** ... and after [free_concept(john)] in [linked] *)
Definition torn : state := after (free_concept (Some john)) linked.

(** ... and after [free_concept(john)] in [self_linked] and in [cyclic] *)
Definition self_torn : state := after (free_concept (Some john)) self_linked.
Definition cyclic_torn : state := after (free_concept (Some john)) cyclic.

(** What book prints in [cyclic]. *)
Definition book_text : string :=
  "ID: book" +:+ nl +:+
  "Types: Object" +:+ nl +:+
  "Slots (# of slots = 1):" +:+ nl +:+
  tab +:+ "#1" +:+ nl +:+
  tab +:+ tab +:+ "Name: owns" +:+ nl +:+
  tab +:+ tab +:+ "Target: john" +:+ nl.

(** With an allocator that grants the slot array and refuses the next
    request: [two_concepts] after [add_slot(john, "owns", book)]. *)
Definition nameless : state :=
  after (@add_slot (frugal 12) (Some john) (Some lit_owns) (Some book)) two_concepts.

(** ** The diagnostics of [concept.c] *)

Definition msg_concept : string := "Failed to allocate memory for Concept." +:+ nl.
Definition msg_strings : string :=
  "Failed to allocate memory for Concept strings." +:+ nl.
Definition msg_slots : string := "Failed to allocate memory for slots." +:+ nl.

(** ** Sound stores *)

(** The concept at [c] is in order: it is live, every committed slot has a
    target, and the blocks it owns are pairwise distinct. *)
Definition tidy (h : gmap positive block) (c : loc) (r : Concept) : Prop :=
  (∃ L, live h c r L ∧ Forall (λ sl, is_Some (target sl)) L) ∧
  NoDup (owned h c).

(** Exclusive ownership, and every concept in order. *)
Definition sound_store (h : gmap positive block) : Prop :=
  wf_store h ∧ ∀ c r, h !! c = Some (BConcept r) → tidy h c r.

(** A computation that never ends the process. *)
Definition no_exit {A} (m : M A) : Prop := ∀ s code s', m s ≠ Exit code s'.

(** ** Clients of the four operations *)

(** One call of a client; what [create_concept] returns is dropped here,
    later calls name their concepts by address. *)
Inductive api_call :=
| CreateConcept (id type : ptr)
| AddSlot (concept slot_name target : ptr)
| PrintConcept (concept : ptr)
| FreeConcept (concept : ptr).

Definition api_run `{Allocator} (call : api_call) : M unit :=
  match call with
  | CreateConcept id type => create_concept id type;; ret tt
  | AddSlot concept slot_name target => add_slot concept slot_name target
  | PrintConcept concept => print_concept concept
  | FreeConcept concept => free_concept concept
  end.

Fixpoint api_runs `{Allocator} (calls : list api_call) : M unit :=
  match calls with
  | [] => ret tt
  | call :: rest => api_run call;; api_runs rest
  end.

(** ** Heaps that differ by one concept *)

(** [h] is [h0] and, on addresses unused in [h0], the record of the concept
    at [c] and the blocks it owns, each once. *)
Definition adds_concept (h0 h : gmap positive block) (c : loc) : Prop :=
  NoDup (released h c) ∧
  ∀ x, if decide (x ∈ released h c)
       then is_Some (h !! x) ∧ h0 !! x = None
       else h !! x = h0 !! x.

(** ** The two formats of [print_concept] *)

(** The three lines before the slots. *)
Definition header_text (s_id s_types : string) (count : Z) : string :=
  "ID: " +:+ s_id +:+ nl +:+
  "Types: " +:+ s_types +:+ nl +:+
  "Slots (# of slots = " +:+ fmt_d count +:+ "):" +:+ nl.

(** The three lines of one slot. *)
Definition slot_text (ordinal : Z) (s_name s_tid : string) : string :=
  tab +:+ "#" +:+ fmt_d ordinal +:+ nl +:+
  tab +:+ tab +:+ "Name: " +:+ s_name +:+ nl +:+
  tab +:+ tab +:+ "Target: " +:+ s_tid +:+ nl.

(** ** A record at the limit of [int] doubling *)

(** A heap with one record whose count and capacity are 2^30, and one
    string. *)
Definition brim : state :=
  mkState (<[1%positive := BConcept (mkConcept NULL NULL NULL (2 ^ 30) (2 ^ 30))]>
             (<[2%positive := BStr "owns"]> ∅))
          EmptyString EmptyString.

(** ** The request of a full concept *)

(** The array [add_slot] asks [realloc] for when the record [r] is full:
    the old cells, then cells never written, up to the new capacity. *)
Definition grown_array (h : gmap positive block) (r : Concept) : block :=
  BSlots (resize (Z.to_nat (new_capacity_of (slot_capacity r))) None (cells_of h r)).


(** * Lemmas *)

(** ** Runs of the primitives *)

Lemma bind_Ret {A B} (m : M A) (k : A → M B) s b s2 :
  bind m k s = Ret b s2 ↔ ∃ a s1, m s = Ret a s1 ∧ k a s1 = Ret b s2.
Proof.
  unfold bind. destruct (m s) as [a s1| |]; split.
  - eauto.
  - by intros (? & ? & [= <- <-] & ?).
  - done.
  - by intros (? & ? & ? & ?).
  - done.
  - by intros (? & ? & ? & ?).
Qed.

Lemma ret_Ret {A} (a b : A) s s' : ret a s = Ret b s' ↔ b = a ∧ s' = s.
Proof. unfold ret. naive_solver. Qed.

Lemma load_Ret p s b s' :
  load p s = Ret b s' ↔ deref (heap s) p = Some b ∧ s' = s.
Proof.
  unfold load, deref. destruct p as [a|]; [|naive_solver].
  destruct (heap s !! a); naive_solver.
Qed.

Ltac typed_load :=
  rewrite bind_Ret; setoid_rewrite load_Ret; split;
  [ intros (b & s1 & [Hb ->] & Hk); destruct b; simplify_eq; try done;
    apply ret_Ret in Hk as [-> ->]; done
  | intros [Hb ->]; eexists _, _; split; [done|]; done ].

Lemma load_str_Ret p s str s' :
  load_str p s = Ret str s' ↔ deref (heap s) p = Some (BStr str) ∧ s' = s.
Proof. unfold load_str. typed_load. Qed.

Lemma load_concept_Ret p s r s' :
  load_concept p s = Ret r s' ↔ deref (heap s) p = Some (BConcept r) ∧ s' = s.
Proof. unfold load_concept. typed_load. Qed.

Lemma load_cells_Ret p s cells s' :
  load_cells p s = Ret cells s' ↔ deref (heap s) p = Some (BSlots cells) ∧ s' = s.
Proof. unfold load_cells. typed_load. Qed.

Lemma load_slot_Ret p i s sl s' :
  load_slot p i s = Ret sl s' ↔
  ∃ r cells, deref (heap s) p = Some (BConcept r) ∧
    deref (heap s) (slots r) = Some (BSlots cells) ∧
    0 ≤ i ∧ cells !! Z.to_nat i = Some (Some sl) ∧ s' = s.
Proof.
  unfold load_slot. rewrite bind_Ret. setoid_rewrite load_concept_Ret.
  setoid_rewrite bind_Ret. setoid_rewrite load_cells_Ret. split.
  - intros (r & s1 & [Hr ->] & cells & s2 & [Hc ->] & Hk).
    destruct (Z.ltb_spec i 0); [done|].
    destruct (cells !! Z.to_nat i) as [[sl'|]|] eqn:Hi; try done.
    apply ret_Ret in Hk as [-> ->]. by exists r, cells.
  - intros (r & cells & Hr & Hc & Hi & Hsl & ->).
    exists r, s. split; [done|]. exists cells, s. split; [done|].
    destruct (Z.ltb_spec i 0); [lia|]. by rewrite Hsl.
Qed.

Lemma store_Ret p b s u s' :
  store p b s = Ret u s' ↔
  ∃ a, p = Some a ∧ is_Some (heap s !! a) ∧ s' = set_heap <[a := b]> s.
Proof.
  unfold store. destruct p as [a|]; [|naive_solver].
  destruct (heap s !! a) eqn:Ha; split.
  - intros [= <- <-]. eauto.
  - intros (? & [= <-] & _ & ->). by destruct u.
  - done.
  - intros (? & [= <-] & [? ?] & _). congruence.
Qed.

Lemma update_concept_Ret p f s u s' :
  update_concept p f s = Ret u s' ↔
  ∃ a r, p = Some a ∧ heap s !! a = Some (BConcept r) ∧
    s' = set_heap <[a := BConcept (f r)]> s.
Proof.
  unfold update_concept. rewrite bind_Ret. setoid_rewrite load_concept_Ret.
  setoid_rewrite store_Ret. split.
  - intros (r & s1 & [Hr ->] & a & -> & _ & ->). by exists a, r.
  - intros (a & r & -> & Hr & ->). exists r, s. split; [done|].
    exists a. by rewrite Hr.
Qed.

Lemma store_slot_Ret p i sl s u s' :
  store_slot p i sl s = Ret u s' ↔
  ∃ r a cells, deref (heap s) p = Some (BConcept r) ∧ slots r = Some a ∧
    heap s !! a = Some (BSlots cells) ∧ 0 ≤ i < Z.of_nat (length cells) ∧
    s' = set_heap <[a := BSlots (<[Z.to_nat i := Some sl]> cells)]> s.
Proof.
  unfold store_slot. rewrite bind_Ret. setoid_rewrite load_concept_Ret.
  setoid_rewrite bind_Ret. setoid_rewrite load_cells_Ret. split.
  - intros (r & s1 & [Hr ->] & cells & s2 & [Hc ->] & Hk).
    destruct (Z.ltb_spec i 0); [done|].
    destruct (Z.leb_spec (Z.of_nat (length cells)) i); [done|]. simpl in Hk.
    apply store_Ret in Hk as (a & Ha & _ & ->). rewrite Ha in Hc.
    exists r, a, cells. split_and!; try done; lia.
  - intros (r & a & cells & Hr & Ha & Hc & Hi & ->).
    exists r, s. split; [done|]. exists cells, s. split; [by rewrite Ha|].
    destruct (Z.ltb_spec i 0); [lia|].
    destruct (Z.leb_spec (Z.of_nat (length cells)) i); [lia|]. simpl.
    apply store_Ret. exists a. by rewrite Hc.
Qed.

Lemma int_of_Ret z s z' s' :
  int_of z s = Ret z' s' ↔ INT_MIN ≤ z ≤ INT_MAX ∧ z' = z ∧ s' = s.
Proof.
  unfold int_of, in_int.
  destruct (Z.leb_spec INT_MIN z), (Z.leb_spec z INT_MAX); simpl;
    split; try done; try (intros [= <- <-]; done); try lia.
  by intros (_ & -> & ->).
Qed.

Lemma printf_Ret text s u s' :
  printf text s = Ret u s' ↔ s' = mkState (heap s) (stdout s +:+ text) (stderr s).
Proof. unfold printf. destruct u. naive_solver. Qed.

Lemma fprintf_stderr_Ret text s u s' :
  fprintf_stderr text s = Ret u s' ↔ s' = mkState (heap s) (stdout s) (stderr s +:+ text).
Proof. unfold fprintf_stderr. destruct u. naive_solver. Qed.

Lemma free_Ret p s u s' :
  free p s = Ret u s' ↔
  (p = NULL ∨ is_Some (deref (heap s) p)) ∧ s' = set_heap (release p) s.
Proof.
  unfold free. destruct p as [a|]; simpl.
  - rewrite bind_Ret. setoid_rewrite load_Ret. simpl. split.
    + intros (b & s1 & [Hb ->] & [= <-]). split; [right; eauto|done].
    + intros [[?|[b Hb]] ->]; [done|]. exists b, s. destruct u. done.
  - rewrite ret_Ret. destruct u, s. unfold set_heap. simpl. naive_solver.
Qed.

Section LibcRuns.
Context `{Allocator}.

Lemma malloc_Ret b s p s' :
  malloc b s = Ret p s' ↔
  (alloc_grant (heap s) b = false ∧ p = NULL ∧ s' = s) ∨
  (alloc_grant (heap s) b = true ∧ p = Some (alloc_pick (heap s)) ∧
   s' = set_heap <[alloc_pick (heap s) := b]> s).
Proof. unfold malloc. destruct (alloc_grant (heap s) b); naive_solver. Qed.

Lemma strdup_Ret p s q s' :
  strdup p s = Ret q s' ↔
  ∃ str, deref (heap s) p = Some (BStr str) ∧
    ((alloc_grant (heap s) (BStr str) = false ∧ q = NULL ∧ s' = s) ∨
     (alloc_grant (heap s) (BStr str) = true ∧ q = Some (alloc_pick (heap s)) ∧
      s' = set_heap <[alloc_pick (heap s) := BStr str]> s)).
Proof.
  unfold strdup. rewrite bind_Ret. setoid_rewrite load_str_Ret.
  setoid_rewrite malloc_Ret. split.
  - intros (str & s1 & [Hs ->] & Hm). eauto.
  - intros (str & Hs & Hm). eauto.
Qed.

Lemma realloc_Ret p n s q s' :
  realloc p n s = Ret q s' ↔
  ∃ cells, array_at (heap s) p cells ∧
    ((q = NULL ∧ s' = s ∧
      (n < 0 ∨ alloc_grant (heap s) (BSlots (resize (Z.to_nat n) None cells)) = false)) ∨
     (0 ≤ n ∧ alloc_grant (heap s) (BSlots (resize (Z.to_nat n) None cells)) = true ∧
      q = Some (alloc_pick (release p (heap s))) ∧
      s' = set_heap (λ h, <[alloc_pick (release p h) :=
                             BSlots (resize (Z.to_nat n) None cells)]> (release p h)) s)).
Proof.
  unfold realloc, array_at. destruct p as [a|].
  - rewrite bind_Ret. setoid_rewrite load_cells_Ret. simpl. split.
    + intros (cells & s1 & [Hc ->] & Hk). exists cells. split; [done|].
      destruct (Z.ltb_spec n 0).
      * apply ret_Ret in Hk as [-> ->]. left. auto.
      * destruct (alloc_grant (heap s) _) eqn:Hg; simplify_eq; [right|left]; auto.
    + intros (cells & Hc & Hk). exists cells, s. split; [done|].
      destruct (Z.ltb_spec n 0).
      * destruct Hk as [(-> & -> & _)|(? & _)]; [done|lia].
      * destruct Hk as [(-> & -> & [?|Hg])|(_ & Hg & -> & ->)];
          [lia|by rewrite Hg|by rewrite Hg].
  - destruct (Z.ltb_spec n 0).
    + rewrite ret_Ret. split.
      * intros [-> ->]. exists []. split; [done|]. left. auto.
      * intros (cells & -> & [(-> & -> & _)|(? & _)]); [done|lia].
    + rewrite malloc_Ret. simpl. split.
      * intros [(Hg & -> & ->)|(Hg & -> & ->)]; exists []; (split; [done|]);
          [left|right]; auto.
      * intros (cells & -> & [(-> & -> & [?|Hg])|(_ & Hg & -> & ->)]);
          [lia|left|right]; auto.
Qed.
End LibcRuns.

(** ** Strings *)

Lemma append_assoc (a b c : string) : (a +:+ b) +:+ c = a +:+ (b +:+ c).
Proof.
  induction a as [|x a IH]; [reflexivity|].
  change (String x ((a +:+ b) +:+ c) = String x (a +:+ (b +:+ c))).
  by rewrite IH.
Qed.

Lemma append_empty_r (a : string) : a +:+ EmptyString = a.
Proof.
  induction a as [|x a IH]; [reflexivity|].
  change (String x (a +:+ EmptyString) = String x a).
  by rewrite IH.
Qed.

(** ** Observers *)

Create HintDb observe.

Lemma observer_ret {A} (a : A) : observer (ret a).
Proof. intros s. simpl. split_and!; [done..|]. exists EmptyString. by rewrite append_empty_r. Qed.

Lemma observer_undef {A} : observer (@undef A).
Proof. by intros s. Qed.

Lemma observer_bind {A B} (m : M A) (k : A → M B) :
  observer m → (∀ a, observer (k a)) → observer (bind m k).
Proof.
  intros Hm Hk s. unfold bind. specialize (Hm s).
  destruct (m s) as [a s1| |]; [|done..].
  destruct Hm as (Hh & He & t1 & Ho). specialize (Hk a s1).
  destruct (k a s1) as [b s2| |]; [|done..].
  destruct Hk as (Hh' & He' & t2 & Ho'). split_and!; [congruence..|].
  exists (t1 +:+ t2). by rewrite Ho', Ho, append_assoc.
Qed.

Lemma observer_load p : observer (load p).
Proof.
  intros s. unfold load. destruct p as [a|]; [|done].
  destruct (heap s !! a); [|done]. apply (observer_ret b s).
Qed.

#[local] Hint Resolve observer_ret observer_undef observer_load : observe.

Ltac observe :=
  repeat first
    [ progress eauto with observe
    | apply observer_bind; [|intros ?]
    | match goal with |- observer (match ?x with _ => _ end) => destruct x end ].

Lemma observer_load_str p : observer (load_str p).
Proof. unfold load_str. observe. Qed.

Lemma observer_load_concept p : observer (load_concept p).
Proof. unfold load_concept. observe. Qed.

Lemma observer_load_cells p : observer (load_cells p).
Proof. unfold load_cells. observe. Qed.

#[local] Hint Resolve observer_load_str observer_load_concept observer_load_cells : observe.

Lemma observer_load_slot p i : observer (load_slot p i).
Proof. unfold load_slot. observe. Qed.

Lemma observer_int_of z : observer (int_of z).
Proof. intros s. unfold int_of. destruct (in_int z); [|done]. apply (observer_ret z s). Qed.

Lemma observer_printf text : observer (printf text).
Proof. intros s. simpl. eauto. Qed.

#[local] Hint Resolve observer_load_slot observer_int_of observer_printf : observe.

Lemma observer_for_loop n i body :
  (∀ j, observer (body j)) → observer (for_loop n i body).
Proof.
  intros Hbody. revert i. induction n as [|n IH]; intros i; simpl; unfold int_add; observe.
Qed.

Lemma observer_print_concept concept : observer (print_concept concept).
Proof.
  unfold print_concept. destruct (is_null concept); [observe|].
  observe. apply observer_for_loop. intros j. unfold int_add. observe.
Qed.

(** ** Running forward *)

Lemma bind_run {A B} (m : M A) (k : A → M B) s a s1 :
  m s = Ret a s1 → bind m k s = k a s1.
Proof. unfold bind. by intros ->. Qed.

Lemma load_concept_run s p r :
  deref (heap s) p = Some (BConcept r) → load_concept p s = Ret r s.
Proof. intros. by apply load_concept_Ret. Qed.

Lemma load_str_run s p str :
  str_at (heap s) p = Some str → load_str p s = Ret str s.
Proof.
  unfold str_at. intros Hs. apply load_str_Ret. split; [|done].
  destruct (deref (heap s) p) as [[]|]; by simplify_eq.
Qed.

Lemma load_slot_run s c r k sl :
  heap s !! c = Some (BConcept r) → slot_readable (heap s) r k sl →
  load_slot (Some c) (Z.of_nat k) s = Ret sl s.
Proof.
  intros Hr (cells & Hc & Hk). apply load_slot_Ret. exists r, cells.
  rewrite Nat2Z.id. split_and!; try done. lia.
Qed.

Lemma int_add_run s a b :
  INT_MIN ≤ a + b ≤ INT_MAX → int_add a b s = Ret (a + b) s.
Proof. intros. by apply int_of_Ret. Qed.

(** ** [print_concept] writes the text of the concept *)

Lemma written_Some cells L : written cells = Some L ↔ cells = Some <$> L.
Proof.
  revert L. induction cells as [|[sl|] cells IH]; intros L; simpl.
  - split; [by intros [= <-]|]. by destruct L.
  - destruct (written cells) as [L'|] eqn:HL'.
    + split.
      * intros [= <-]. simpl. f_equal. by apply IH.
      * destruct L as [|sl' L]; [done|]. intros [= <- HL]. apply IH in HL.
        congruence.
    + split; [done|]. destruct L as [|sl' L]; [done|]. intros [= <- HL].
      apply IH in HL. done.
  - split; [done|]. by destruct L.
Qed.

Lemma committed_Some h r L :
  committed h r = Some L →
  length L = Z.to_nat (slot_count r) ∧
  ∀ k sl, L !! k = Some sl → slot_readable h r k sl.
Proof.
  unfold committed. destruct (Z.to_nat (slot_count r)) as [|n] eqn:Hn.
  { intros [= <-]. split; [done|]. intros k sl. by rewrite lookup_nil. }
  unfold cells_at. destruct (deref h (slots r)) as [[|cells| |]|] eqn:Hc; try done.
  case_decide as Hlen; [|done]. intros HL%written_Some. split.
  - apply (f_equal length) in HL. rewrite length_fmap, length_take in HL. lia.
  - intros k sl Hk. exists cells. split; [done|].
    assert (take (S n) cells !! k = Some (Some sl)) as Ht.
    { rewrite HL, list_lookup_fmap, Hk. done. }
    by apply lookup_take_Some in Ht as [? _].
Qed.

Lemma print_concept_unfold c :
  print_concept (Some c) =
  (r ← load_concept (Some c); s_id ← load_str (id r);
   printf ("ID: " +:+ s_id +:+ nl);;
   r ← load_concept (Some c); s_types ← load_str (types r);
   printf ("Types: " +:+ s_types +:+ nl);;
   r ← load_concept (Some c);
   printf ("Slots (# of slots = " +:+ fmt_d (slot_count r) +:+ "):" +:+ nl);;
   r ← load_concept (Some c);
   for_loop (Z.to_nat (slot_count r)) 0 (print_slot (Some c))).
Proof. reflexivity. Qed.

Lemma print_slot_run c r s k sl text :
  heap s !! c = Some (BConcept r) →
  slot_readable (heap s) r k sl →
  Z.of_nat k + 1 ≤ INT_MAX →
  render_slot (heap s) (Z.of_nat k + 1) sl = Some text →
  print_slot (Some c) (Z.of_nat k) s =
  Ret tt (mkState (heap s) (stdout s +:+ text) (stderr s)).
Proof.
  intros Hr Hsl Hk. unfold render_slot.
  destruct (str_at (heap s) (name sl)) as [s_name|] eqn:Hname; [|done].
  destruct (render_target (heap s) (target sl)) as [s_tid|] eqn:Htid; [|done].
  intros [= <-]. unfold print_slot.
  erewrite bind_run by (apply int_add_run; unfold INT_MIN, INT_MAX in *; lia).
  erewrite bind_run by reflexivity.
  erewrite bind_run by (by eapply load_slot_run).
  erewrite bind_run by (by apply load_str_run).
  erewrite bind_run by reflexivity.
  erewrite bind_run by (by eapply load_slot_run).
  unfold render_target in Htid. destruct (target sl) as [t|] eqn:Ht; simpl.
  - erewrite bind_run by (by eapply load_slot_run).
    rewrite Ht. unfold concept_at in Htid.
    destruct (deref (heap s) (Some t)) as [[| |tr|]|] eqn:Htr; try done.
    erewrite bind_run by (by apply load_concept_run).
    erewrite bind_run by (by apply load_str_run).
    unfold printf. simpl. by rewrite !append_assoc.
  - simplify_eq. unfold printf. simpl. by rewrite !append_assoc.
Qed.

Lemma print_slots_run c r L : ∀ k s text,
  heap s !! c = Some (BConcept r) →
  (∀ j sl, L !! j = Some sl → slot_readable (heap s) r (k + j) sl) →
  Z.of_nat (k + length L) ≤ INT_MAX →
  render_slots (heap s) (Z.of_nat k + 1) L = Some text →
  for_loop (length L) (Z.of_nat k) (print_slot (Some c)) s =
  Ret tt (mkState (heap s) (stdout s +:+ text) (stderr s)).
Proof.
  induction L as [|sl L IH]; intros k s text Hr Hread Hmax; simpl.
  - intros [= <-]. unfold ret. rewrite append_empty_r. by destruct s.
  - simpl in Hmax.
    destruct (render_slot (heap s) (Z.of_nat k + 1) sl) as [t1|] eqn:H1; [|done].
    destruct (render_slots (heap s) (Z.of_nat k + 1 + 1) L) as [t2|] eqn:H2; [|done].
    intros [= <-].
    erewrite bind_run; last first.
    { apply (print_slot_run c r _ _ sl); [done| |simpl in Hmax; lia|done].
      specialize (Hread 0%nat sl eq_refl). by rewrite Nat.add_0_r in Hread. }
    erewrite bind_run by (apply int_add_run; unfold INT_MIN, INT_MAX in *; lia).
    replace (Z.of_nat k + 1) with (Z.of_nat (S k)) in * by lia.
    rewrite (IH (S k) _ t2); simpl; [by rewrite append_assoc|done| |lia|done].
    intros j sl' Hj. specialize (Hread (S j) sl' Hj).
    by replace (S (k + j))%nat with (k + S j)%nat by lia.
Qed.

Lemma print_concept_render c s text :
  render (heap s) c = Some text →
  print_concept (Some c) s = Ret tt (mkState (heap s) (stdout s +:+ text) (stderr s)).
Proof.
  unfold render. destruct (heap s !! c) as [[| |r|]|] eqn:Hr; try done.
  destruct (str_at (heap s) (id r)) as [s_id|] eqn:Hid; [|done].
  destruct (str_at (heap s) (types r)) as [s_types|] eqn:Hty; [|done].
  destruct (committed (heap s) r) as [L|] eqn:HL; [|done].
  case_decide as Hmax; [|done].
  destruct (render_slots (heap s) 1 L) as [body|] eqn:Hbody; [|done].
  intros [= <-]. apply committed_Some in HL as [Hlen Hread].
  rewrite print_concept_unfold.
  erewrite bind_run by (by apply load_concept_run).
  erewrite bind_run by (by apply load_str_run).
  erewrite bind_run by reflexivity.
  erewrite bind_run by (by apply load_concept_run).
  erewrite bind_run by (by apply load_str_run).
  erewrite bind_run by reflexivity.
  erewrite bind_run by (by apply load_concept_run).
  erewrite bind_run by reflexivity.
  erewrite bind_run by (by apply load_concept_run).
  rewrite <- Hlen.
  rewrite (print_slots_run c r L 0 _ body); simpl;
    [|done|done|unfold INT_MAX in *; lia|done].
  by rewrite !append_assoc.
Qed.

(** ** Computations that do not return *)

Lemma fatal_exit {A} code : fatal (@exit A code).
Proof. by intros s a s'. Qed.

Lemma fatal_bind {A B} (m : M A) (k : A → M B) :
  (∀ a, fatal (k a)) → fatal (bind m k).
Proof. intros Hk s b s' (a & s1 & _ & Hr)%bind_Ret. by eapply Hk. Qed.

Ltac fatal := repeat (apply fatal_bind; intros ?); apply fatal_exit.

(** ** The heap under allocation *)

Lemma deref_insert_fresh h x b' p b :
  h !! x = None → deref h p = Some b → deref (<[x := b']> h) p = Some b.
Proof.
  intros Hx. unfold deref. destruct p as [a|]; [|done]. intros Ha.
  rewrite lookup_insert_ne; [done|]. congruence.
Qed.

Lemma str_at_insert_fresh h x b' p str :
  h !! x = None → str_at h p = Some str → str_at (<[x := b']> h) p = Some str.
Proof.
  unfold str_at. intros Hx Hp.
  destruct (deref h p) as [b|] eqn:Hb; [|done].
  by rewrite (deref_insert_fresh h x b' p b).
Qed.

Lemma str_at_Some h p str : str_at h p = Some str ↔ deref h p = Some (BStr str).
Proof.
  unfold str_at. destruct (deref h p) as [[]|]; split; congruence.
Qed.

Section CreateRuns.
Context `{Allocator}.

Lemma create_concept_Ret id type s p s' :
  create_concept id type s = Ret p s' ↔
  ∃ i t,
    let c := alloc_pick (heap s) in
    let h1 := <[c := BUninit]> (heap s) in
    let a := alloc_pick h1 in
    let h2 := <[a := BStr i]> h1 in
    let b := alloc_pick h2 in
    let h3 := <[b := BStr t]> h2 in
    str_at (heap s) id = Some i ∧ str_at h2 type = Some t ∧
    alloc_grant (heap s) BUninit = true ∧ alloc_grant h1 (BStr i) = true ∧
    alloc_grant h2 (BStr t) = true ∧
    p = Some c ∧
    s' = set_heap (λ _, <[c := BConcept (mkConcept (Some a) (Some b) NULL 0 0)]> h3) s.
Proof.
  unfold create_concept. split.
  - intros (concept & s1 & Hm & Hk)%bind_Ret.
    apply malloc_Ret in Hm as [(Hg & -> & ->)|(Hg & -> & ->)]; simpl in Hk.
    { by apply bind_Ret in Hk as (? & ? & _ & ?). }
    apply bind_Ret in Hk as (cid & s2 & Hid & Hk).
    apply bind_Ret in Hk as (cty & s3 & Hty & Hk).
    apply strdup_Ret in Hid as (i & Hi & Hid).
    apply strdup_Ret in Hty as (t & Ht & Hty).
    destruct Hid as [(_ & -> & _)|(Hg1 & -> & ->)].
    { exfalso. revert Hk. simpl. fatal. }
    destruct Hty as [(_ & -> & _)|(Hg2 & -> & ->)].
    { exfalso. revert Hk. simpl. fatal. }
    simpl in *.
    apply bind_Ret in Hk as (u & s4 & Hst & Hk).
    apply ret_Ret in Hk as [-> ->].
    apply store_Ret in Hst as (c & [= <-] & _ & ->).
    exists i, t. simpl. split_and!; try done.
    + apply str_at_Some. unfold deref in *. destruct id as [x|]; [|done].
      destruct (decide (alloc_pick (heap s) = x)) as [<-|].
      * by rewrite lookup_insert_eq in Hi.
      * by rewrite lookup_insert_ne in Hi.
    + by apply str_at_Some.
  - intros (i & t & Hi & Ht & Hg & Hg1 & Hg2 & -> & ->).
    pose proof (alloc_pick_fresh (heap s)) as Hc.
    erewrite bind_run by (apply malloc_Ret; right; eauto). simpl.
    erewrite bind_run; last first.
    { apply strdup_Ret. exists i. split.
      - apply str_at_Some. by apply str_at_insert_fresh.
      - right. eauto. }
    erewrite bind_run; last first.
    { apply strdup_Ret. exists t. split; [by apply str_at_Some|]. right. eauto. }
    simpl.
    erewrite bind_run; last first.
    { apply (store_Ret _ _ _ tt). eexists. split; [done|]. split; [|done]. simpl.
      rewrite !lookup_insert_is_Some'. auto. }
    done.
Qed.
End CreateRuns.

(** ** Runs of [add_slot] *)

Lemma bind_assoc {A B C} (m : M A) (k : A → M B) (k' : B → M C) s :
  bind (bind m k) k' s = bind m (λ a, bind (k a) k') s.
Proof. unfold bind. by destruct (m s). Qed.

Section AddSlotRuns.
Context `{Allocator}.

Lemma add_slot_unfold c n t s :
  add_slot (Some c) (Some n) (Some t) s =
  (grow_slots (Some c);; commit_slot (Some c) (Some n) (Some t)) s.
Proof. unfold grow_slots. rewrite bind_assoc. reflexivity. Qed.

Lemma array_not_concept h p cells c r :
  array_at h p cells → h !! c = Some (BConcept r) → p ≠ Some c.
Proof. intros Ha Hc ->. simpl in Ha. congruence. Qed.

Lemma release_lookup_ne h p x : p ≠ Some x → release p h !! x = h !! x.
Proof.
  destruct p as [a|]; simpl; [|done]. intros Hne.
  apply lookup_delete_ne. congruence.
Qed.

Lemma grow_slots_Ret c s u s' :
  grow_slots (Some c) s = Ret u s' ↔
  ∃ r, heap s !! c = Some (BConcept r) ∧
    ((slot_count r < slot_capacity r ∧ s' = s) ∨
     (slot_capacity r ≤ slot_count r ∧
      ∃ cells, array_at (heap s) (slots r) cells ∧
        let n := new_capacity_of (slot_capacity r) in
        let h0 := release (slots r) (heap s) in
        let a := alloc_pick h0 in
        0 ≤ n ≤ INT_MAX ∧
        alloc_grant (heap s) (BSlots (resize (Z.to_nat n) None cells)) = true ∧
        s' = set_heap (λ _,
               <[c := BConcept (mkConcept (id r) (types r) (Some a) (slot_count r) n)]>
                 (<[a := BSlots (resize (Z.to_nat n) None cells)]> h0)) s)).
Proof.
  unfold grow_slots. rewrite bind_Ret. setoid_rewrite load_concept_Ret. simpl.
  split.
  - intros (r & s1 & [Hr ->] & Hk). exists r. split; [done|].
    destruct (Z.leb_spec (slot_capacity r) (slot_count r)) as [Hle|Hlt].
    2:{ apply ret_Ret in Hk as [_ ->]. left. done. }
    right. split; [done|].
    apply bind_Ret in Hk as (n & s1 & Hn & Hk).
    assert (n = new_capacity_of (slot_capacity r) ∧ s1 = s ∧
            n ≤ INT_MAX) as (-> & -> & Hmax).
    { unfold new_capacity_of. destruct (slot_capacity r =? 0).
      - apply ret_Ret in Hn as [-> ->]. by unfold INT_MAX.
      - apply int_of_Ret in Hn as ([_ ?] & -> & ->). done. }
    apply bind_Ret in Hk as (q & s2 & Hq & Hk).
    apply realloc_Ret in Hq as (cells & Hcells & Hq). exists cells.
    split; [done|].
    destruct Hq as [(-> & -> & _)|(Hn0 & Hg & -> & ->)].
    { exfalso. revert Hk. simpl. fatal. }
    simpl in Hk.
    apply bind_Ret in Hk as (u1 & s3 & Hu1 & Hu2).
    apply update_concept_Ret in Hu1 as (c1 & r1 & [= <-] & Hr1 & ->).
    apply update_concept_Ret in Hu2 as (c2 & r2 & [= <-] & Hr2 & ->).
    simpl in *. rewrite lookup_insert_eq in Hr2. simplify_eq.
    pose proof (alloc_pick_fresh (release (slots r) (heap s))) as Hfresh.
    assert (alloc_pick (release (slots r) (heap s)) ≠ c) as Hne.
    { intros Heq. rewrite Heq in Hfresh.
      rewrite release_lookup_ne in Hfresh by eauto using array_not_concept.
      congruence. }
    rewrite lookup_insert_ne in Hr1 by done.
    rewrite release_lookup_ne in Hr1 by eauto using array_not_concept.
    simplify_eq.
    split; [done|]. split; [done|].
    unfold set_heap. simpl. f_equal. by rewrite insert_insert_eq.
  - intros (r & Hr & Hcase). exists r, s. split; [done|].
    destruct Hcase as [[Hlt ->]|(Hle & cells & Hcells & [Hn0 Hmax] & Hg & ->)].
    { destruct (Z.leb_spec (slot_capacity r) (slot_count r)); [lia|]. by destruct u. }
    destruct (Z.leb_spec (slot_capacity r) (slot_count r)); [|lia].
    erewrite bind_run with (a := new_capacity_of (slot_capacity r)) (s1 := s); last first.
    { unfold new_capacity_of in *. destruct (slot_capacity r =? 0); [done|].
      apply int_of_Ret. unfold INT_MIN. split_and!; try done. lia. }
    erewrite bind_run; last first.
    { apply realloc_Ret. exists cells. split; [done|]. right. eauto. }
    simpl.
    pose proof (alloc_pick_fresh (release (slots r) (heap s))) as Hfresh.
    assert (alloc_pick (release (slots r) (heap s)) ≠ c) as Hne.
    { intros Heq. rewrite Heq in Hfresh.
      rewrite release_lookup_ne in Hfresh by eauto using array_not_concept.
      congruence. }
    erewrite bind_run; last first.
    { apply (update_concept_Ret _ _ _ tt). eexists c, r. split; [done|]. split; [|done].
      simpl. rewrite lookup_insert_ne by done.
      by rewrite release_lookup_ne by eauto using array_not_concept. }
    destruct u.
    apply update_concept_Ret. eexists c, _. split; [done|]. simpl.
    rewrite lookup_insert_eq. split; [done|].
    unfold set_heap. simpl. f_equal. by rewrite insert_insert_eq.
Qed.

Lemma commit_slot_Ret c nm tg s u s' :
  commit_slot (Some c) nm tg s = Ret u s' ↔
  ∃ r str a cells q h1,
    heap s !! c = Some (BConcept r) ∧ deref (heap s) nm = Some (BStr str) ∧
    slots r = Some a ∧ heap s !! a = Some (BSlots cells) ∧
    0 ≤ slot_count r < Z.of_nat (length cells) ∧ slot_count r + 1 ≤ INT_MAX ∧
    ((alloc_grant (heap s) (BStr str) = false ∧ q = NULL ∧ h1 = heap s) ∨
     (alloc_grant (heap s) (BStr str) = true ∧ q = Some (alloc_pick (heap s)) ∧
      h1 = <[alloc_pick (heap s) := BStr str]> (heap s))) ∧
    s' = set_heap (λ _,
           <[c := BConcept (set_slot_count (slot_count r + 1) r)]>
             (<[a := BSlots (<[Z.to_nat (slot_count r) := Some (mkSlot q tg)]> cells)]>
                h1)) s.
Proof.
  unfold commit_slot. pose proof (alloc_pick_fresh (heap s)) as Hfresh. split.
  - intros (r & s1 & [Hr ->]%load_concept_Ret & Hk)%bind_Ret. simpl in Hr.
    apply bind_Ret in Hk as (q & s2 & (str & Hstr & Hq)%strdup_Ret & Hk).
    apply bind_Ret in Hk as (u1 & s3 & Hst & Hk).
    apply store_slot_Ret in Hst as (r2 & a & cells & Hr2 & Ha & Hcells & Hi & ->).
    apply bind_Ret in Hk as (r3 & s4 & [Hr3 ->]%load_concept_Ret & Hk).
    apply bind_Ret in Hk as (n & s5 & ([_ Hmax] & -> & ->)%int_of_Ret & Hk).
    apply update_concept_Ret in Hk as (c' & r4 & [= <-] & Hr4 & ->).
    simpl in *.
    assert (a ≠ c) as Hac.
    { intros ->. destruct Hq as [(_ & _ & ->)|(_ & _ & ->)]; simpl in *; congruence. }
    rewrite lookup_insert_ne in Hr3, Hr4 by done.
    assert (r2 = r ∧ r3 = r ∧ r4 = r ∧ heap s !! a = Some (BSlots cells))
      as (-> & -> & -> & Ha0).
    { destruct Hq as [(_ & _ & ->)|(_ & _ & ->)]; simpl in *.
      - by simplify_eq.
      - rewrite lookup_insert_ne in Hr2, Hr3, Hr4 by congruence.
        simplify_eq. split_and!; try done.
        rewrite lookup_insert_ne in Hcells; [done|]. intros Heq.
        rewrite Heq, lookup_insert_eq in Hcells. done. }
    exists r, str, a, cells, q, (heap s2).
    destruct Hq as [(? & ? & ->)|(? & ? & ->)];
      (split_and!; [done|done|done|done|lia|lia|done| |done]);
      [left|right]; done.
  - intros (r & str & a & cells & q & h1 & Hr & Hstr & Ha & Hcells & Hi & Hmax & Hq & ->).
    assert (a ≠ c) as Hac by congruence.
    assert (h1 !! c = Some (BConcept r) ∧ h1 !! a = Some (BSlots cells)) as [Hr1 Ha1].
    { destruct Hq as [(_ & _ & ->)|(_ & _ & ->)]; [done|].
      rewrite !lookup_insert_ne by congruence. done. }
    erewrite bind_run by (by apply load_concept_run).
    erewrite bind_run with (a := q) (s1 := set_heap (λ _, h1) s); last first.
    { apply strdup_Ret. exists str. split; [done|].
      destruct Hq as [(? & ? & ->)|(? & ? & ->)]; [left|right]; split_and!; try done.
      by destruct s. }
    erewrite bind_run; last first.
    { apply (store_slot_Ret _ _ _ _ tt). exists r, a, cells. split_and!; try done; lia. }
    erewrite bind_run; last first.
    { apply load_concept_run. simpl. by rewrite lookup_insert_ne. }
    erewrite bind_run by (apply int_add_run; unfold INT_MIN, INT_MAX in *; lia).
    destruct u. apply update_concept_Ret. exists c, r. split; [done|]. simpl.
    by rewrite lookup_insert_ne.
Qed.

Lemma release_lookup_None h p x :
  release p h !! x = None → h !! x = None ∨ p = Some x.
Proof.
  destruct p as [a|]; simpl; [|auto]. rewrite lookup_delete_None.
  intros [->|?]; auto.
Qed.

Lemma add_slot_inv c n t s u s' :
  add_slot (Some c) (Some n) (Some t) s = Ret u s' →
  ∃ r str q arr old new,
    heap s !! c = Some (BConcept r) ∧
    heap s !! n = Some (BStr str) ∧
    array_at (heap s) (slots r) old ∧
    heap s' !! c = Some (BConcept (mkConcept (id r) (types r) (Some arr)
                     (slot_count r + 1)
                     (next_capacity (slot_count r) (slot_capacity r)))) ∧
    heap s' !! arr =
      Some (BSlots (<[Z.to_nat (slot_count r) := Some (mkSlot q (Some t))]> new)) ∧
    0 ≤ slot_count r < Z.of_nat (length new) ∧
    slot_count r + 1 ≤ INT_MAX ∧
    new = (if decide (slot_count r < slot_capacity r) then old
           else resize (Z.to_nat (new_capacity_of (slot_capacity r))) None old) ∧
    (slot_count r < slot_capacity r → slots r = Some arr) ∧
    (slot_capacity r ≤ slot_count r →
     0 ≤ new_capacity_of (slot_capacity r) ≤ INT_MAX) ∧
    ((q = NULL ∧ ¬ granting) ∨
     ∃ a, q = Some a ∧ heap s' !! a = Some (BStr str) ∧ a ≠ arr ∧ a ≠ c ∧
          (heap s !! a = None ∨ slots r = Some a)) ∧
    (∀ x b, heap s !! x = Some b → x ≠ c → slots r ≠ Some x →
            heap s' !! x = Some b) ∧
    (∀ x b, heap s' !! x = Some b → x ≠ c → x ≠ arr → q ≠ Some x →
            heap s !! x = Some b) ∧
    stdout s' = stdout s ∧ stderr s' = stderr s ∧
    (slot_capacity r ≤ slot_count r → release (slots r) (heap s) !! arr = None) ∧
    (∀ x, x ≠ c → x ≠ arr → q ≠ Some x →
          heap s' !! x = release (slots r) (heap s) !! x).
Proof.
  rewrite add_slot_unfold. intros (u1 & s1 & Hgrow & Hcommit)%bind_Ret.
  apply grow_slots_Ret in Hgrow as (r & Hr & Hgrow).
  apply commit_slot_Ret in Hcommit
    as (r1 & str & arr & cells & q & h1 & Hr1 & Hstr & Harr & Hcells & Hi & Hmax & Hq & ->).
  simpl in Hstr.
  destruct Hgrow as [[Hlt ->]|(Hle & old & Hold & [Hn0 Hnmax] & Hg & ->)].
  - (* room left: the array stays where it is *)
    simplify_eq. exists r, str, q, arr, cells, cells.
    assert (arr ≠ c) by congruence.
    unfold next_capacity. destruct (Z.leb_spec (slot_capacity r) (slot_count r)); [lia|].
    rewrite decide_True by done. simpl.
    rewrite lookup_insert_eq, lookup_insert_ne, lookup_insert_eq by done.
    split_and!; try done; try lia; try (intros; first [lia|done|by apply Hrel0]).
    all: try (by rewrite Harr).
    + unfold set_slot_count. by rewrite Harr.
    + destruct Hq as [(Hno & -> & _)|(_ & -> & ->)];
        [left; split; [done|]; intros Hall; by rewrite Hall in Hno|right].
      pose proof (alloc_pick_fresh (heap s)) as Hf.
      eexists. split; [done|].
      assert (alloc_pick (heap s) ≠ arr) by congruence.
      assert (alloc_pick (heap s) ≠ c) by congruence.
      rewrite !lookup_insert_ne, lookup_insert_eq by done. auto.
    + intros x b Hx Hxc Hxa. rewrite Harr in Hxa.
      rewrite !lookup_insert_ne by congruence.
      destruct Hq as [(_ & _ & ->)|(_ & _ & ->)]; [done|].
      pose proof (alloc_pick_fresh (heap s)). rewrite lookup_insert_ne; congruence.
    + intros x b Hx Hxc Hxa Hxq. rewrite !lookup_insert_ne in Hx by congruence.
      destruct Hq as [(_ & _ & ->)|(_ & -> & ->)]; [done|].
      rewrite lookup_insert_ne in Hx; congruence.
    + intros x Hxc Hxa Hxq. rewrite Harr. simpl.
      rewrite !lookup_insert_ne, lookup_delete_ne by congruence.
      destruct Hq as [(_ & _ & ->)|(_ & -> & ->)]; [done|].
      rewrite lookup_insert_ne; congruence.
  - (* full: the array is reallocated *)
    simpl in *.
    pose proof (alloc_pick_fresh (release (slots r) (heap s))) as Hf0.
    assert (slots r ≠ Some c) as Hsc by eauto using array_not_concept.
    pose proof (release_lookup_ne (heap s) (slots r)) as Hin.
    pose proof (release_lookup_None (heap s) (slots r)) as Hout.
    assert (∀ x b, release (slots r) (heap s) !! x = Some b → heap s !! x = Some b)
      as Hsub.
    { intros x b. destruct (slots r); simpl; [|done].
      by intros [_ ?]%lookup_delete_Some. }
    remember (release (slots r) (heap s)) as h0 eqn:Hh0.
    remember (alloc_pick h0) as a0 eqn:Ha0.
    remember (new_capacity_of (slot_capacity r)) as n0 eqn:Hn0e.
    assert (∀ x, h0 !! x = None → release (slots r) (heap s) !! x = None) as Hrel0.
    { intros x. by rewrite Hh0. }
    assert (∀ x, release (slots r) (heap s) !! x = h0 !! x) as Hrel1.
    { intros x. by rewrite Hh0. }
    clear Hh0 Ha0.
    assert (h0 !! c = Some (BConcept r)) as Hc0 by (by rewrite Hin).
    assert (a0 ≠ c) as Ha0c by congruence.
    rewrite lookup_insert_eq in Hr1. simplify_eq. simpl in *. simplify_eq.
    rewrite lookup_insert_ne, lookup_insert_eq in Hcells by done. simplify_eq.
    assert (c ≠ n) as Hcn.
    { intros ->. by rewrite lookup_insert_eq in Hstr. }
    rewrite lookup_insert_ne in Hstr by done.
    assert (arr ≠ n) as Han.
    { intros ->. by rewrite lookup_insert_eq in Hstr. }
    rewrite lookup_insert_ne in Hstr by done.
    assert (heap s !! n = Some (BStr str)) as Hn by auto.
    exists r, str, q, arr, old, (resize (Z.to_nat (new_capacity_of (slot_capacity r))) None old).
    unfold next_capacity. destruct (Z.leb_spec (slot_capacity r) (slot_count r)); [|lia].
    rewrite decide_False by lia.
    rewrite lookup_insert_eq, lookup_insert_ne, lookup_insert_eq by done.
    split_and!; try done; try lia; try (intros; first [lia|done|by apply Hrel0]).
    + destruct Hq as [(Hno & -> & _)|(_ & -> & ->)];
        [left; split; [done|]; intros Hall; by rewrite Hall in Hno|right].
      match goal with |- context [alloc_pick ?h] =>
        pose proof (alloc_pick_fresh h) as Hf; remember (alloc_pick h) as a eqn:Ha end.
      clear Ha.
      assert (a ≠ c) as Hac.
      { intros Heq. rewrite Heq, lookup_insert_eq in Hf. done. }
      assert (a ≠ arr) as Haa.
      { intros Heq. rewrite lookup_insert_ne, Heq, lookup_insert_eq in Hf; done. }
      exists a. rewrite !lookup_insert_ne, lookup_insert_eq by done.
      split_and!; try done.
      rewrite !lookup_insert_ne in Hf by done. auto.
    + intros x b Hx Hxc Hxa.
      assert (h0 !! x = Some b) as Hx0 by (by rewrite Hin).
      assert (x ≠ arr) by congruence.
      rewrite !lookup_insert_ne by done.
      destruct Hq as [(_ & _ & ->)|(_ & _ & ->)].
      * by rewrite !lookup_insert_ne by done.
      * match goal with |- context [alloc_pick ?h] =>
          pose proof (alloc_pick_fresh h) as Hf; remember (alloc_pick h) as a eqn:Ha end.
        clear Ha.
        destruct (decide (a = x)) as [->|].
        { rewrite !lookup_insert_ne in Hf by done. congruence. }
        by rewrite !lookup_insert_ne by done.
    + intros x b Hx Hxc Hxa Hxq. rewrite !lookup_insert_ne in Hx by done.
      apply Hsub.
      destruct Hq as [(_ & _ & ->)|(_ & -> & ->)].
      * by rewrite !lookup_insert_ne in Hx by done.
      * rewrite lookup_insert_ne in Hx by congruence.
        by rewrite !lookup_insert_ne in Hx by done.
    + intros x Hxc Hxa Hxq. rewrite Hrel1, !lookup_insert_ne by done.
      destruct Hq as [(_ & _ & ->)|(_ & -> & ->)].
      * by rewrite !lookup_insert_ne by done.
      * rewrite lookup_insert_ne by congruence.
        by rewrite !lookup_insert_ne by done.
Qed.
End AddSlotRuns.

(** ** Appending to a live concept *)

Lemma live_bounds h c r L :
  live h c r L →
  0 ≤ slot_count r ≤ slot_capacity r ∧
  (slot_count r < slot_capacity r → ∃ a, slots r = Some a).
Proof.
  intros (_ & Hcount & _ & cells & Harr & Hcap & Htake).
  apply (f_equal length) in Htake. rewrite length_take, length_fmap in Htake.
  split; [lia|]. intros Hlt. destruct (slots r) as [a|]; [eauto|].
  simpl in Harr. subst cells. simpl in *. lia.
Qed.

Lemma array_at_inj h p cells1 cells2 :
  array_at h p cells1 → array_at h p cells2 → cells1 = cells2.
Proof. destruct p; simpl; congruence. Qed.

Section AddSlotLive.
Context `{Allocator}.

Lemma add_slot_total c n t s r L str :
  live (heap s) c r L → heap s !! n = Some (BStr str) → granting →
  Z.of_nat (length L) < 2 ^ 30 →
  ∃ s', add_slot (Some c) (Some n) (Some t) s = Ret tt s'.
Proof.
  intros Hlive Hn Hgrant Hlen.
  pose proof (live_bounds _ _ _ _ Hlive) as [Hb Hsome].
  destruct Hlive as (Hr & Hcount & Hcapmax & cells & Harr & Hcap & Htake).
  setoid_rewrite add_slot_unfold.
  destruct (decide (slot_count r < slot_capacity r)) as [Hlt|Hge].
  - erewrite bind_run; last first.
    { apply (grow_slots_Ret _ _ tt). exists r. split; [done|]. by left. }
    destruct (Hsome Hlt) as [a Ha]. rewrite Ha in Harr. simpl in Harr.
    eexists. apply commit_slot_Ret.
    eexists r, str, a, cells, (Some (alloc_pick (heap s))), _.
    split_and!; try done; try lia.
    right. split_and!; try done.
  - assert (slot_capacity r = slot_count r) as Heq by lia.
    assert (0 ≤ new_capacity_of (slot_capacity r) ≤ INT_MAX ∧
            slot_capacity r < new_capacity_of (slot_capacity r)) as [Hn0 Hn1].
    { unfold new_capacity_of, INT_MAX.
      destruct (Z.eqb_spec (slot_capacity r) 0); lia. }
    pose proof (alloc_pick_fresh (release (slots r) (heap s))) as Hf0.
    assert (slots r ≠ Some c) as Hsc by eauto using array_not_concept.
    assert (slots r ≠ Some n) as Hsn.
    { intros Hs. rewrite Hs in Harr. simpl in Harr. congruence. }
    erewrite bind_run; last first.
    { apply (grow_slots_Ret _ _ tt). exists r. split; [done|]. right.
      split; [lia|]. exists cells. split_and!; try done; try lia. }
    remember (alloc_pick (release (slots r) (heap s))) as a0 eqn:Ha0. clear Ha0.
    assert (a0 ≠ c) as Hac.
    { intros ->. rewrite release_lookup_ne in Hf0 by done. congruence. }
    assert (a0 ≠ n) as Han.
    { intros ->. rewrite release_lookup_ne in Hf0 by done. congruence. }
    match goal with |- ∃ s', commit_slot _ _ _ (set_heap (λ _, ?h) s) = _ =>
      remember h as hg eqn:Hhg end.
    assert (hg !! c = Some (BConcept (mkConcept (id r) (types r) (Some a0)
              (slot_count r) (new_capacity_of (slot_capacity r)))) ∧
            hg !! a0 = Some (BSlots (resize (Z.to_nat
              (new_capacity_of (slot_capacity r))) None cells)) ∧
            hg !! n = Some (BStr str)) as (Hgc & Hga & Hgn).
    { subst hg. rewrite lookup_insert_eq, lookup_insert_ne, lookup_insert_eq by done.
      rewrite !lookup_insert_ne by congruence.
      by rewrite release_lookup_ne by done. }
    clear Hhg. eexists. apply commit_slot_Ret.
    eexists _, str, a0, _, (Some (alloc_pick hg)), _. simpl.
    split_and!; try done; simpl.
    + lia.
    + rewrite length_resize. lia.
    + lia.
    + right. split_and!; try done.
Qed.

Lemma add_slot_live c n t s r L str :
  live (heap s) c r L → heap s !! n = Some (BStr str) → granting →
  Z.of_nat (length L) < 2 ^ 30 →
  ∃ s' r' a,
    add_slot (Some c) (Some n) (Some t) s = Ret tt s' ∧
    live (heap s') c r' (L ++ [mkSlot (Some a) (Some t)]) ∧
    heap s' !! a = Some (BStr str) ∧
    (∀ str', heap s !! a ≠ Some (BStr str')) ∧
    id r' = id r ∧ types r' = types r ∧
    slot_capacity r' = next_capacity (slot_count r) (slot_capacity r) ∧
    (∀ x b, heap s !! x = Some b → x ≠ c → slots r ≠ Some x →
            heap s' !! x = Some b) ∧
    stdout s' = stdout s ∧ stderr s' = stderr s.
Proof.
  intros Hlive Hn Hgrant Hlen.
  destruct (add_slot_total c n t s r L str) as [s' Hrun]; [done..|].
  pose proof (live_bounds _ _ _ _ Hlive) as [Hb _].
  destruct Hlive as (Hr & Hcount & Hcapmax & cells & Harr & Hcap & Htake).
  destruct (add_slot_inv _ _ _ _ _ _ Hrun)
    as (r0 & str0 & q & arr & old & new & Hr0 & Hn0 & Hold & Hc' & Harr' & Hi & Hmax
        & Hnew & Hsame & Hcapn & Hq & Hframe & _ & Hout & Herr & _).
  simplify_eq.
  pose proof (array_at_inj _ _ _ _ Hold Harr) as ->.
  destruct Hq as [[_ []]|(a & -> & Ha & Haarr & Hac & Hfresh)]; [done|].
  exists s', (mkConcept (id r) (types r) (Some arr) (slot_count r + 1)
                (next_capacity (slot_count r) (slot_capacity r))), a.
  split; [done|]. split_and!; try done.
  - (* live *)
    split; [done|]. simpl. rewrite length_app. simpl.
    assert (slot_capacity r ≤ slot_count r →
            (length cells ≤ Z.to_nat (new_capacity_of (slot_capacity r)))%nat) as Hgrow.
    { intros Hle. unfold new_capacity_of.
      destruct (Z.eqb_spec (slot_capacity r) 0); lia. }
    split_and!.
    + lia.
    + unfold next_capacity.
      destruct (Z.leb_spec (slot_capacity r) (slot_count r)); [|done].
      by apply Hcapn.
    + eexists. split; [exact Harr'|]. rewrite length_insert. split.
      * unfold next_capacity. case_decide.
        -- destruct (Z.leb_spec (slot_capacity r) (slot_count r)); [lia|done].
        -- destruct (Z.leb_spec (slot_capacity r) (slot_count r)); [|lia].
           rewrite length_resize. specialize (Hcapn ltac:(lia)). lia.
      * replace (Z.to_nat (slot_count r)) with (length L) by lia.
        replace (length L + 1)%nat with (S (length L)) by lia.
        erewrite take_S_r; last first.
        { apply list_lookup_insert_eq. lia. }
        rewrite take_insert_ge by done. rewrite fmap_app. simpl. f_equal.
        rewrite <- Htake. case_decide; [done|].
        rewrite take_resize_le by (specialize (Hgrow ltac:(lia)); lia).
        rewrite resize_spec. replace (length L - length cells)%nat with 0%nat by lia.
        simpl. by rewrite app_nil_r.
  - intros str' Hs. destruct Hfresh as [Hf|Hf]; [congruence|].
    rewrite Hf in Harr. simpl in Harr. congruence.
Qed.
End AddSlotLive.

(** ** Sequences of appends *)

Lemma Forall2_impl_r {A B} (P Q : A → B → Prop) (R : B → Prop) l k :
  Forall2 P l k → Forall R k → (∀ x y, P x y → R y → Q x y) → Forall2 Q l k.
Proof.
  intros HP. induction HP as [|x y l k Hxy HP IH]; intros HR HQ; [constructor|].
  apply Forall_cons in HR as [Hy HR]. constructor; auto.
Qed.

Section AddSlots.
Context `{Allocator}.

Lemma add_slots_live c calls : ∀ s r L,
  live (heap s) c r L → Forall (valid_call (heap s)) calls → granting →
  Z.of_nat (length L + length calls) ≤ 2 ^ 30 →
  ∃ s' r' L',
    add_slots (Some c) calls s = Ret tt s' ∧
    live (heap s') c r' (L ++ L') ∧
    Forall2 (λ sl call, target sl = call.2 ∧ is_Some (name sl) ∧
               str_at (heap s') (name sl) = str_at (heap s) call.1) L' calls ∧
    Forall (λ sl, str_at (heap s) (name sl) = None) L' ∧
    NoDup (name <$> L') ∧
    id r' = id r ∧ types r' = types r ∧
    slot_capacity r' = capacity_after (length calls) (slot_count r) (slot_capacity r) ∧
    (∀ x str, heap s !! x = Some (BStr str) → heap s' !! x = Some (BStr str)) ∧
    (∀ x rx, x ≠ c → heap s !! x = Some (BConcept rx) →
             heap s' !! x = Some (BConcept rx)) ∧
    stdout s' = stdout s ∧ stderr s' = stderr s.
Proof.
  induction calls as [|[np tp] calls IH]; intros s r L Hlive Hvalid Hgrant Hlen.
  { exists s, r, []. rewrite app_nil_r. simpl. split_and!; try done; constructor. }
  pose proof Hvalid as Hvalid0.
  apply Forall_cons in Hvalid as [[Hnp Htp] Hvalid]. simpl in Hnp, Htp.
  destruct Hnp as [str Hstr], Htp as [t ->]. simpl in *.
  apply str_at_Some in Hstr. destruct np as [n|]; [|done]. simpl in Hstr.
  destruct (add_slot_live c n t s r L str) as
    (s1 & r1 & a & Hrun & Hlive1 & Ha & Hnew & Hid & Hty & Hcap & Hframe & Hout & Herr);
    [done|done|done|lia|].
  assert (∀ x b, heap s !! x = Some b → (∀ cells, b ≠ BSlots cells) → x ≠ c →
                 heap s1 !! x = Some b) as Hkeep.
  { intros x b Hx Hb Hxc. apply Hframe; [done..|]. intros Hs.
    destruct Hlive as (_ & _ & _ & cells & Harr & _). rewrite Hs in Harr.
    simpl in Harr. rewrite Hx in Harr. injection Harr as ->. by eapply Hb. }
  assert (∀ x str, heap s !! x = Some (BStr str) → heap s1 !! x = Some (BStr str))
    as Hstrs.
  { intros x str' Hx. apply Hkeep; [done..|]. intros ->.
    destruct Hlive as (? & _). congruence. }
  assert (∀ p str, str_at (heap s) p = Some str → str_at (heap s1) p = Some str)
    as Hstrs'.
  { intros [x|] str'; [|done]. rewrite !str_at_Some. simpl. apply Hstrs. }
  destruct (IH s1 r1 (L ++ [mkSlot (Some a) (Some t)])) as
    (s' & r' & L' & Hrun' & Hlive' & Hall & Hfresh & Hnodup & Hid' & Hty' & Hcap'
     & Hstrs2 & Hcon2 & Hout' & Herr'); [done| |done| |].
  { eapply Forall_impl; [exact Hvalid|]. intros [p q] [[str' Hp] Hq].
    split; [|done]. simpl in *. rewrite (Hstrs' _ _ Hp). eauto. }
  { rewrite length_app. simpl. lia. }
  exists s', r', (mkSlot (Some a) (Some t) :: L').
  rewrite <- app_assoc in Hlive'. simpl in Hlive'.
  erewrite bind_run by exact Hrun.
  split_and!; try done; try congruence.
  - constructor.
    + simpl. split_and!; [done|eauto|].
      rewrite (proj2 (str_at_Some (heap s') (Some a) str) (Hstrs2 _ _ Ha)).
      symmetry. by apply str_at_Some.
    + eapply Forall2_impl_r; [exact Hall|exact Hvalid|].
      intros sl [p q] (? & ? & Hs) [[str' Hp] _].
      split_and!; [done..|]. rewrite Hs. simpl in *.
      rewrite Hp. by apply Hstrs'.
  - constructor.
    + simpl. unfold str_at. simpl. destruct (heap s !! a) as [[]|] eqn:Hb; try done.
      by destruct (Hnew s0).
    + eapply Forall_impl; [exact Hfresh|]. intros sl Hsl. simpl in Hsl.
      destruct (str_at (heap s) (name sl)) as [str'|] eqn:Hs; [|done].
      by rewrite (Hstrs' _ _ Hs) in Hsl.
  - simpl. constructor; [|done]. intros (sl & Hsl & Hin)%list_elem_of_fmap.
    rewrite Forall_forall in Hfresh. specialize (Hfresh sl Hin).
    rewrite <- Hsl in Hfresh. unfold str_at in Hfresh. simpl in Hfresh.
    by rewrite Ha in Hfresh.
  - rewrite Hcap'. simpl. f_equal; [|done].
    destruct Hlive as (_ & -> & _). destruct Hlive1 as (_ & -> & _).
    rewrite length_app. simpl. lia.
  - intros x str' Hx. auto.
  - intros x rx Hxc Hx. apply Hcon2; [done|]. apply Hkeep; done.
Qed.
End AddSlots.

(** ** Releasers *)

Lemma releaser_ret {A} (a : A) : releaser (ret a).
Proof. by intros s b s' [-> ->]%ret_Ret. Qed.

Lemma releaser_bind {A B} (m : M A) (k : A → M B) :
  releaser m → (∀ a, releaser (k a)) → releaser (bind m k).
Proof.
  intros Hm Hk s b s2 (a & s1 & H1 & H2)%bind_Ret.
  destruct (Hm _ _ _ H1) as (? & ? & ?), (Hk _ _ _ _ H2) as (? & ? & ?).
  split_and!; [by etrans|congruence..].
Qed.

Lemma releaser_observer {A} (m : M A) :
  (∀ s a s', m s = Ret a s' → s' = s) → releaser m.
Proof. intros Hm s a s' ->%Hm. done. Qed.

Lemma releaser_load_concept p : releaser (load_concept p).
Proof. apply releaser_observer. by intros s a s' [_ ->]%load_concept_Ret. Qed.

Lemma releaser_load_slot p i : releaser (load_slot p i).
Proof.
  apply releaser_observer.
  by intros s a s' (? & ? & _ & _ & _ & _ & ->)%load_slot_Ret.
Qed.

Lemma releaser_int_add a b : releaser (int_add a b).
Proof. apply releaser_observer. by intros s z s' (_ & _ & ->)%int_of_Ret. Qed.

Lemma releaser_free p : releaser (free p).
Proof.
  intros s u s' [_ ->]%free_Ret. split; [|done]. simpl.
  destruct p; simpl; [apply delete_subseteq|done].
Qed.

Lemma releaser_for_loop n i body :
  (∀ j, releaser (body j)) → releaser (for_loop n i body).
Proof.
  intros Hbody. revert i. induction n as [|n IH]; intros i; simpl.
  - apply releaser_ret.
  - apply releaser_bind; [done|]. intros _.
    apply releaser_bind; [apply releaser_int_add|]. intros j. apply IH.
Qed.

Lemma releaser_free_concept concept : releaser (free_concept concept).
Proof.
  unfold free_concept. destruct (is_null concept); [apply releaser_ret|].
  repeat first
    [ apply releaser_free
    | apply releaser_load_concept
    | apply releaser_load_slot
    | apply releaser_for_loop; intros ?; cbv beta
    | apply releaser_bind; [|intros ?] ].
Qed.

(** ** [create_concept] on granted allocations *)

Lemma Forall2_impl_lr {A B} (P Q : A → B → Prop) (Rl : A → Prop) (Rr : B → Prop) l k :
  Forall2 P l k → Forall Rl l → Forall Rr k →
  (∀ x y, P x y → Rl x → Rr y → Q x y) → Forall2 Q l k.
Proof.
  intros HP. induction HP as [|x y l k Hxy HP IH]; intros Hl Hr HQ; [constructor|].
  apply Forall_cons in Hl as [Hx Hl]. apply Forall_cons in Hr as [Hy Hr].
  constructor; auto.
Qed.

Section CreateSpec.
Context `{Allocator}.

Lemma create_concept_run id type s s_id s_type :
  granting →
  str_at (heap s) id = Some s_id →
  str_at (heap s) type = Some s_type →
  ∃ c a b s',
    create_concept id type s = Ret (Some c) s' ∧
    heap s' !! c = Some (BConcept (mkConcept (Some a) (Some b) NULL 0 0)) ∧
    heap s' !! a = Some (BStr s_id) ∧ heap s' !! b = Some (BStr s_type) ∧
    heap s !! c = None ∧ heap s !! a = None ∧ heap s !! b = None ∧
    a ≠ b ∧ a ≠ c ∧ b ≠ c ∧
    (∀ x blk, heap s !! x = Some blk → heap s' !! x = Some blk) ∧
    stdout s' = stdout s ∧ stderr s' = stderr s.
Proof.
  intros Hgrant Hid Hty.
  pose proof (alloc_pick_fresh (heap s)) as Hc.
  remember (alloc_pick (heap s)) as c eqn:Hce.
  pose proof (alloc_pick_fresh (<[c := BUninit]> (heap s))) as Ha.
  remember (alloc_pick (<[c := BUninit]> (heap s))) as a eqn:Hae.
  pose proof (alloc_pick_fresh (<[a := BStr s_id]> (<[c := BUninit]> (heap s)))) as Hb.
  remember (alloc_pick (<[a := BStr s_id]> (<[c := BUninit]> (heap s)))) as b eqn:Hbe.
  apply lookup_insert_None in Ha as [Ha Hac].
  apply lookup_insert_None in Hb as [Hb Hba].
  apply lookup_insert_None in Hb as [Hb Hbc].
  exists c, a, b. eexists. split.
  { apply create_concept_Ret. exists s_id, s_type. cbv zeta.
    rewrite <- Hce, <- Hae, <- Hbe. split_and!; try done.
    apply str_at_insert_fresh; [by rewrite lookup_insert_ne|].
    by apply str_at_insert_fresh. }
  simpl. clear Hce Hae Hbe.
  rewrite lookup_insert_eq.
  rewrite (lookup_insert_ne _ c a), (lookup_insert_ne _ b a), lookup_insert_eq by done.
  rewrite (lookup_insert_ne _ c b), lookup_insert_eq by done.
  split_and!; try done.
  intros x blk Hx. rewrite !lookup_insert_ne by congruence. done.
Qed.
End CreateSpec.

(** ** Capacities *)

Lemma next_capacity_max count capacity :
  0 ≤ count ≤ capacity →
  next_capacity count capacity =
    (if decide (count = capacity) then Z.max 2 (capacity * 2) else capacity) ∧
  (next_capacity count capacity ≠ capacity ↔ count = capacity).
Proof.
  intros Hb. unfold next_capacity, new_capacity_of.
  destruct (Z.leb_spec capacity count), (Z.eqb_spec capacity 0);
    case_decide; split; lia.
Qed.

Lemma create_concept_live `{Allocator} id type s :
  granting → is_Some (str_at (heap s) id) → is_Some (str_at (heap s) type) →
  ∃ c r s0,
    create_concept id type s = Ret (Some c) s0 ∧
    live (heap s0) c r [] ∧ slot_count r = 0 ∧ slot_capacity r = 0 ∧
    (∀ x blk, heap s !! x = Some blk → heap s0 !! x = Some blk).
Proof.
  intros Hgrant [s_id Hid] [s_type Hty].
  destruct (create_concept_run id type s s_id s_type)
    as (c & a & b & s0 & Hrun & Hc & _ & _ & _ & _ & _ & _ & _ & _ & Hframe & _);
    [done..|].
  exists c, (mkConcept (Some a) (Some b) NULL 0 0), s0.
  split_and!; try done. split_and!; try done. exists []. by split_and!.
Qed.

Lemma valid_call_mono h h' call :
  (∀ x blk, h !! x = Some blk → h' !! x = Some blk) →
  valid_call h call → valid_call h' call.
Proof.
  intros Hsub [[str Hs] Ht]. split; [|done]. exists str.
  apply str_at_Some in Hs. apply str_at_Some.
  destruct (call.1) as [x|]; [|done]. simpl in *. auto.
Qed.

Lemma live_committed h c r L : live h c r L → committed h r = Some L.
Proof.
  intros (_ & Hcount & _ & cells & Harr & Hcap & Htake). unfold committed.
  pose proof (f_equal length Htake) as Hlen.
  rewrite length_take, length_fmap in Hlen.
  rewrite Hcount, Nat2Z.id. destruct L as [|sl L]; [done|].
  simpl length in *. unfold cells_at.
  destruct (slots r) as [a|]; simpl in Harr; [|by subst cells].
  simpl. rewrite Harr. rewrite decide_True by lia. by apply written_Some.
Qed.

(** ** [free_concept] releases what the concept owns *)

Lemma release_foldr p h : release p h = foldr delete h (option_list p).
Proof. by destruct p. Qed.

Lemma names_of_cons_Some sl cells :
  names_of (Some sl :: cells) = option_list (name sl) ++ names_of cells.
Proof. unfold names_of. simpl. by destruct (name sl). Qed.

Lemma free_names_Ret h0 c r cells n : ∀ i s u s',
  h0 !! c = Some (BConcept r) → cells_of h0 r = cells →
  heap s ⊆ h0 →
  for_loop n (Z.of_nat i) (free_name (Some c)) s = Ret u s' →
  heap s' = foldr delete (heap s) (reverse (names_of (take n (drop i cells)))) ∧
  stdout s' = stdout s ∧ stderr s' = stderr s.
Proof.
  induction n as [|n IH]; intros i s u s' Hc Hcells Hsub; simpl.
  { by intros [_ ->]%ret_Ret. }
  intros (u1 & s1 & Hbody & Hk)%bind_Ret.
  apply bind_Ret in Hk as (j & s2 & (_ & -> & ->)%int_of_Ret & Hloop).
  unfold free_name in Hbody.
  apply bind_Ret in Hbody as (sl & s0 & Hsl & Hfree).
  apply load_slot_Ret in Hsl as (r1 & cells1 & Hr1 & Hc1 & _ & Hi & ->).
  simpl in Hr1. pose proof (lookup_weaken _ _ _ _ Hr1 Hsub) as Hr0.
  rewrite Hc in Hr0. injection Hr0 as <-.
  assert (cells1 = cells) as ->.
  { unfold cells_of, cells_at in Hcells. destruct (slots r) as [a|]; [|done].
    simpl in *. by rewrite (lookup_weaken _ _ _ _ Hc1 Hsub) in Hcells. }
  rewrite Nat2Z.id in Hi.
  apply free_Ret in Hfree as [_ ->].
  replace (Z.of_nat i + 1) with (Z.of_nat (S i)) in Hloop by lia.
  apply IH in Hloop as (Hh & Ho & He); [|done|done|].
  2:{ simpl. etrans; [|exact Hsub]. destruct (name sl); [apply delete_subseteq|done]. }
  split; [|done]. rewrite Hh. simpl.
  rewrite (drop_S _ _ _ Hi). simpl take. rewrite names_of_cons_Some.
  rewrite reverse_app, foldr_app, release_foldr. f_equal.
  by destruct (name sl).
Qed.

Lemma free_concept_unfold c :
  free_concept (Some c) =
  (r ← load_concept (Some c); free (id r);;
   r ← load_concept (Some c); free (types r);;
   r ← load_concept (Some c);
   for_loop (Z.to_nat (slot_count r)) 0 (free_name (Some c));;
   r ← load_concept (Some c); free (slots r);;
   free (Some c)).
Proof. reflexivity. Qed.

Lemma free_concept_Ret c s u s' :
  free_concept (Some c) s = Ret u s' →
  heap s' = foldr delete (heap s) (reverse (released (heap s) c)) ∧
  stdout s' = stdout s ∧ stderr s' = stderr s.
Proof.
  rewrite free_concept_unfold.
  intros (r & s0 & [Hr ->]%load_concept_Ret & Hk)%bind_Ret. simpl in Hr.
  apply bind_Ret in Hk as (u1 & s1 & [_ ->]%free_Ret & Hk).
  apply bind_Ret in Hk as (r1 & s0 & [Hr1 ->]%load_concept_Ret & Hk).
  apply bind_Ret in Hk as (u2 & s2 & [_ ->]%free_Ret & Hk).
  apply bind_Ret in Hk as (r2 & s0 & [Hr2 ->]%load_concept_Ret & Hk).
  apply bind_Ret in Hk as (u3 & s3 & Hloop & Hk).
  apply bind_Ret in Hk as (r3 & s0 & [Hr3 ->]%load_concept_Ret & Hk).
  apply bind_Ret in Hk as (u4 & s4 & [_ ->]%free_Ret & Hk).
  apply free_Ret in Hk as [_ ->].
  simpl in *.
  assert (∀ p h, release p h ⊆ h) as Hrel.
  { intros [a|] h; [apply delete_subseteq|done]. }
  assert (release (types r1) (release (id r) (heap s)) ⊆ heap s) as Hsub.
  { trans (release (id r) (heap s)); apply Hrel. }
  pose proof (lookup_weaken _ _ _ _ Hr2 Hsub) as Hr2'.
  rewrite Hr in Hr2'. injection Hr2' as <-.
  assert (r1 = r) as ->.
  { pose proof (lookup_weaken _ _ _ _ Hr1 (Hrel _ _)). congruence. }
  apply (free_names_Ret (heap s) c r (cells_of (heap s) r) _ 0) in Hloop
    as (Hh & Ho & He); [|done..].
  assert (r3 = r) as ->.
  { rewrite Hh in Hr3. apply lookup_foldr_delete_Some in Hr3 as [_ Hr3].
    pose proof (lookup_weaken _ _ _ _ Hr3 Hsub). congruence. }
  rewrite Hh, Ho, He. simpl. split; [|done].
  unfold released, owned, owned_strings. rewrite Hr. rewrite drop_0.
  rewrite !reverse_app, !foldr_app, !release_foldr. simpl.
  repeat f_equal; by destruct (id r), (types r), (slots r).
Qed.

(** ** The text of a concept depends on its footprint only *)

Section Agree.
Variables h h' : gmap positive block.

Lemma deref_agree (l : list positive) p :
  (∀ x, x ∈ l → h' !! x = h !! x) →
  (∀ x, p = Some x → x ∈ l) → deref h' p = deref h p.
Proof. intros Hl Hp. destruct p as [x|]; [|done]. simpl. auto. Qed.

Lemma str_at_agree (l : list positive) p :
  (∀ x, x ∈ l → h' !! x = h !! x) →
  (∀ x, p = Some x → x ∈ l) → str_at h' p = str_at h p.
Proof. intros Hl Hp. unfold str_at. by rewrite (deref_agree l). Qed.

Lemma render_slot_agree i sl :
  (∀ x, x ∈ slot_footprint h sl → h' !! x = h !! x) →
  render_slot h' i sl = render_slot h i sl.
Proof.
  intros Hl. unfold render_slot, slot_footprint in *.
  rewrite (str_at_agree _ (name sl) Hl); last first.
  { intros x ->. set_solver. }
  destruct (str_at h (name sl)); [|done].
  unfold render_target, concept_at. destruct (target sl) as [t|]; [|done].
  simpl. rewrite (Hl t) by set_solver.
  destruct (h !! t) as [[| |tr|]|] eqn:Ht; try done.
  rewrite (str_at_agree _ (id tr) Hl); [done|].
  intros x Hx. rewrite Hx. set_solver.
Qed.

Lemma render_slots_agree L : ∀ i,
  (∀ x, x ∈ concat (slot_footprint h <$> L) → h' !! x = h !! x) →
  render_slots h' i L = render_slots h i L.
Proof.
  induction L as [|sl L IH]; intros i Hl; simpl; [done|].
  simpl in Hl. rewrite render_slot_agree by (intros; apply Hl; set_solver).
  rewrite IH by (intros; apply Hl; set_solver). done.
Qed.

Lemma render_agree c :
  (∀ x, x ∈ footprint h c → h' !! x = h !! x) →
  render h' c = render h c.
Proof.
  intros Hl. unfold render, footprint in *.
  rewrite (Hl c) by set_solver.
  destruct (h !! c) as [[| |r|]|] eqn:Hc; try done.
  rewrite (str_at_agree _ (id r) Hl) by (intros x ->; set_solver).
  destruct (str_at h (id r)); [|done].
  rewrite (str_at_agree _ (types r) Hl) by (intros x ->; set_solver).
  destruct (str_at h (types r)); [|done].
  assert (committed h' r = committed h r) as Hcom.
  { unfold committed, cells_at.
    by rewrite (deref_agree _ (slots r) Hl) by (intros x ->; set_solver). }
  rewrite Hcom. destruct (committed h r) as [L|]; [|done].
  case_decide; [|done].
  rewrite render_slots_agree; [done|]. intros x Hx. apply Hl. set_solver.
Qed.
End Agree.

(** ** Exclusive ownership is kept by the four operations *)

Lemma cells_of_agree h h' r :
  (∀ y, slots r = Some y → h' !! y = h !! y) → cells_of h' r = cells_of h r.
Proof.
  intros Hy. unfold cells_of, cells_at, deref. destruct (slots r) as [y|]; [|done].
  by rewrite Hy.
Qed.

Lemma owned_agree h h' c r :
  h !! c = Some (BConcept r) → h' !! c = Some (BConcept r) →
  (∀ y, slots r = Some y → h' !! y = h !! y) → owned h' c = owned h c.
Proof.
  intros Hc Hc' Hy. unfold owned, owned_strings. rewrite Hc, Hc'.
  by rewrite (cells_of_agree h h' r Hy).
Qed.

Lemma owned_concept h c x :
  x ∈ owned h c → ∃ r, h !! c = Some (BConcept r) ∧
    (x ∈ owned_strings h r ∨ slots r = Some x).
Proof.
  unfold owned. destruct (h !! c) as [[| |r|]|]; try by intros ?%elem_of_nil.
  intros [Hx|Hx]%elem_of_app; exists r; (split; [done|]); [by left|right].
  destruct (slots r); simpl in Hx; [|by apply elem_of_nil in Hx].
  apply list_elem_of_singleton in Hx. by subst.
Qed.

Lemma owned_slots h c r y :
  h !! c = Some (BConcept r) → slots r = Some y → y ∈ owned h c.
Proof.
  intros Hc Hy. unfold owned. rewrite Hc, Hy. apply elem_of_app. right.
  simpl. apply list_elem_of_singleton. done.
Qed.

Lemma owned_typed h c x :
  wf_store h → x ∈ owned h c → is_string h x ∨ is_array h x.
Proof.
  intros [Hty _] (r & Hc & [Hx|Hx])%owned_concept; destruct (Hty c r Hc) as [Hs Ha].
  - left. rewrite Forall_forall in Hs. auto.
  - right. auto.
Qed.

Lemma owned_not_concept h c x r :
  wf_store h → x ∈ owned h c → h !! x ≠ Some (BConcept r).
Proof.
  intros Hwf Hx. destruct (owned_typed _ _ _ Hwf Hx) as [[? ?]|[? ?]]; congruence.
Qed.

Lemma wf_store_step h h' c :
  wf_store h →
  (∀ x r, x ≠ c → h' !! x = Some (BConcept r) → h !! x = Some (BConcept r)) →
  (∀ x r y, x ≠ c → h' !! x = Some (BConcept r) → y ∈ owned h x →
            h' !! y = h !! y) →
  (∀ r, h' !! c = Some (BConcept r) →
     Forall (is_string h') (owned_strings h' r) ∧
     (∀ y, slots r = Some y → is_array h' y) ∧
     ∀ x y, x ≠ c → y ∈ owned h' c → y ∈ owned h x → False) →
  wf_store h'.
Proof.
  intros Hwf Hold Hkeep Hc.
  assert (∀ x r, x ≠ c → h' !! x = Some (BConcept r) → owned h' x = owned h x) as Hown.
  { intros x r Hxc Hx. apply (owned_agree h h' x r); [by apply Hold|done|].
    intros y Hy. apply (Hkeep x r); [done..|].
    eapply owned_slots; [by apply Hold|done]. }
  split.
  - intros x r Hx. destruct (decide (x = c)) as [->|Hxc].
    { destruct (Hc r Hx) as (? & ? & _). done. }
    pose proof (Hold x r Hxc Hx) as Hx0. destruct Hwf as [Hty _].
    destruct (Hty x r Hx0) as [Hs Ha].
    assert (cells_of h' r = cells_of h r) as Hcells.
    { apply cells_of_agree. intros y Hy. apply (Hkeep x r); [done..|].
      by eapply owned_slots. }
    split.
    + unfold owned_strings in *. rewrite Hcells.
      rewrite Forall_forall in Hs. apply Forall_forall. intros y Hy.
      destruct (Hs y Hy) as [str Hstr]. exists str.
      rewrite (Hkeep x r y); [done..|].
      unfold owned, owned_strings. rewrite Hx0. apply elem_of_app. by left.
    + intros y Hy. destruct (Ha y Hy) as [cells Hcs]. exists cells.
      rewrite (Hkeep x r y); [done..|]. by eapply owned_slots.
  - intros c1 c2 x H1 H2.
    destruct (owned_concept _ _ _ H1) as (r1 & Hc1 & _).
    destruct (owned_concept _ _ _ H2) as (r2 & Hc2 & _).
    destruct (decide (c1 = c)) as [->|Hn1], (decide (c2 = c)) as [->|Hn2]; [done|..].
    + destruct (Hc r1 Hc1) as (_ & _ & Hex). exfalso.
      apply (Hex c2 x); [done..|]. by rewrite <- (Hown c2 r2).
    + destruct (Hc r2 Hc2) as (_ & _ & Hex). exfalso.
      apply (Hex c1 x); [done..|]. by rewrite <- (Hown c1 r1).
    + rewrite (Hown c1 r1) in H1 by done. rewrite (Hown c2 r2) in H2 by done.
      destruct Hwf as [_ Hex]. by apply (Hex c1 c2 x).
Qed.

Lemma wf_store_concept_free h : concept_free h → wf_store h.
Proof.
  intros Hfree. split.
  - intros c r Hc. by destruct (Hfree c _ Hc).
  - intros c1 c2 x (r & Hc & _)%owned_concept. by destruct (Hfree c1 _ Hc).
Qed.

Lemma names_of_app l1 l2 : names_of (l1 ++ l2) = names_of l1 ++ names_of l2.
Proof. unfold names_of. apply omap_app. Qed.

Lemma names_of_replicate_None n : names_of (replicate n None) = [].
Proof. induction n as [|n IH]; [done|]. exact IH. Qed.

Lemma names_of_take_resize k n old :
  (k ≤ n)%nat → names_of (take k (resize n None old)) = names_of (take k old).
Proof.
  intros Hkn. rewrite take_resize_le by done. rewrite resize_spec, names_of_app.
  by rewrite names_of_replicate_None, app_nil_r.
Qed.

Lemma cells_of_array h r cells : array_at h (slots r) cells → cells_of h r = cells.
Proof.
  unfold cells_of, cells_at, deref, array_at. destruct (slots r); [|done].
  by intros ->.
Qed.

Lemma free_concept_lookup c s u s' :
  free_concept (Some c) s = Ret u s' →
  (∃ r, heap s !! c = Some (BConcept r)) ∧
  ∀ x, heap s' !! x =
       if decide (x ∈ released (heap s) c) then None else heap s !! x.
Proof.
  intros Hrun. split.
  - rewrite free_concept_unfold in Hrun.
    apply bind_Ret in Hrun as (r & s0 & [Hr ->]%load_concept_Ret & _). eauto.
  - apply free_concept_Ret in Hrun as (Hh & _). intros x. rewrite Hh.
    case_decide as Hx.
    + apply lookup_foldr_delete. by apply elem_of_reverse.
    + apply lookup_foldr_delete_not_elem_of. by rewrite elem_of_reverse.
Qed.

Lemma wf_free_concept concept s u s' :
  free_concept concept s = Ret u s' → wf_store (heap s) → wf_store (heap s').
Proof.
  destruct concept as [c|]; [|by intros [= _ <-]].
  intros [[rc Hc] Hlook]%free_concept_lookup Hwf.
  assert (∀ x r, heap s' !! x = Some (BConcept r) → heap s !! x = Some (BConcept r))
    as Hold.
  { intros x r. rewrite Hlook. by case_decide. }
  apply (wf_store_step (heap s) (heap s') c); [done|..].
  - intros x r _. apply Hold.
  - intros x r y Hxc Hx Hy. rewrite Hlook. rewrite decide_False; [done|].
    unfold released. rewrite elem_of_app, list_elem_of_singleton. intros [Hyc| ->].
    + destruct Hwf as [_ Hex]. by apply Hxc, (Hex x c y).
    + by apply (owned_not_concept _ _ _ rc Hwf) in Hy.
  - intros r. rewrite Hlook. rewrite decide_True; [done|].
    unfold released. rewrite elem_of_app, list_elem_of_singleton. by right.
Qed.

Section WfRuns.
Context `{Allocator}.

Lemma wf_create_concept id type s p s' :
  create_concept id type s = Ret p s' → wf_store (heap s) → wf_store (heap s').
Proof.
  intros (i & t & Hid & Hty & _ & _ & _ & -> & ->)%create_concept_Ret Hwf.
  cbv zeta in *. simpl.
  pose proof (alloc_pick_fresh (heap s)) as Hc.
  remember (alloc_pick (heap s)) as c eqn:Hce.
  pose proof (alloc_pick_fresh (<[c := BUninit]> (heap s))) as Ha.
  remember (alloc_pick (<[c := BUninit]> (heap s))) as a eqn:Hae.
  pose proof (alloc_pick_fresh (<[a := BStr i]> (<[c := BUninit]> (heap s)))) as Hb.
  remember (alloc_pick (<[a := BStr i]> (<[c := BUninit]> (heap s)))) as b eqn:Hbe.
  apply lookup_insert_None in Ha as [Ha Hac].
  apply lookup_insert_None in Hb as [Hb Hba].
  apply lookup_insert_None in Hb as [Hb Hbc].
  clear Hce Hae Hbe Hid Hty.
  remember (<[c := BConcept (mkConcept (Some a) (Some b) NULL 0 0)]>
              (<[b := BStr t]> (<[a := BStr i]> (<[c := BUninit]> (heap s))))) as h'
    eqn:Hh'.
  assert (∀ x, x ≠ c → x ≠ a → x ≠ b → h' !! x = heap s !! x) as Hsame.
  { intros x ???. subst h'. by rewrite !lookup_insert_ne by done. }
  assert (h' !! a = Some (BStr i) ∧ h' !! b = Some (BStr t) ∧
          h' !! c = Some (BConcept (mkConcept (Some a) (Some b) NULL 0 0)))
    as (Ha' & Hb' & Hc').
  { subst h'. rewrite lookup_insert_eq.
    rewrite (lookup_insert_ne _ c a), (lookup_insert_ne _ b a), lookup_insert_eq by done.
    by rewrite (lookup_insert_ne _ c b), lookup_insert_eq by done. }
  clear Hh'.
  assert (∀ x y, y ∈ owned (heap s) x → y ≠ c ∧ y ≠ a ∧ y ≠ b) as Hfresh.
  { intros x y Hy.
    destruct (owned_typed _ _ _ Hwf Hy) as [[? ?]|[? ?]]; split_and!; congruence. }
  apply (wf_store_step (heap s) h' c); [done|..].
  - intros x r Hxc Hx. rewrite <- Hsame; [done|done|..]; congruence.
  - intros x r y Hxc Hx Hy. destruct (Hfresh x y Hy) as (? & ? & ?). by apply Hsame.
  - intros r. rewrite Hc'. intros [= <-]. unfold owned_strings. simpl. split_and!.
    + repeat constructor; eexists; eauto.
    + done.
    + intros x y Hxc Hy Hyx. destruct (Hfresh x y Hyx) as (? & ? & ?).
      unfold owned, owned_strings in Hy. rewrite Hc' in Hy. simpl in Hy.
      set_solver.
Qed.

Lemma wf_add_slot concept slot_name target s u s' :
  add_slot concept slot_name target s = Ret u s' →
  wf_store (heap s) → wf_store (heap s').
Proof.
  destruct concept as [c|], slot_name as [n|], target as [t|];
    try by intros [= _ <-].
  intros Hrun Hwf.
  destruct (add_slot_inv _ _ _ _ _ _ Hrun)
    as (r & str & q & arr & old & new & Hr & Hn & Hold & Hc' & Harr' & Hi & Hmax
        & Hnew & Hsame & Hcapn & Hq & Hframe & Hback & _ & _ & Hfresh & _).
  pose proof Hwf as [Hty Hex]. destruct (Hty c r Hr) as [Hstrs Harrs].
  rewrite Forall_forall in Hstrs.
  assert (∀ y, y ∈ owned (heap s) c → y = c → False) as Hnc.
  { intros y Hy ->. by eapply owned_not_concept. }
  (* a block of the old heap that is not the source's array is kept *)
  assert (∀ y, (is_string (heap s) y ∨ is_array (heap s) y) → slots r ≠ Some y →
               heap s' !! y = heap s !! y) as Hkept.
  { intros y Hy Hsy.
    assert (y ≠ c) by (destruct Hy as [[? ?]|[? ?]]; congruence).
    destruct (heap s !! y) as [b|] eqn:Hb; [by apply Hframe|].
    destruct Hy as [[? ?]|[? ?]]; congruence. }
  (* the new array is not a block of another concept *)
  assert (∀ x, x ≠ c → arr ∈ owned (heap s) x → False) as Harr_new.
  { intros x Hxc Hx.
    destruct (decide (slot_count r < slot_capacity r)) as [Hlt|Hge].
    - apply Hxc, (Hex x c arr); [done|]. eapply owned_slots; eauto.
    - destruct (release_lookup_None _ _ _ (Hfresh ltac:(lia))) as [Hnone|Hs].
      + destruct (owned_typed _ _ _ Hwf Hx) as [[? ?]|[? ?]]; congruence.
      + apply Hxc, (Hex x c arr); [done|]. eapply owned_slots; eauto. }
  (* the new name buffer is not a block of another concept *)
  assert (∀ x a, x ≠ c → q = Some a → a ∈ owned (heap s) x → False) as Hq_new.
  { intros x a Hxc -> Hx.
    destruct Hq as [[? _]|(a' & [= <-] & _ & _ & _ & [Hnone|Hs])]; [done|..].
    - destruct (owned_typed _ _ _ Hwf Hx) as [[? ?]|[? ?]]; congruence.
    - apply Hxc, (Hex x c a); [done|]. eapply owned_slots; eauto. }
  apply (wf_store_step (heap s) (heap s') c); [done|..].
  - intros x rx Hxc Hx. apply Hback; [done|done|congruence|].
    intros ->. destruct Hq as [[? _]|(a & ? & Ha & _)]; simplify_eq.
  - intros x rx y Hxc Hx Hy. apply Hkept; [by eapply owned_typed|].
    intros Hs. apply Hxc, (Hex x c y); [done|]. eapply owned_slots; eauto.
  - intros r'. rewrite Hc'. intros [= <-].
    assert (0 ≤ slot_count r) as Hc0 by lia.
    assert (cells_of (heap s')
              (mkConcept (id r) (types r) (Some arr) (slot_count r + 1)
                 (next_capacity (slot_count r) (slot_capacity r)))
            = <[Z.to_nat (slot_count r) := Some (mkSlot q (Some t))]> new) as Hcells'.
    { unfold cells_of, cells_at. simpl. by rewrite Harr'. }
    assert (∀ y, y ∈ owned_strings (heap s')
                   (mkConcept (id r) (types r) (Some arr) (slot_count r + 1)
                      (next_capacity (slot_count r) (slot_capacity r))) →
                 y ∈ owned_strings (heap s) r ∨ q = Some y) as Hsplit.
    { intros y. unfold owned_strings. rewrite Hcells'. simpl.
      replace (Z.to_nat (slot_count r + 1)) with (S (Z.to_nat (slot_count r))) by lia.
      erewrite take_S_r by (apply list_lookup_insert_eq; lia).
      rewrite take_insert_ge by done. rewrite names_of_app.
      assert (names_of (take (Z.to_nat (slot_count r)) new) =
              names_of (take (Z.to_nat (slot_count r)) (cells_of (heap s) r))) as ->.
      { rewrite (cells_of_array _ _ _ Hold). subst new. case_decide; [done|].
        rewrite length_resize in Hi. apply names_of_take_resize. lia. }
      rewrite !elem_of_app. intros [?|[?|[?|Hy]]]; auto.
      right. unfold names_of in Hy. simpl in Hy. destruct q; simpl in Hy;
        [apply list_elem_of_singleton in Hy; by subst|by apply elem_of_nil in Hy]. }
    split_and!.
    + apply Forall_forall. intros y [Hy| ->]%Hsplit.
      * destruct (Hstrs y Hy) as [sy Hsy]. exists sy.
        rewrite Hkept; [done|left; by exists sy|].
        intros Hs. destruct (Harrs y Hs). congruence.
      * destruct Hq as [[? _]|(a & [= <-] & Ha & _)]; [done|]. by exists str.
    + simpl. intros y [= <-]. eexists. exact Harr'.
    + intros x y Hxc Hy Hyx. unfold owned in Hy. rewrite Hc' in Hy.
      apply elem_of_app in Hy as [Hy|Hy].
      * apply Hsplit in Hy as [Hy|Hy]; [|by eapply Hq_new].
        apply Hxc, (Hex x c y); [done|]. unfold owned. rewrite Hr.
        apply elem_of_app. by left.
      * simpl in Hy. apply list_elem_of_singleton in Hy. subst y.
        by eapply Harr_new.
Qed.
End WfRuns.

(** ** With exclusive ownership, what a concept reads is not what another
    one releases *)

Lemma committed_names h r L sl y :
  committed h r = Some L → sl ∈ L → name sl = Some y →
  y ∈ names_of (take (Z.to_nat (slot_count r)) (cells_of h r)).
Proof.
  unfold committed, cells_of. destruct (Z.to_nat (slot_count r)) as [|n] eqn:Hn.
  { intros [= <-] Hsl. by apply elem_of_nil in Hsl. }
  destruct (cells_at h (slots r)) as [cells|]; [|done].
  case_decide; [|done]. intros ->%written_Some Hsl Hy.
  unfold names_of. apply list_elem_of_omap. exists (Some sl). split; [|done].
  apply list_elem_of_fmap. eauto.
Qed.

Lemma render_slots_each h L : ∀ i body sl,
  render_slots h i L = Some body → sl ∈ L → ∃ j text, render_slot h j sl = Some text.
Proof.
  induction L as [|sl0 L IH]; intros i body sl; simpl.
  { intros _ Hsl. by apply elem_of_nil in Hsl. }
  destruct (render_slot h i sl0) as [t0|] eqn:H0; [|done].
  destruct (render_slots h (i + 1) L) as [rest|] eqn:Hrest; [|done].
  intros _ [->|Hsl]%elem_of_cons; eauto.
Qed.

Lemma elem_of_concat {A} (x : A) (ls : list (list A)) :
  x ∈ concat ls → ∃ l, x ∈ l ∧ l ∈ ls.
Proof.
  induction ls as [|l ls IH]; simpl; [by intros ?%elem_of_nil|].
  intros [Hx|Hx]%elem_of_app.
  - exists l. split; [done|]. by left.
  - destruct (IH Hx) as (l' & ? & ?). exists l'. split; [done|]. by right.
Qed.

Lemma footprint_separate h c rc t text :
  wf_store h → h !! c = Some (BConcept rc) → t ≠ c →
  render h t = Some text → avoids h t c →
  Forall (λ x, x ∉ released h c) (footprint h t).
Proof.
  intros Hwf Hc Htc Hrender Havoid. pose proof Hwf as [_ Hex].
  assert (∀ u y, u ≠ c → y ∈ owned h u → y ∉ released h c) as Hown.
  { intros u y Huc Hy. unfold released.
    rewrite elem_of_app, list_elem_of_singleton. intros [Hyc| ->].
    - by apply Huc, (Hex u c y).
    - by apply (owned_not_concept _ _ _ rc Hwf) in Hy. }
  assert (∀ u ru, u ≠ c → h !! u = Some (BConcept ru) → u ∉ released h c) as Hrec.
  { intros u ru Huc Hu. unfold released.
    rewrite elem_of_app, list_elem_of_singleton. intros [Hyc|?]; [|done].
    by apply (owned_not_concept _ _ _ ru Hwf) in Hyc. }
  unfold render in Hrender. unfold footprint.
  destruct (h !! t) as [[| |r|]|] eqn:Ht; try done.
  destruct (str_at h (id r)) as [s_id|]; [|done].
  destruct (str_at h (types r)) as [s_types|]; [|done].
  destruct (committed h r) as [L|] eqn:HL; [|done].
  case_decide; [|done].
  destruct (render_slots h 1 L) as [body|] eqn:Hbody; [|done].
  assert (∀ y, y ∈ owned_strings h r → y ∈ owned h t) as Hstr.
  { intros y Hy. unfold owned. rewrite Ht. apply elem_of_app. by left. }
  apply Forall_forall. intros y.
  rewrite elem_of_cons, !elem_of_app.
  intros [->|[Hy|[Hy|[Hy|Hy]]]].
  - by eapply Hrec.
  - apply (Hown t); [done|]. apply Hstr. unfold owned_strings.
    rewrite !elem_of_app. auto.
  - apply (Hown t); [done|]. apply Hstr. unfold owned_strings.
    rewrite !elem_of_app. auto.
  - apply (Hown t); [done|]. unfold owned. rewrite Ht. apply elem_of_app. by right.
  - apply elem_of_concat in Hy as (l & Hy & (sl & -> & Hsl)%list_elem_of_fmap).
    unfold slot_footprint in Hy. apply elem_of_app in Hy as [Hy|Hy].
    + destruct (name sl) as [z|] eqn:Hz; simpl in Hy; [|by apply elem_of_nil in Hy].
      apply list_elem_of_singleton in Hy. subst z.
      apply (Hown t); [done|]. apply Hstr. unfold owned_strings.
      rewrite !elem_of_app. right. right. by eapply committed_names.
    + destruct (target sl) as [u|] eqn:Hu; [|by apply elem_of_nil in Hy].
      assert (u ≠ c) as Huc.
      { specialize (Havoid r L Ht HL). rewrite Forall_forall in Havoid.
        specialize (Havoid sl Hsl). congruence. }
      destruct (render_slots_each h L 1 body sl Hbody Hsl) as (j & txt & Hrs).
      unfold render_slot in Hrs.
      destruct (str_at h (name sl)); [|done]. rewrite Hu in Hrs.
      unfold render_target, concept_at in Hrs. simpl in Hrs.
      destruct (h !! u) as [[| |tr|]|] eqn:Htr; try done.
      apply elem_of_cons in Hy as [->|Hy]; [by eapply Hrec|].
      apply (Hown u); [done|]. unfold owned, owned_strings. rewrite Htr.
      rewrite !elem_of_app. auto.
Qed.

(** ** Refusing allocators *)

(** When the allocator refuses the strings, [create_concept] releases the
    record again, writes its diagnostic and exits with status 1. *)
Example create_concept_refused :
  @create_concept (frugal 6) (Some lit_john) (Some lit_Person) boot =
  Exit 1 (mkState main_image EmptyString
            ("Failed to allocate memory for Concept strings." +:+ nl)).
Proof. vm_compute. reflexivity. Qed.

(** When the allocator refuses the slot array, [main] exits with status 1
    and the diagnostic of [add_slot], having printed nothing. *)
Example main_refused :
  (∃ h, @main (frugal 11) boot =
        Exit 1 (mkState h EmptyString
                  ("Failed to allocate memory for slots." +:+ nl))).
Proof. eexists. vm_compute. reflexivity. Qed.


(** * The claims *)

Lemma generous_granting : @granting generous.
Proof. intros h b. reflexivity. Defined.

(** ** C1 *)

(** C1.  [add_slot] does not keep the name when its copy fails.  On the two
    concepts of [main], with the slot array granted and the copy of the
    name refused, the call [add_slot(john, "owns", book)], all three
    arguments present, returns: the count is 1 and the one committed slot
    has the caller's target under a [NULL] name.  The slot holds no copy
    of the name, and the behaviour of [print_concept] on john is then
    undefined. *)
Theorem add_slot_unchecked_strdup :
  @add_slot (frugal 12) (Some john) (Some lit_owns) (Some book) two_concepts =
    Ret tt nameless ∧
  slot_count <$> concept_at (heap nameless) (Some john) = Some 1 ∧
  concept_at (heap nameless) (Some john) ≫= committed (heap nameless) =
    Some [mkSlot NULL (Some book)] ∧
  print_concept (Some john) nameless = Undef.
Proof. split_and!; vm_compute; reflexivity. Qed.

(** ** C2 *)

(** C2.  With the allocator granting, an append to a live concept with
    fewer than 2^30 slots leaves the capacity as it is when the count is
    below it and makes it [max(2, capacity * 2)] when the count equals it:
    the capacity changes exactly when count and capacity are equal.  So a
    concept made by [create_concept] and then appended to has capacity 2
    after the 1st append, 4 after the 3rd, 8 after the 5th and 16 after the
    9th. *)
Theorem capacity_growth `{Allocator} :
  granting →
  (∀ c n t s r L str,
     live (heap s) c r L → heap s !! n = Some (BStr str) →
     Z.of_nat (length L) < 2 ^ 30 →
     ∃ s' r',
       add_slot (Some c) (Some n) (Some t) s = Ret tt s' ∧
       heap s' !! c = Some (BConcept r') ∧
       slot_capacity r' =
         (if decide (slot_count r = slot_capacity r)
          then Z.max 2 (slot_capacity r * 2) else slot_capacity r) ∧
       (slot_capacity r' ≠ slot_capacity r ↔ slot_count r = slot_capacity r)) ∧
  (∀ id type calls s,
     is_Some (str_at (heap s) id) → is_Some (str_at (heap s) type) →
     Forall (valid_call (heap s)) calls → Z.of_nat (length calls) ≤ 2 ^ 30 →
     ∃ c s0 s' r',
       create_concept id type s = Ret (Some c) s0 ∧
       add_slots (Some c) calls s0 = Ret tt s' ∧
       heap s' !! c = Some (BConcept r') ∧
       slot_capacity r' = capacity_after (length calls) 0 0 ∧
       (length calls = 1%nat → slot_capacity r' = 2) ∧
       (length calls = 3%nat → slot_capacity r' = 4) ∧
       (length calls = 5%nat → slot_capacity r' = 8) ∧
       (length calls = 9%nat → slot_capacity r' = 16)).
Proof.
  intros Hgrant. split.
  - intros c n t s r L str Hlive Hn Hlen.
    destruct (add_slot_live c n t s r L str)
      as (s' & r' & a & Hrun & Hlive' & _ & _ & _ & _ & Hcap & _); [done..|].
    exists s', r'. destruct Hlive' as (Hc' & _).
    apply live_bounds in Hlive as [Hb _].
    destruct (next_capacity_max _ _ Hb) as [Heq Hiff].
    split_and!; [done|done|congruence|by rewrite Hcap].
  - intros id type calls s Hid Hty Hvalid Hlen.
    destruct (create_concept_live id type s) as (c & r & s0 & Hrun & Hlive & Hn0 & Hc0 & Hsub);
      [done..|].
    destruct (add_slots_live c calls s0 r [] Hlive)
      as (s' & r' & L & Hrun' & Hlive' & _ & _ & _ & _ & _ & Hcap & _);
      [|done|simpl; lia|].
    { eapply Forall_impl; [exact Hvalid|]. intros call. by apply valid_call_mono. }
    exists c, s0, s', r'. destruct Hlive' as (Hc' & _).
    rewrite Hn0, Hc0 in Hcap.
    split_and!; try done; intros Hk; rewrite Hcap, Hk; reflexivity.
Qed.

Lemma capacity_growth_witness :
  (∃ s' r',
     add_slot (Some john) (Some lit_owns) (Some book) two_concepts = Ret tt s' ∧
     heap s' !! john = Some (BConcept r') ∧
     slot_capacity r' = 2 ∧ (slot_capacity r' ≠ 0 ↔ 0 = 0)) ∧
  (∃ c s0 s' r',
     create_concept (Some lit_john) (Some lit_Person) boot = Ret (Some c) s0 ∧
     add_slots (Some c) nine_calls s0 = Ret tt s' ∧
     heap s' !! c = Some (BConcept r') ∧
     slot_capacity r' = 16).
Proof.
  destruct (capacity_growth generous_granting) as [Hone Hnine]. split.
  - apply (Hone john lit_owns book two_concepts
             (mkConcept (Some 7%positive) (Some 8%positive) NULL 0 0) [] "owns").
    + split_and!; [reflexivity|reflexivity|unfold INT_MAX; simpl; lia|].
      exists []. split_and!; reflexivity.
    + reflexivity.
    + simpl. lia.
  - destruct (Hnine (Some lit_john) (Some lit_Person) nine_calls boot)
      as (c & s0 & s' & r' & Hc & Hs & Hr & _ & _ & _ & _ & H9).
    + eexists. reflexivity.
    + eexists. reflexivity.
    + repeat constructor; eexists; reflexivity.
    + simpl. lia.
    + exists c, s0, s', r'. split_and!; [exact Hc|exact Hs|exact Hr|].
      apply H9. reflexivity.
Defined.

(** ** C3 *)

(** C3.  With the allocator granting and the five string literals of
    [main.c] in memory, [main] returns 0 and has written to [stdout]
    exactly the text of the scenario: the id, the type label, the number of
    slots, then the slot's ordinal (counted from 1), its name and its
    target's id, tab-indented. *)
Theorem main_prints_john `{Allocator} (s : state) :
  granting →
  main_image ⊆ heap s →
  ∃ s', main s = Ret 0 s' ∧ stdout s' = stdout s +:+ demo_text ∧
        stderr s' = stderr s.
Proof.
  intros Hgrant Himg.
  assert (∀ x blk, main_image !! x = Some blk → heap s !! x = Some blk) as Hlit.
  { intros x blk Hx. by eapply lookup_weaken. }
  destruct (create_concept_run (Some lit_john) (Some lit_Person) s "john" "Person")
    as (john & a1 & b1 & s1 & Hrun1 & Hc1 & Ha1 & Hb1 & _ & _ & _ & _ & _ & _
        & Hframe1 & Hout1 & Herr1); [done|..].
  { apply str_at_Some. by apply Hlit. }
  { apply str_at_Some. by apply Hlit. }
  destruct (create_concept_run (Some lit_book) (Some lit_Object) s1 "book" "Object")
    as (book & a2 & b2 & s2 & Hrun2 & Hc2 & Ha2 & Hb2 & Hfc2 & _ & _ & _ & _ & _
        & Hframe2 & Hout2 & Herr2); [done|..].
  { apply str_at_Some. by apply Hframe1, Hlit. }
  { apply str_at_Some. by apply Hframe1, Hlit. }
  assert (john ≠ book) as Hjb by congruence.
  pose proof (Hframe2 _ _ Hc1) as Hj2.
  destruct (add_slot_live john lit_owns book s2
              (mkConcept (Some a1) (Some b1) NULL 0 0) [] "owns")
    as (s3 & r3 & a3 & Hrun3 & Hlive3 & Ha3 & _ & Hid3 & Hty3 & _ & Hframe3
        & Hout3 & Herr3); [|by apply Hframe2, Hframe1, Hlit|done|done|].
  { split_and!; [by apply Hframe2|done|done|]. exists []. by split_and!. }
  simpl in *.
  assert (∀ x blk, heap s1 !! x = Some blk ∨ heap s2 !! x = Some blk → x ≠ john →
                   heap s3 !! x = Some blk) as Hkeep.
  { intros x blk [Hx|Hx] Hne; apply Hframe3; auto. }
  pose proof Hlive3 as (Hj3 & _).
  assert (render (heap s3) john = Some demo_text) as Hrender.
  { unfold render. rewrite Hj3, Hid3, Hty3. unfold str_at at 1 2. simpl.
    rewrite (Hkeep a1 (BStr "john")), (Hkeep b1 (BStr "Person")) by (auto; congruence).
    rewrite (live_committed _ _ _ _ Hlive3).
    destruct Hlive3 as (_ & Hcount & _). rewrite Hcount. simpl.
    unfold render_slot, str_at, concept_at. simpl.
    rewrite Ha3. unfold concept_at. simpl.
    rewrite (Hkeep book _ (or_intror Hc2)) by done. unfold str_at. simpl.
    rewrite (Hkeep a2 (BStr "book")) by (auto; congruence).
    reflexivity. }
  eexists. unfold main.
  erewrite bind_run by exact Hrun1.
  erewrite bind_run by exact Hrun2.
  erewrite bind_run by exact Hrun3.
  erewrite bind_run by (by apply print_concept_render).
  split; [reflexivity|]. simpl. split; congruence.
Qed.

Lemma main_prints_john_witness :
  ∃ s', main boot = Ret 0 s' ∧ stdout s' = stdout boot +:+ demo_text ∧
        stderr s' = stderr boot.
Proof.
  apply (main_prints_john boot).
  - exact generous_granting.
  - reflexivity.
Defined.

(** ** C4 *)

(** C4.  On two C strings, with the allocator granting, [create_concept]
    returns a concept whose [id] and [types] point to two new buffers that
    hold the caller's strings, and whose slot list is empty: [slots] is
    [NULL], count and capacity are 0.  The record and the two buffers are
    blocks that were not allocated before the call, so neither buffer is a
    caller's; every block of the caller is as it was; and overwriting any
    block that existed before the call (the caller's buffers among them)
    leaves the record and its two strings as they are. *)
Theorem create_concept_copies `{Allocator} (id type : ptr) (s : state)
    (s_id s_type : string) :
  granting →
  str_at (heap s) id = Some s_id →
  str_at (heap s) type = Some s_type →
  ∃ c a b s',
    create_concept id type s = Ret (Some c) s' ∧
    heap s' !! c = Some (BConcept (mkConcept (Some a) (Some b) NULL 0 0)) ∧
    str_at (heap s') (Some a) = Some s_id ∧
    str_at (heap s') (Some b) = Some s_type ∧
    heap s !! c = None ∧ heap s !! a = None ∧ heap s !! b = None ∧ a ≠ b ∧
    Some a ≠ id ∧ Some a ≠ type ∧ Some b ≠ id ∧ Some b ≠ type ∧
    (∀ x blk, heap s !! x = Some blk → heap s' !! x = Some blk) ∧
    (∀ x blk, is_Some (heap s !! x) →
       <[x := blk]> (heap s') !! c =
         Some (BConcept (mkConcept (Some a) (Some b) NULL 0 0)) ∧
       str_at (<[x := blk]> (heap s')) (Some a) = Some s_id ∧
       str_at (<[x := blk]> (heap s')) (Some b) = Some s_type).
Proof.
  intros Hgrant Hid Hty.
  destruct (create_concept_run id type s s_id s_type)
    as (c & a & b & s' & Hrun & Hc & Ha & Hb & Hfc & Hfa & Hfb & Hab & Hac & Hbc
        & Hframe & _); [done..|].
  exists c, a, b, s'.
  assert (∀ p str x, str_at (heap s) p = Some str → heap s !! x = None → Some x ≠ p)
    as Hne.
  { intros p str x Hp Hx <-. unfold str_at in Hp. simpl in Hp. by rewrite Hx in Hp. }
  split_and!; try done; eauto using str_at_Some.
  - by apply str_at_Some.
  - by apply str_at_Some.
  - intros x blk [old Hx]. unfold str_at. simpl.
    rewrite !lookup_insert_ne by congruence. by rewrite Hc, Ha, Hb.
Qed.

Lemma create_concept_copies_witness :
  ∃ c a b s',
    create_concept (Some lit_john) (Some lit_Person) boot = Ret (Some c) s' ∧
    heap s' !! c = Some (BConcept (mkConcept (Some a) (Some b) NULL 0 0)) ∧
    str_at (heap s') (Some a) = Some "john" ∧
    str_at (heap s') (Some b) = Some "Person" ∧
    heap boot !! c = None ∧ heap boot !! a = None ∧ heap boot !! b = None ∧ a ≠ b ∧
    Some a ≠ Some lit_john ∧ Some a ≠ Some lit_Person ∧
    Some b ≠ Some lit_john ∧ Some b ≠ Some lit_Person ∧
    (∀ x blk, heap boot !! x = Some blk → heap s' !! x = Some blk) ∧
    (∀ x blk, is_Some (heap boot !! x) →
       <[x := blk]> (heap s') !! c =
         Some (BConcept (mkConcept (Some a) (Some b) NULL 0 0)) ∧
       str_at (<[x := blk]> (heap s')) (Some a) = Some "john" ∧
       str_at (<[x := blk]> (heap s')) (Some b) = Some "Person").
Proof.
  apply (create_concept_copies (Some lit_john) (Some lit_Person) boot).
  - exact generous_granting.
  - reflexivity.
  - reflexivity.
Defined.

(** ** C5 *)

(** C5.  Teardown is shallow.  When [free_concept] returns, the heap is the
    old heap without the blocks the concept owned (its id and type buffers,
    the name buffers of its committed slots, its slot array) and without
    its record; every other block is as before, and nothing is written to
    the streams: no target pointer is followed.  So a concept whose
    footprint (record, id and type buffers, slot array, slot names,
    targets and targets' ids) has none of the released blocks is unchanged
    and prints the same text as before the teardown.  In a store with
    exclusive ownership, which teardown keeps, these are the concepts
    other than the torn-down one, the targets of its slots among them:
    each keeps its record and the blocks it owns, and prints the same text
    as before, given that the caller has left it no slot with the
    torn-down concept as target (the caller's duty in sections 3 and 5 of
    the specification). *)
Theorem free_concept_shallow (c : loc) (s s' : state) :
  free_concept (Some c) s = Ret tt s' →
  (∀ x, heap s' !! x =
        if decide (x ∈ released (heap s) c) then None else heap s !! x) ∧
  stdout s' = stdout s ∧ stderr s' = stderr s ∧
  (∀ t, Forall (λ x, x ∉ released (heap s) c) (footprint (heap s) t) →
     (∀ x, x ∈ footprint (heap s) t → heap s' !! x = heap s !! x) ∧
     ∀ text, render (heap s) t = Some text →
       print_concept (Some t) s' =
         Ret tt (mkState (heap s') (stdout s' +:+ text) (stderr s'))) ∧
  (wf_store (heap s) →
     wf_store (heap s') ∧
     ∀ t rt, t ≠ c → heap s !! t = Some (BConcept rt) →
       heap s' !! t = Some (BConcept rt) ∧
       (∀ y, y ∈ owned (heap s) t → heap s' !! y = heap s !! y) ∧
       ∀ text, render (heap s) t = Some text → avoids (heap s) t c →
         print_concept (Some t) s' =
           Ret tt (mkState (heap s') (stdout s' +:+ text) (stderr s'))).
Proof.
  intros Hrun. pose proof (free_concept_Ret _ _ _ _ Hrun) as (_ & Ho & He).
  pose proof (free_concept_lookup _ _ _ _ Hrun) as [[rc Hc] Hlook].
  assert (∀ t, Forall (λ x, x ∉ released (heap s) c) (footprint (heap s) t) →
     (∀ x, x ∈ footprint (heap s) t → heap s' !! x = heap s !! x) ∧
     ∀ text, render (heap s) t = Some text →
       print_concept (Some t) s' =
         Ret tt (mkState (heap s') (stdout s' +:+ text) (stderr s'))) as Hfoot.
  { intros t Hsep. rewrite Forall_forall in Hsep.
    assert (∀ x, x ∈ footprint (heap s) t → heap s' !! x = heap s !! x) as Hsame.
    { intros x Hx. rewrite Hlook. by rewrite decide_False by auto. }
    split; [done|]. intros text Hr. apply print_concept_render.
    by rewrite (render_agree (heap s) (heap s') t Hsame). }
  split_and!; [done..|]. intros Hwf. split; [by eapply wf_free_concept|].
  intros t rt Htc Ht. pose proof Hwf as [_ Hex].
  assert (∀ y, y ∈ owned (heap s) t → y ∉ released (heap s) c) as Hown.
  { intros y Hy. unfold released.
    rewrite elem_of_app, list_elem_of_singleton. intros [Hyc| ->].
    - by apply Htc, (Hex t c y).
    - by apply (owned_not_concept _ _ _ rc Hwf) in Hy. }
  split_and!.
  - rewrite Hlook, decide_False; [done|]. unfold released.
    rewrite elem_of_app, list_elem_of_singleton. intros [Hyc|?]; [|done].
    by apply (owned_not_concept _ _ _ rt Hwf) in Hyc.
  - intros y Hy. rewrite Hlook, decide_False; auto.
  - intros text Hr Hav. apply (Hfoot t); [|done].
    by apply (footprint_separate _ _ rc _ text).
Qed.

Lemma free_concept_shallow_witness :
  (∀ x, heap torn !! x =
        if decide (x ∈ released (heap linked) john) then None
        else heap linked !! x) ∧
  wf_store (heap torn) ∧
  print_concept (Some book) torn =
  Ret tt (mkState (heap torn)
            (stdout torn +:+
             ("ID: book" +:+ nl +:+ "Types: Object" +:+ nl +:+
              "Slots (# of slots = 0):" +:+ nl))
            (stderr torn)).
Proof.
  destruct (free_concept_shallow john linked torn) as (Hheap & _ & _ & _ & Hwf).
  - vm_compute. reflexivity.
  - split; [exact Hheap|].
    destruct Hwf as [Hwf' Hother].
    + apply (wf_add_slot (Some john) (Some lit_owns) (Some book) two_concepts tt);
        [vm_compute; reflexivity|].
      apply (wf_create_concept (Some lit_book) (Some lit_Object)
               (after (create_concept (Some lit_john) (Some lit_Person)) boot)
               (Some book)); [vm_compute; reflexivity|].
      apply (wf_create_concept (Some lit_john) (Some lit_Person) boot (Some john));
        [vm_compute; reflexivity|].
      apply wf_store_concept_free, (bool_decide_unpack _). vm_compute. exact I.
    + split; [exact Hwf'|].
      destruct (Hother book (mkConcept (Some 10%positive) (Some 11%positive) NULL 0 0))
        as (_ & _ & Hprint).
      * vm_compute. discriminate.
      * vm_compute. reflexivity.
      * apply Hprint; [vm_compute; reflexivity|].
        intros r L Hr HL. vm_compute in Hr. injection Hr as <-.
        vm_compute in HL. injection HL as <-. constructor.
Defined.

(** Where the caller has not kept to that.  When john is his own target,
    tearing john down releases that target: its record is gone and it can
    no longer be printed.  When john and book are each other's target,
    tearing john down leaves book's record as it was, yet book printed
    before and does not print after: its slot still points to john. *)
Example free_concept_releases_referenced :
  (concept_at (heap self_linked) (Some john) ≫= committed (heap self_linked)
     = Some [mkSlot (Some 13%positive) (Some john)] ∧
   free_concept (Some john) self_linked = Ret tt self_torn ∧
   heap self_torn !! john = None ∧
   print_concept (Some john) self_torn = Undef) ∧
  (concept_at (heap cyclic) (Some john) ≫= committed (heap cyclic)
     = Some [mkSlot (Some 13%positive) (Some book)] ∧
   concept_at (heap cyclic) (Some book) ≫= committed (heap cyclic)
     = Some [mkSlot (Some 15%positive) (Some john)] ∧
   render (heap cyclic) book = Some book_text ∧
   free_concept (Some john) cyclic = Ret tt cyclic_torn ∧
   heap cyclic_torn !! book = heap cyclic !! book ∧
   print_concept (Some book) cyclic_torn = Undef).
Proof. split_and!; vm_compute; reflexivity. Qed.

(** ** C6 *)

(** C6.  [add_slot] called with an absent concept, an absent name or an
    absent target returns at once, in the very state it was called in:
    heap (ids, types, counts, capacities, slots), [stdout] and [stderr] are
    untouched and the process goes on.  Each of the three positions is
    enough on its own, whatever the other two arguments are. *)
Theorem add_slot_absent_noop `{Allocator} (concept slot_name target : ptr) (s : state) :
  add_slot NULL slot_name target s = Ret tt s ∧
  add_slot concept NULL target s = Ret tt s ∧
  add_slot concept slot_name NULL s = Ret tt s.
Proof.
  unfold add_slot. split_and!.
  - done.
  - by destruct concept.
  - by destruct concept, slot_name.
Qed.

(** ** C7 *)

(** C7.  In a heap where every concept has [0 <= count <= capacity], every
    operation that returns leaves such a heap.  [create_concept] adds one
    concept, with count and capacity 0, and leaves the others alone.
    [add_slot] never lowers a capacity: each concept's capacity is as
    before, or the concept is the one appended to, its count was equal to
    its capacity, and the capacity is now [max(2, capacity * 2)].
    [print_concept] leaves the heap as it is.  [free_concept] only removes
    blocks: every concept that is left is as before. *)
Theorem count_within_capacity `{Allocator} (s : state) :
  bounded_heap (heap s) →
  (∀ id type p s', create_concept id type s = Ret p s' →
     bounded_heap (heap s') ∧
     (∃ c r, p = Some c ∧ heap s !! c = None ∧ heap s' !! c = Some (BConcept r) ∧
             slot_count r = 0 ∧ slot_capacity r = 0) ∧
     (∀ x rx, heap s !! x = Some (BConcept rx) → heap s' !! x = Some (BConcept rx))) ∧
  (∀ concept slot_name target s', add_slot concept slot_name target s = Ret tt s' →
     bounded_heap (heap s') ∧
     ∀ x r, heap s !! x = Some (BConcept r) →
       ∃ r', heap s' !! x = Some (BConcept r') ∧
         slot_capacity r ≤ slot_capacity r' ∧
         (slot_capacity r' = slot_capacity r ∨
          (concept = Some x ∧ slot_count r = slot_capacity r ∧
           slot_capacity r' = Z.max 2 (slot_capacity r * 2)))) ∧
  (∀ concept s', print_concept concept s = Ret tt s' → heap s' = heap s) ∧
  (∀ concept s', free_concept concept s = Ret tt s' →
     bounded_heap (heap s') ∧
     ∀ x r, heap s' !! x = Some (BConcept r) → heap s !! x = Some (BConcept r)).
Proof.
  intros Hb0.
  assert (∀ x r, heap s !! x = Some (BConcept r) →
                 0 ≤ slot_count r ≤ slot_capacity r) as Hb.
  { intros x r Hx. apply (Hb0 x _ Hx). }
  assert (∀ h, (∀ x r, h !! x = Some (BConcept r) →
                       0 ≤ slot_count r ≤ slot_capacity r) → bounded_heap h) as Hintro.
  { intros h Hh x [] Hx; simpl; eauto. }
  split_and!.
  - intros id type p s' (i & t & Hid & Hty & _ & _ & _ & -> & ->)%create_concept_Ret.
    cbv zeta in *. simpl.
    pose proof (alloc_pick_fresh (heap s)) as Hc.
    remember (alloc_pick (heap s)) as c eqn:Hce.
    pose proof (alloc_pick_fresh (<[c := BUninit]> (heap s))) as Ha.
    remember (alloc_pick (<[c := BUninit]> (heap s))) as a eqn:Hae.
    pose proof (alloc_pick_fresh (<[a := BStr i]> (<[c := BUninit]> (heap s)))) as Hfb.
    remember (alloc_pick (<[a := BStr i]> (<[c := BUninit]> (heap s)))) as b eqn:Hbe.
    apply lookup_insert_None in Ha as [Ha Hac].
    apply lookup_insert_None in Hfb as [Hfb Hba].
    apply lookup_insert_None in Hfb as [Hfb Hbc].
    clear Hce Hae Hbe Hid Hty.
    assert (∀ x rx, x ≠ c →
      <[c := BConcept (mkConcept (Some a) (Some b) NULL 0 0)]>
        (<[b := BStr t]> (<[a := BStr i]> (<[c := BUninit]> (heap s)))) !! x
        = Some (BConcept rx) → heap s !! x = Some (BConcept rx)) as Hold.
    { intros x rx Hxc. rewrite lookup_insert_ne by done.
      destruct (decide (b = x)) as [->|]; [by rewrite lookup_insert_eq|].
      rewrite lookup_insert_ne by done.
      destruct (decide (a = x)) as [->|]; [by rewrite lookup_insert_eq|].
      by rewrite !lookup_insert_ne by done. }
    split_and!.
    + apply Hintro. intros x rx. destruct (decide (x = c)) as [->|Hxc].
      * rewrite lookup_insert_eq. intros [= <-]. simpl. lia.
      * intros Hx%Hold; [|done]. by eapply Hb.
    + eexists c, _. rewrite lookup_insert_eq. by split_and!.
    + intros x rx Hx. by rewrite !lookup_insert_ne by congruence.
  - intros concept slot_name target s' Hrun.
    destruct concept as [c|], slot_name as [n|], target as [t|];
      try (injection Hrun as <-; split; [done|]; intros x r Hx; exists r;
           split_and!; [done|lia|by left]).
    destruct (add_slot_inv _ _ _ _ _ _ Hrun)
      as (r & str & q & arr & old & new & Hr & Hn & Hold & Hc' & Harr' & Hi & Hmax
          & Hnew & Hsame & Hcapn & Hq & Hframe & Hback & Hout & Herr & _).
    pose proof (Hb _ _ Hr) as Hbr.
    destruct (next_capacity_max _ _ Hbr) as [Hnext Hiff].
    assert (∀ x rx, x ≠ c → heap s' !! x = Some (BConcept rx) →
                    heap s !! x = Some (BConcept rx)) as Hother.
    { intros x rx Hxc Hx. apply Hback; [done|done|congruence|].
      intros ->. destruct Hq as [[? _]|(a & ? & Ha & _)]; simplify_eq. }
    split.
    + apply Hintro. intros x rx Hx. destruct (decide (x = c)) as [->|Hxc].
      * rewrite Hc' in Hx. injection Hx as <-. simpl. rewrite Hnext.
        case_decide; lia.
      * eapply Hb. by apply Hother.
    + intros x rx Hx. destruct (decide (x = c)) as [->|Hxc].
      * simplify_eq. eexists. split; [done|]. simpl. rewrite Hnext.
        case_decide; [|split; [lia|by left]].
        split; [lia|]. right. by split_and!.
      * exists rx. split_and!; [|lia|by left].
        apply Hframe; [done..|]. intros Hs. rewrite Hs in Hold. simpl in Hold.
        congruence.
  - intros concept s' Hrun. pose proof (observer_print_concept concept s) as Ho.
    rewrite Hrun in Ho. by destruct Ho.
  - intros concept s' Hrun.
    destruct (releaser_free_concept concept _ _ _ Hrun) as (Hsub & _).
    assert (∀ x r, heap s' !! x = Some (BConcept r) → heap s !! x = Some (BConcept r))
      as Hold.
    { intros x r Hx. by eapply lookup_weaken. }
    split; [|done]. apply Hintro. intros x r Hx. eapply Hb. eauto.
Qed.

Lemma count_within_capacity_witness :
  bounded_heap (heap (after (create_concept (Some lit_john) (Some lit_Person)) two_concepts)) ∧
  bounded_heap (heap linked) ∧
  heap (after (print_concept (Some john)) linked) = heap linked ∧
  bounded_heap (heap torn).
Proof.
  assert (bounded_heap (heap two_concepts)) as H2.
  { apply (bool_decide_unpack _). vm_compute. exact I. }
  assert (bounded_heap (heap linked)) as H3.
  { apply (bool_decide_unpack _). vm_compute. exact I. }
  destruct (count_within_capacity two_concepts H2) as (Hcreate & Hadd & _ & _).
  destruct (count_within_capacity linked H3) as (_ & _ & Hprint & Hfree).
  split_and!.
  - apply (Hcreate (Some lit_john) (Some lit_Person) (Some 12%positive)).
    vm_compute. reflexivity.
  - apply (Hadd (Some john) (Some lit_owns) (Some book)). vm_compute. reflexivity.
  - apply (Hprint (Some john)). vm_compute. reflexivity.
  - apply (Hfree (Some john)). vm_compute. reflexivity.
Defined.

(** ** C8 *)

(** C8.  [print_concept(NULL)] and [free_concept(NULL)] return at once in
    the state they were called in: no output, no error, nothing released. *)
Theorem absent_concept_noop (s : state) :
  print_concept NULL s = Ret tt s ∧ free_concept NULL s = Ret tt s.
Proof. split; reflexivity. Qed.

(** ** C9 *)

(** C9.  [print_concept] only looks.  It never ends the process, and
    whenever it returns the entire heap is as before (so the concept's id,
    type, count, capacity, slot names and targets, and every target
    concept it read) and so is [stderr]; [stdout] has only grown.  And it
    does return on every concept that has a text: then the text is what
    [stdout] grew by. *)
Theorem print_concept_pure_observer (concept : ptr) (s : state) :
  match print_concept concept s with
  | Ret _ s' =>
      heap s' = heap s ∧ stderr s' = stderr s ∧
      ∃ text, stdout s' = stdout s +:+ text
  | Exit _ _ => False
  | Undef => True
  end ∧
  ∀ c text, concept = Some c → render (heap s) c = Some text →
    print_concept concept s = Ret tt (mkState (heap s) (stdout s +:+ text) (stderr s)).
Proof.
  split; [apply observer_print_concept|].
  intros c text -> Hr. by apply print_concept_render.
Qed.

Lemma print_concept_pure_observer_witness :
  print_concept (Some john) linked =
  Ret tt (mkState (heap linked) (stdout linked +:+ demo_text) (stderr linked)).
Proof.
  destruct (print_concept_pure_observer (Some john) linked) as [_ Hprint].
  apply (Hprint john demo_text).
  - reflexivity.
  - vm_compute. reflexivity.
Defined.

(** ** C10 *)

(** C10.  Whenever [add_slot(concept, name, target)] returns from a call
    with all three arguments present, it has written to the source record
    and to the source's slot array only.  Every other concept record is as
    before, the target's included when the target is another concept; so
    is every string (all ids, type labels and slot names) and every slot
    array but the source's.  In the source, [id] and [types] are the same
    pointers as before and every slot that could be read below the old
    count reads the same after; the count is one more. *)
Theorem add_slot_frame `{Allocator} (c n t : loc) (s s' : state) :
  add_slot (Some c) (Some n) (Some t) s = Ret tt s' →
  ∃ r r',
    heap s !! c = Some (BConcept r) ∧ heap s' !! c = Some (BConcept r') ∧
    id r' = id r ∧ types r' = types r ∧ slot_count r' = slot_count r + 1 ∧
    (∀ x rx, x ≠ c → heap s !! x = Some (BConcept rx) →
             heap s' !! x = Some (BConcept rx)) ∧
    (t ≠ c → concept_at (heap s') (Some t) = concept_at (heap s) (Some t)) ∧
    (∀ x str, heap s !! x = Some (BStr str) → heap s' !! x = Some (BStr str)) ∧
    (∀ x cells, slots r ≠ Some x → heap s !! x = Some (BSlots cells) →
                heap s' !! x = Some (BSlots cells)) ∧
    (∀ i sl, Z.of_nat i < slot_count r → slot_readable (heap s) r i sl →
             slot_readable (heap s') r' i sl) ∧
    stdout s' = stdout s ∧ stderr s' = stderr s.
Proof.
  intros Hrun.
  destruct (add_slot_inv _ _ _ _ _ _ Hrun)
    as (r & str & q & arr & old & new & Hr & Hn & Hold & Hc' & Harr' & Hi & Hmax
        & Hnew & Hsame & Hcapn & Hq & Hframe & Hback & Hout & Herr & _).
  assert (∀ x blk, heap s !! x = Some blk → (∀ cells, blk ≠ BSlots cells) → x ≠ c →
                   heap s' !! x = Some blk) as Hkeep.
  { intros x blk Hx Hb Hxc. apply Hframe; [done..|]. intros Hs.
    rewrite Hs in Hold. simpl in Hold. rewrite Hx in Hold. injection Hold as ->.
    by eapply Hb. }
  eexists r, _. split_and!; try done; simpl; try done.
  - intros x rx Hxc Hx. by apply Hkeep.
  - intros Htc. unfold concept_at. simpl.
    destruct (heap s !! t) as [blk|] eqn:Ht.
    + destruct (decide (slots r = Some t)) as [Hs|Hs].
      * rewrite Hs in Hold. simpl in Hold. rewrite Ht in Hold. injection Hold as ->.
        by destruct (heap s' !! t) as [[]|] eqn:Ht'; try done;
          destruct (decide (t = arr)) as [->|?]; simplify_eq;
          destruct (decide (q = Some t)) as [->|?];
          try (destruct Hq as [[? _]|(a & ? & Ha & ? & ? & _)]; simplify_eq);
          try (specialize (Hback _ _ Ht' Htc ltac:(done) ltac:(done)); simplify_eq).
      * by rewrite (Hframe _ _ Ht Htc Hs).
    + destruct (heap s' !! t) as [blk|] eqn:Ht'; [|done].
      destruct blk; try done.
      destruct (decide (t = arr)) as [->|?]; [congruence|].
      destruct (decide (q = Some t)) as [->|?].
      * destruct Hq as [[? _]|(a & ? & Ha & ? & ? & _)]; simplify_eq.
      * specialize (Hback _ _ Ht' Htc ltac:(done) ltac:(done)). congruence.
  - intros x str' Hx. apply Hkeep; [done|done|congruence].
  - intros x cells Hs Hx. apply Hframe; [done| |done]. congruence.
  - intros i sl Hlt (cells & Hcells & Hsl). exists (<[Z.to_nat (slot_count r) := Some (mkSlot q (Some t))]> new).
    simpl. split; [done|]. rewrite list_lookup_insert_ne by lia.
    assert (old = cells) as ->.
    { destruct (slots r); simpl in *; [congruence|done]. }
    case_decide; subst new; [done|].
    rewrite length_resize in Hi.
    rewrite lookup_resize; [done|lia|]. by apply lookup_lt_Some in Hsl.
Qed.

Lemma add_slot_frame_witness :
  ∃ r r',
    heap two_concepts !! john = Some (BConcept r) ∧
    heap linked !! john = Some (BConcept r') ∧
    id r' = id r ∧ types r' = types r ∧ slot_count r' = slot_count r + 1 ∧
    (∀ x rx, x ≠ john → heap two_concepts !! x = Some (BConcept rx) →
             heap linked !! x = Some (BConcept rx)) ∧
    (book ≠ john →
     concept_at (heap linked) (Some book) = concept_at (heap two_concepts) (Some book)) ∧
    (∀ x str, heap two_concepts !! x = Some (BStr str) →
              heap linked !! x = Some (BStr str)) ∧
    (∀ x cells, slots r ≠ Some x → heap two_concepts !! x = Some (BSlots cells) →
                heap linked !! x = Some (BSlots cells)) ∧
    (∀ i sl, Z.of_nat i < slot_count r → slot_readable (heap two_concepts) r i sl →
             slot_readable (heap linked) r' i sl) ∧
    stdout linked = stdout two_concepts ∧ stderr linked = stderr two_concepts.
Proof.
  apply (add_slot_frame john lit_owns book two_concepts linked).
  vm_compute. reflexivity.
Defined.

(** * Further properties of the four operations *)

(** ** [print_concept] returns exactly on the concepts that have a text *)

Lemma print_slot_inv c r k s u s' :
  heap s !! c = Some (BConcept r) →
  print_slot (Some c) (Z.of_nat k) s = Ret u s' →
  heap s' = heap s ∧ Z.of_nat k + 1 ≤ INT_MAX ∧
  ∃ sl text, slot_readable (heap s) r k sl ∧
    render_slot (heap s) (Z.of_nat k + 1) sl = Some text.
Proof.
  intros Hc. unfold print_slot.
  intros (i1 & s1 & ([_ Hmax] & -> & ->)%int_of_Ret & Hk)%bind_Ret.
  apply bind_Ret in Hk as (u1 & s1 & ->%printf_Ret & Hk).
  apply bind_Ret in Hk as (sl & s2 & Hsl & Hk).
  apply load_slot_Ret in Hsl as (r1 & cells & Hr1 & Hcells & _ & Hi & ->).
  simpl in Hr1, Hcells. rewrite Hc in Hr1. injection Hr1 as <-.
  rewrite Nat2Z.id in Hi.
  apply bind_Ret in Hk as (s_name & s2 & [Hname ->]%load_str_Ret & Hk).
  simpl in Hname.
  apply bind_Ret in Hk as (u2 & s2 & ->%printf_Ret & Hk).
  apply bind_Ret in Hk as (sl' & s3 & Hsl' & Hk).
  apply load_slot_Ret in Hsl' as (r2 & cells2 & Hr2 & Hcells2 & _ & Hi2 & ->).
  simpl in Hr2, Hcells2. rewrite Hc in Hr2. injection Hr2 as <-.
  rewrite Hcells in Hcells2. injection Hcells2 as <-.
  rewrite Nat2Z.id in Hi2. rewrite Hi in Hi2. injection Hi2 as <-.
  assert (str_at (heap s) (name sl) = Some s_name) as Hn by (by apply str_at_Some).
  assert (slot_readable (heap s) r k sl) as Hread by (by exists cells).
  destruct (target sl) as [t|] eqn:Ht; simpl in Hk.
  - apply bind_Ret in Hk as (sl' & s3 & Hsl' & Hk).
    apply load_slot_Ret in Hsl' as (r2 & cells2 & Hr2 & Hcells2 & _ & Hi2 & ->).
    simpl in Hr2, Hcells2. rewrite Hc in Hr2. injection Hr2 as <-.
    rewrite Hcells in Hcells2. injection Hcells2 as <-.
    rewrite Nat2Z.id in Hi2. rewrite Hi in Hi2. injection Hi2 as <-.
    apply bind_Ret in Hk as (tr & s3 & [Htr ->]%load_concept_Ret & Hk).
    apply bind_Ret in Hk as (s_tid & s3 & [Htid ->]%load_str_Ret & Hk).
    apply printf_Ret in Hk as ->. simpl in *. rewrite Ht in Htr. simpl in Htr.
    split_and!; [done|done|]. eexists sl, _. split; [done|].
    unfold render_slot, render_target, concept_at. rewrite Hn, Ht. simpl. rewrite Htr.
    by rewrite (proj2 (str_at_Some _ _ _) Htid).
  - apply printf_Ret in Hk as ->. simpl.
    split_and!; [done|done|]. eexists sl, _. split; [done|].
    unfold render_slot, render_target. rewrite Hn, Ht. reflexivity.
Qed.

Lemma print_slots_inv c r n : ∀ k s u s',
  heap s !! c = Some (BConcept r) →
  for_loop n (Z.of_nat k) (print_slot (Some c)) s = Ret u s' →
  (n ≠ 0%nat → Z.of_nat (k + n) ≤ INT_MAX) ∧
  ∃ L text, length L = n ∧
    (∀ j sl, L !! j = Some sl → slot_readable (heap s) r (k + j) sl) ∧
    render_slots (heap s) (Z.of_nat k + 1) L = Some text.
Proof.
  induction n as [|n IH]; intros k s u s' Hc; simpl.
  { intros _. split; [done|]. by exists [], EmptyString. }
  intros (u1 & s1 & Hbody & Hk)%bind_Ret.
  apply bind_Ret in Hk as (i' & s2 & (_ & -> & ->)%int_of_Ret & Hloop).
  destruct (print_slot_inv c r k s u1 s1 Hc Hbody)
    as (Hh & Hmax & sl & text & Hread & Htext).
  replace (Z.of_nat k + 1) with (Z.of_nat (S k)) in Hloop by lia.
  assert (heap s1 !! c = Some (BConcept r)) as Hc1 by (by rewrite Hh).
  destruct (IH (S k) s1 u s' Hc1 Hloop) as (Hmax' & L & rest & Hlen & Hall & Hrest).
  rewrite Hh in Hall, Hrest. split.
  { intros _. destruct n; [lia|]. specialize (Hmax' ltac:(done)). lia. }
  exists (sl :: L), (text +:+ rest). split_and!.
  - simpl. by rewrite Hlen.
  - intros [|j] sl' Hj; simpl in Hj.
    + injection Hj as <-. by rewrite Nat.add_0_r.
    + replace (k + S j)%nat with (S k + j)%nat by lia. by apply Hall.
  - simpl. rewrite Htext.
    replace (Z.of_nat k + 1 + 1) with (Z.of_nat (S k) + 1) by lia.
    by rewrite Hrest.
Qed.

Lemma readable_committed h r L :
  length L = Z.to_nat (slot_count r) →
  (∀ j sl, L !! j = Some sl → slot_readable h r j sl) →
  committed h r = Some L.
Proof.
  intros Hlen Hall. unfold committed.
  destruct (Z.to_nat (slot_count r)) as [|n] eqn:Hn.
  { by destruct L. }
  destruct (lookup_lt_is_Some_2 L n) as [sl Hsl]; [lia|].
  destruct (Hall n sl Hsl) as (cells & Hcells & Hcn).
  unfold cells_at. rewrite Hcells.
  apply lookup_lt_Some in Hcn. rewrite decide_True by lia.
  apply written_Some. apply list_eq. intros j.
  rewrite list_lookup_fmap.
  destruct (decide (j < S n)%nat) as [Hj|Hj].
  - rewrite lookup_take_lt by done.
    destruct (lookup_lt_is_Some_2 L j) as [slj Hslj]; [lia|].
    destruct (Hall j slj Hslj) as (cells' & Hcells' & Hcj).
    rewrite Hcells in Hcells'. injection Hcells' as <-.
    by rewrite Hcj, Hslj.
  - rewrite lookup_take_ge by lia.
    by rewrite (lookup_ge_None_2 L j) by lia.
Qed.

Lemma print_concept_Ret_render c s u s' :
  print_concept (Some c) s = Ret u s' → is_Some (render (heap s) c).
Proof.
  rewrite print_concept_unfold.
  intros (r & s0 & [Hr ->]%load_concept_Ret & Hk)%bind_Ret. simpl in Hr.
  apply bind_Ret in Hk as (s_id & s0 & [Hid ->]%load_str_Ret & Hk).
  apply bind_Ret in Hk as (u1 & s1 & ->%printf_Ret & Hk).
  apply bind_Ret in Hk as (r1 & s0 & [Hr1 ->]%load_concept_Ret & Hk).
  simpl in Hr1. rewrite Hr in Hr1. injection Hr1 as <-.
  apply bind_Ret in Hk as (s_ty & s0 & [Hty ->]%load_str_Ret & Hk).
  apply bind_Ret in Hk as (u2 & s2 & ->%printf_Ret & Hk).
  apply bind_Ret in Hk as (r1 & s0 & [Hr1 ->]%load_concept_Ret & Hk).
  simpl in Hr1. rewrite Hr in Hr1. injection Hr1 as <-.
  apply bind_Ret in Hk as (u3 & s3 & ->%printf_Ret & Hk).
  apply bind_Ret in Hk as (r1 & s0 & [Hr1 ->]%load_concept_Ret & Hk).
  simpl in Hr1. rewrite Hr in Hr1. injection Hr1 as <-.
  edestruct (print_slots_inv c r (Z.to_nat (slot_count r)) 0%nat)
    as (Hmax & L & body & Hlen & Hall & Hbody); [|exact Hk|]; [exact Hr|].
  simpl in *. change (Z.of_nat 0 + 1) with 1 in Hbody.
  unfold render. rewrite Hr.
  rewrite (proj2 (str_at_Some _ _ _) Hid), (proj2 (str_at_Some _ _ _) Hty).
  rewrite (readable_committed _ _ L) by done.
  rewrite decide_True.
  - rewrite Hbody. eauto.
  - destruct (Z.to_nat (slot_count r)) eqn:Hn; [unfold INT_MAX; lia|].
    specialize (Hmax ltac:(done)). lia.
Qed.

Lemma print_concept_run c s :
  print_concept (Some c) s =
  match render (heap s) c with
  | Some text => Ret tt (mkState (heap s) (stdout s +:+ text) (stderr s))
  | None => Undef
  end.
Proof.
  destruct (render (heap s) c) as [text|] eqn:Hr.
  { by apply print_concept_render. }
  pose proof (observer_print_concept (Some c) s) as Hobs.
  destruct (print_concept (Some c) s) as [u s'| |] eqn:Hrun; [|done..].
  apply print_concept_Ret_render in Hrun as [text Ht]. congruence.
Qed.

(** X1.  [print_concept] on a present pointer is the rendering of the heap:
    where the concept has a text it returns, with that text appended to
    [stdout] and nothing else changed; where it has none (no record, an id,
    type or slot name that is no string, a slot that cannot be read, a
    target that is no concept) its behaviour is undefined.  It never exits. *)
Theorem print_concept_exact (c : loc) (s : state) :
  print_concept (Some c) s =
  match render (heap s) c with
  | Some text => Ret tt (mkState (heap s) (stdout s +:+ text) (stderr s))
  | None => Undef
  end.
Proof. apply print_concept_run. Qed.

(** ** [create_concept] under an allocator that may refuse *)

Lemma free_run a s :
  is_Some (heap s !! a) → free (Some a) s = Ret tt (set_heap (delete a) s).
Proof. intros [b Hb]. unfold free, bind, load. by rewrite Hb. Qed.

Lemma create_concept_cases `{Allocator} id type s s_id s_type :
  str_at (heap s) id = Some s_id → str_at (heap s) type = Some s_type →
  let c := alloc_pick (heap s) in
  let h1 := <[c := BUninit]> (heap s) in
  let a := alloc_pick h1 in
  let h2 := <[a := BStr s_id]> h1 in
  let b := alloc_pick h2 in
  create_concept id type s =
  if alloc_grant (heap s) BUninit then
    if alloc_grant h1 (BStr s_id) && alloc_grant h2 (BStr s_type) then
      Ret (Some c)
        (set_heap (λ _, <[c := BConcept (mkConcept (Some a) (Some b) NULL 0 0)]>
                          (<[b := BStr s_type]> h2)) s)
    else Exit 1 (mkState (heap s) (stdout s) (stderr s +:+ msg_strings))
  else Exit 1 (mkState (heap s) (stdout s) (stderr s +:+ msg_concept)).
Proof.
  intros Hid Hty c h1 a h2 b.
  pose proof (alloc_pick_fresh (heap s)) as Hc. fold c in Hc.
  pose proof (alloc_pick_fresh h1) as Ha. fold a in Ha.
  assert (a ≠ c) as Hac.
  { intros Heq. unfold h1 in Ha. by rewrite Heq, lookup_insert_eq in Ha. }
  assert (str_at h1 id = Some s_id ∧ str_at h1 type = Some s_type) as [Hid1 Hty1].
  { split; by apply str_at_insert_fresh. }
  assert (str_at h2 type = Some s_type) as Hty2 by (by apply str_at_insert_fresh).
  destruct (alloc_grant (heap s) BUninit) eqn:Hg.
  2:{ unfold create_concept. erewrite bind_run by (apply malloc_Ret; by left).
      reflexivity. }
  unfold create_concept.
  erewrite bind_run by (apply malloc_Ret; right; done). simpl.
  destruct (alloc_grant h1 (BStr s_id)) eqn:Hg1; simpl.
  2:{ (* the copy of the id is refused *)
      erewrite bind_run; last first.
      { apply strdup_Ret. exists s_id. split; [by apply str_at_Some|]. by left. }
      destruct (alloc_grant h1 (BStr s_type)) eqn:Hg2.
      - (* and the copy of the type is granted *)
        erewrite bind_run; last first.
        { apply strdup_Ret. exists s_type. split; [by apply str_at_Some|]. by right. }
        cbn [is_null orb].
        erewrite bind_run by (apply (fprintf_stderr_Ret _ _ tt); reflexivity).
        erewrite bind_run by reflexivity.
        erewrite bind_run by (apply free_run; cbn; rewrite lookup_insert_eq; eauto).
        erewrite bind_run; last first.
        { apply free_run. cbn. rewrite lookup_delete_ne by done.
          rewrite lookup_insert_ne, lookup_insert_eq by done. eauto. }
        unfold exit, set_heap. cbn. f_equal. f_equal. fold c h1 a.
        rewrite delete_insert_id by done. unfold h1. by rewrite delete_insert_id.
      - (* and so is the copy of the type *)
        erewrite bind_run; last first.
        { apply strdup_Ret. exists s_type. split; [by apply str_at_Some|]. by left. }
        cbn [is_null orb].
        erewrite bind_run by (apply (fprintf_stderr_Ret _ _ tt); reflexivity).
        erewrite bind_run by reflexivity. erewrite bind_run by reflexivity.
        erewrite bind_run by (apply free_run; cbn; rewrite lookup_insert_eq; eauto).
        unfold exit, set_heap. cbn. fold c. by rewrite delete_insert_id. }
  erewrite bind_run; last first.
  { apply strdup_Ret. exists s_id. split; [by apply str_at_Some|]. by right. }
  fold c h1 a.
  destruct (alloc_grant h2 (BStr s_type)) eqn:Hg2; simpl.
  2:{ erewrite bind_run; last first.
      { apply strdup_Ret. exists s_type. split; [by apply str_at_Some|]. by left. }
      cbn [is_null orb].
      erewrite bind_run by (apply (fprintf_stderr_Ret _ _ tt); reflexivity).
      erewrite bind_run by (apply free_run; cbn; rewrite lookup_insert_eq; eauto).
      erewrite bind_run by reflexivity.
      erewrite bind_run; last first.
      { apply free_run. cbn. rewrite lookup_delete_ne by done.
        rewrite lookup_insert_ne, lookup_insert_eq by done. eauto. }
      unfold exit, set_heap. cbn. f_equal. f_equal. fold c h1 a.
      rewrite delete_insert_id by done. unfold h1. by rewrite delete_insert_id. }
  erewrite bind_run; last first.
  { apply strdup_Ret. exists s_type. split; [by apply str_at_Some|]. by right. }
  simpl. fold h1 h2 b.
  erewrite bind_run; last first.
  { apply (store_Ret _ _ _ tt). exists c. split; [done|]. split; [|done]. simpl.
    pose proof (alloc_pick_fresh h2) as Hb. fold b in Hb.
    assert (b ≠ c) as Hbc.
    { intros Heq. unfold h2, h1 in Hb.
      rewrite Heq, lookup_insert_ne, lookup_insert_eq in Hb; done. }
    rewrite (lookup_insert_ne _ b c), (lookup_insert_ne _ a c) by done.
    rewrite lookup_insert_eq. eauto. }
  unfold ret, set_heap. simpl. fold h1 h2 b. reflexivity.
Qed.

(** X2.  On two C strings [create_concept] has no undefined behaviour,
    whatever the allocator does.  It never returns [NULL]: it returns a
    pointer to a record at an address that was unused, with both streams
    as they were, or it exits.  It exits exactly when one of its three
    requests is refused, with status 1, after writing to [stderr] the
    diagnostic of the request that failed (the record, or one of the two
    strings: the copy of the id, or the copy of the type, also when the
    copy of the id was refused and the copy of the type granted); at that
    point the heap is again the heap of the call: what had been allocated
    was released, and [stdout] is untouched. *)
Theorem create_concept_outcome `{Allocator} (id type : ptr) (s : state)
    (s_id s_type : string) :
  str_at (heap s) id = Some s_id → str_at (heap s) type = Some s_type →
  match create_concept id type s with
  | Ret p s' =>
      ∃ c a b, p = Some c ∧ heap s !! c = None ∧
        heap s' !! c = Some (BConcept (mkConcept (Some a) (Some b) NULL 0 0)) ∧
        stdout s' = stdout s ∧ stderr s' = stderr s
  | Exit code s' =>
      code = 1 ∧ heap s' = heap s ∧ stdout s' = stdout s ∧
      stderr s' = stderr s +:+
        (if alloc_grant (heap s) BUninit then msg_strings else msg_concept)
  | Undef => False
  end.
Proof.
  intros Hid Hty. rewrite (create_concept_cases id type s s_id s_type) by done.
  pose proof (alloc_pick_fresh (heap s)) as Hc.
  destruct (alloc_grant (heap s) BUninit); [|done].
  destruct (_ && _); [|done].
  eexists _, _, _. simpl. rewrite lookup_insert_eq. done.
Qed.

Lemma create_concept_outcome_witness :
  match @create_concept (picky (long_string 5)) (Some lit_john) (Some lit_Person) boot
  with
  | Ret p s' =>
      ∃ c a b, p = Some c ∧ heap boot !! c = None ∧
        heap s' !! c = Some (BConcept (mkConcept (Some a) (Some b) NULL 0 0)) ∧
        stdout s' = stdout boot ∧ stderr s' = stderr boot
  | Exit code s' =>
      code = 1 ∧ heap s' = heap boot ∧ stdout s' = stdout boot ∧
      stderr s' = stderr boot +:+
        (if @alloc_grant (picky (long_string 5)) (heap boot) BUninit
         then msg_strings else msg_concept)
  | Undef => False
  end.
Proof.
  apply (@create_concept_outcome (picky (long_string 5))
           (Some lit_john) (Some lit_Person) boot "john" "Person"); reflexivity.
Defined.

(** The copy of the id refused and the copy of the type granted: the type
    buffer and the record are released again before the exit. *)
Example create_concept_id_refused :
  @strdup (picky (long_string 5)) (Some lit_john)
    (after (@malloc (picky (long_string 5)) BUninit) boot) =
    Ret NULL (after (@malloc (picky (long_string 5)) BUninit) boot) ∧
  (∃ b s', @strdup (picky (long_string 5)) (Some lit_Person)
             (after (@malloc (picky (long_string 5)) BUninit) boot) =
           Ret (Some b) s') ∧
  @create_concept (picky (long_string 5)) (Some lit_john) (Some lit_Person) boot =
    Exit 1 (mkState (heap boot) (stdout boot) (stderr boot +:+ msg_strings)).
Proof. split_and!; [|eexists _, _|]; vm_compute; reflexivity. Qed.

(** ** [add_slot] under an allocator that may refuse *)

Lemma grow_slots_refused `{Allocator} c s r L :
  live (heap s) c r L →
  slot_capacity r ≤ slot_count r →
  Z.of_nat (length L) < 2 ^ 30 →
  alloc_grant (heap s) (grown_array (heap s) r) = false →
  grow_slots (Some c) s =
  Exit 1 (mkState (heap s) (stdout s) (stderr s +:+ msg_slots)).
Proof.
  intros Hlive Hfull Hlen Hno.
  destruct Hlive as (Hr & Hcount & Hcapmax & cells & Harr & Hcap & Htake).
  unfold grow_slots. erewrite bind_run by (by apply load_concept_run).
  destruct (Z.leb_spec (slot_capacity r) (slot_count r)); [|lia].
  erewrite bind_run with (a := new_capacity_of (slot_capacity r)) (s1 := s); last first.
  { unfold new_capacity_of. destruct (slot_capacity r =? 0); [done|].
    apply int_of_Ret. unfold INT_MIN, INT_MAX. split_and!; try done; lia. }
  erewrite bind_run; last first.
  { apply realloc_Ret. exists cells. split; [done|]. left. split_and!; try done.
    right. unfold grown_array in Hno. by rewrite (cells_of_array _ _ _ Harr) in Hno. }
  cbn [is_null].
  erewrite bind_run by (apply (fprintf_stderr_Ret _ _ tt); reflexivity).
  reflexivity.
Qed.

(** X3.  When a live concept is full and the allocator refuses the larger
    array, [add_slot] exits with status 1 after writing its diagnostic to
    [stderr].  Nothing else has happened by then: the heap (the concept and
    its old array included) and [stdout] are as at the call, and the name
    argument has not been read, so it need not even point to a string. *)
Theorem add_slot_growth_refused `{Allocator} (c n t : loc) (s : state)
    (r : Concept) (L : list Slot) :
  live (heap s) c r L →
  slot_capacity r ≤ slot_count r →
  Z.of_nat (length L) < 2 ^ 30 →
  alloc_grant (heap s) (grown_array (heap s) r) = false →
  add_slot (Some c) (Some n) (Some t) s =
  Exit 1 (mkState (heap s) (stdout s) (stderr s +:+ msg_slots)).
Proof.
  intros Hlive Hfull Hlen Hno.
  rewrite add_slot_unfold. unfold bind at 1.
  by rewrite (grow_slots_refused c s r L).
Qed.

Lemma add_slot_growth_refused_witness :
  @add_slot (frugal 11) (Some john) (Some lit_owns) (Some book) two_concepts =
  Exit 1 (mkState (heap two_concepts) (stdout two_concepts)
            (stderr two_concepts +:+ msg_slots)).
Proof.
  apply (@add_slot_growth_refused (frugal 11) john lit_owns book two_concepts
           (mkConcept (Some 7%positive) (Some 8%positive) NULL 0 0) []).
  - split_and!; [reflexivity|reflexivity|unfold INT_MAX; simpl; lia|].
    exists []. split_and!; reflexivity.
  - simpl. lia.
  - simpl. lia.
  - vm_compute. reflexivity.
Defined.

Lemma render_slots_app h L1 : ∀ i L2,
  render_slots h i (L1 ++ L2) =
  match render_slots h i L1, render_slots h (i + Z.of_nat (length L1)) L2 with
  | Some a, Some b => Some (a +:+ b)
  | _, _ => None
  end.
Proof.
  induction L1 as [|sl L1 IH]; intros i L2; simpl.
  { rewrite Z.add_0_r. by destruct (render_slots h i L2). }
  rewrite IH.
  replace (i + 1 + Z.of_nat (length L1)) with (i + Z.pos (Pos.of_succ_nat (length L1)))
    by lia.
  destruct (render_slot h i sl); [|done].
  destruct (render_slots h (i + 1) L1); [|done].
  destruct (render_slots h _ L2); [|done].
  by rewrite append_assoc.
Qed.

Lemma render_nameless h c r L t :
  live h c r (L ++ [mkSlot NULL t]) → render h c = None.
Proof.
  intros Hlive. unfold render. pose proof Hlive as (-> & _).
  rewrite (live_committed _ _ _ _ Hlive).
  destruct (str_at h (id r)); [|done]. destruct (str_at h (types r)); [|done].
  case_decide; [|done]. rewrite render_slots_app. simpl.
  by destruct (render_slots h 1 L).
Qed.

(** X4.  [add_slot] does not look at what [strdup] returns.  When a live
    concept has room and the allocator refuses the copy of the name, the
    call still returns: the count is one more and the new slot is committed
    with the caller's target under a [NULL] name.  The record's other
    fields, the other cells and both streams are as before.  The concept
    can then no longer be printed: the behaviour of [print_concept] on it
    is undefined. *)
Theorem add_slot_name_refused `{Allocator} (c n t : loc) (s : state)
    (r : Concept) (L : list Slot) (str : string) :
  live (heap s) c r L →
  slot_count r < slot_capacity r →
  heap s !! n = Some (BStr str) →
  alloc_grant (heap s) (BStr str) = false →
  ∃ s',
    add_slot (Some c) (Some n) (Some t) s = Ret tt s' ∧
    live (heap s') c (set_slot_count (slot_count r + 1) r)
      (L ++ [mkSlot NULL (Some t)]) ∧
    (∀ x, x ≠ c → slots r ≠ Some x → heap s' !! x = heap s !! x) ∧
    stdout s' = stdout s ∧ stderr s' = stderr s ∧
    print_concept (Some c) s' = Undef.
Proof.
  intros Hlive Hroom Hn Hno.
  pose proof (live_bounds _ _ _ _ Hlive) as [Hb Hsome].
  destruct (Hsome Hroom) as [a Ha].
  destruct Hlive as (Hr & Hcount & Hcapmax & cells & Harr & Hcap & Htake).
  rewrite Ha in Harr. simpl in Harr.
  assert (a ≠ c) as Hac by congruence.
  eexists. split.
  { rewrite add_slot_unfold. erewrite bind_run; last first.
    { apply (grow_slots_Ret _ _ tt). exists r. split; [done|]. by left. }
    apply commit_slot_Ret. exists r, str, a, cells, NULL, (heap s).
    split_and!; try done; try lia. by left. }
  assert (live
    (<[c := BConcept (set_slot_count (slot_count r + 1) r)]>
       (<[a := BSlots (<[Z.to_nat (slot_count r) := Some (mkSlot NULL (Some t))]> cells)]>
          (heap s))) c (set_slot_count (slot_count r + 1) r)
    (L ++ [mkSlot NULL (Some t)])) as Hlive'.
  { split_and!; simpl.
    - by rewrite lookup_insert_eq.
    - rewrite length_app. simpl. lia.
    - done.
    - eexists. rewrite Ha. simpl. rewrite lookup_insert_ne, lookup_insert_eq by done.
      split; [done|]. rewrite length_insert. split; [done|].
      rewrite length_app. simpl.
      replace (Z.to_nat (slot_count r)) with (length L) by lia.
      replace (length L + 1)%nat with (S (length L)) by lia.
      erewrite take_S_r by (apply list_lookup_insert_eq; lia).
      rewrite take_insert_ge by done. by rewrite fmap_app, Htake. }
  simpl. split_and!; try done.
  - intros x Hxc Hxa. rewrite !lookup_insert_ne; congruence.
  - rewrite print_concept_run. simpl. by rewrite (render_nameless _ _ _ _ _ Hlive').
Qed.

Lemma add_slot_name_refused_witness :
  ∃ s',
    @add_slot (frugal 0) (Some john) (Some lit_owns) (Some book) linked = Ret tt s' ∧
    live (heap s') john
      (set_slot_count 2 (mkConcept (Some 7%positive) (Some 8%positive)
                           (Some 12%positive) 1 2))
      ([mkSlot (Some 13%positive) (Some book)] ++ [mkSlot NULL (Some book)]) ∧
    (∀ x, x ≠ john → Some 12%positive ≠ Some x → heap s' !! x = heap linked !! x) ∧
    stdout s' = stdout linked ∧ stderr s' = stderr linked ∧
    print_concept (Some john) s' = Undef.
Proof.
  apply (@add_slot_name_refused (frugal 0) john lit_owns book linked
           (mkConcept (Some 7%positive) (Some 8%positive) (Some 12%positive) 1 2)
           [mkSlot (Some 13%positive) (Some book)] "owns").
  - split_and!; [vm_compute; reflexivity|reflexivity|unfold INT_MAX; simpl; lia|].
    eexists. split_and!; [vm_compute; reflexivity|reflexivity|reflexivity].
  - simpl. lia.
  - vm_compute. reflexivity.
  - vm_compute. reflexivity.
Defined.

(** ** Where the process can end *)

Lemma bind_Exit {A B} (m : M A) (k : A → M B) s code s' :
  bind m k s = Exit code s' ↔
  m s = Exit code s' ∨ ∃ a s1, m s = Ret a s1 ∧ k a s1 = Exit code s'.
Proof.
  unfold bind. destruct (m s) as [a s1| |]; split; try naive_solver.
Qed.

Lemma no_exit_bind {A B} (m : M A) (k : A → M B) :
  no_exit m → (∀ a, no_exit (k a)) → no_exit (bind m k).
Proof.
  intros Hm Hk s code s' [?|(a & s1 & _ & ?)]%bind_Exit; [by eapply Hm|by eapply Hk].
Qed.

Lemma no_exit_ret {A} (a : A) : no_exit (ret a).
Proof. by intros s code s'. Qed.

Lemma no_exit_undef {A} : no_exit (@undef A).
Proof. by intros s code s'. Qed.

Lemma no_exit_observer {A} (m : M A) : observer m → no_exit m.
Proof. intros Hm s code s' Hrun. specialize (Hm s). by rewrite Hrun in Hm. Qed.

Lemma no_exit_load p : no_exit (load p).
Proof. apply no_exit_observer, observer_load. Qed.

Lemma no_exit_load_concept p : no_exit (load_concept p).
Proof. apply no_exit_observer, observer_load_concept. Qed.

Lemma no_exit_load_slot p i : no_exit (load_slot p i).
Proof. apply no_exit_observer, observer_load_slot. Qed.

Lemma no_exit_int_of z : no_exit (int_of z).
Proof. apply no_exit_observer, observer_int_of. Qed.

Lemma no_exit_store p b : no_exit (store p b).
Proof. intros s code s'. unfold store. by repeat case_match. Qed.

Lemma no_exit_free p : no_exit (free p).
Proof.
  destruct p as [a|]; [|apply no_exit_ret].
  apply no_exit_bind; [apply no_exit_load|]. by intros _ s code s'.
Qed.

Lemma no_exit_update_concept p f : no_exit (update_concept p f).
Proof.
  apply no_exit_bind; [apply no_exit_load_concept|]. intros r. apply no_exit_store.
Qed.

Lemma no_exit_store_slot p i sl : no_exit (store_slot p i sl).
Proof.
  apply no_exit_bind; [apply no_exit_load_concept|]. intros r.
  apply no_exit_bind; [apply no_exit_observer, observer_load_cells|]. intros cells.
  case_match; [apply no_exit_undef|apply no_exit_store].
Qed.

Lemma no_exit_for_loop n i body :
  (∀ j, no_exit (body j)) → no_exit (for_loop n i body).
Proof.
  intros Hbody. revert i. induction n as [|n IH]; intros i; simpl.
  { apply no_exit_ret. }
  apply no_exit_bind; [done|]. intros _.
  apply no_exit_bind; [apply no_exit_int_of|]. intros j. apply IH.
Qed.

Lemma no_exit_free_concept concept : no_exit (free_concept concept).
Proof.
  destruct concept as [c|]; [|apply no_exit_ret]. rewrite free_concept_unfold.
  repeat first
    [ apply no_exit_free
    | apply no_exit_load_concept
    | apply no_exit_for_loop; intros ?; unfold free_name
    | apply no_exit_load_slot
    | apply no_exit_bind; [|intros ?] ].
Qed.

Lemma no_exit_malloc `{Allocator} b : no_exit (malloc b).
Proof. intros s code s'. unfold malloc. by case_match. Qed.

Lemma no_exit_strdup `{Allocator} p : no_exit (strdup p).
Proof.
  apply no_exit_bind; [apply no_exit_observer, observer_load_str|].
  intros str. apply no_exit_malloc.
Qed.

Lemma no_exit_realloc `{Allocator} p n : no_exit (realloc p n).
Proof.
  destruct p as [a|]; simpl.
  - apply no_exit_bind; [apply no_exit_observer, observer_load_cells|].
    intros cells. case_match; [apply no_exit_ret|].
    intros s code s'. by case_match.
  - case_match; [apply no_exit_ret|apply no_exit_malloc].
Qed.

Lemma no_exit_commit_slot `{Allocator} concept slot_name target :
  no_exit (commit_slot concept slot_name target).
Proof.
  unfold commit_slot.
  repeat first
    [ apply no_exit_load_concept
    | apply no_exit_strdup
    | apply no_exit_store_slot
    | apply no_exit_int_of
    | apply no_exit_update_concept
    | apply no_exit_bind; [|intros ?] ].
Qed.

Lemma grow_slots_Exit `{Allocator} concept s code s' :
  grow_slots concept s = Exit code s' →
  code = 1 ∧ s' = mkState (heap s) (stdout s) (stderr s +:+ msg_slots).
Proof.
  unfold grow_slots.
  intros [Hex|(r & s1 & [_ ->]%load_concept_Ret & Hk)]%bind_Exit.
  { by apply no_exit_load_concept in Hex. }
  destruct (slot_capacity r <=? slot_count r); [|done].
  apply bind_Exit in Hk as [Hex|(n & s1 & Hn & Hk)].
  { destruct (slot_capacity r =? 0); [done|]. by apply no_exit_int_of in Hex. }
  assert (s1 = s) as ->.
  { destruct (slot_capacity r =? 0).
    - by apply ret_Ret in Hn as [_ ->].
    - by apply int_of_Ret in Hn as (_ & _ & ->). }
  apply bind_Exit in Hk as [Hex|(q & s1 & Hq & Hk)].
  { by apply no_exit_realloc in Hex. }
  apply realloc_Ret in Hq as (cells & _ & [(-> & -> & _)|(_ & _ & -> & ->)]).
  - cbn [is_null] in Hk.
    apply bind_Exit in Hk as [Hex|(u & s1 & ->%fprintf_stderr_Ret & Hk)]; [done|].
    by injection Hk as <- <-.
  - cbn [is_null] in Hk. exfalso. revert Hk.
    apply no_exit_bind; [apply no_exit_update_concept|].
    intros _. apply no_exit_update_concept.
Qed.

Lemma add_slot_Exit `{Allocator} concept slot_name target s code s' :
  add_slot concept slot_name target s = Exit code s' →
  code = 1 ∧ s' = mkState (heap s) (stdout s) (stderr s +:+ msg_slots).
Proof.
  destruct concept as [c|], slot_name as [n|], target as [t|]; try done.
  rewrite add_slot_unfold.
  intros [Hex|(u & s1 & _ & Hex)]%bind_Exit; [by apply grow_slots_Exit in Hex|].
  by apply no_exit_commit_slot in Hex.
Qed.

Lemma create_concept_Exit `{Allocator} id type s code s' :
  create_concept id type s = Exit code s' →
  code = 1 ∧ heap s' = heap s ∧ stdout s' = stdout s ∧
  stderr s' = stderr s +:+
    (if alloc_grant (heap s) BUninit then msg_strings else msg_concept).
Proof.
  unfold create_concept.
  intros [Hex|(p & s1 & Hp & Hk)]%bind_Exit; [by apply no_exit_malloc in Hex|].
  pose proof (alloc_pick_fresh (heap s)) as Hc.
  apply malloc_Ret in Hp as [(Hg & -> & ->)|(Hg & -> & ->)]; rewrite Hg.
  { cbn [is_null] in Hk.
    apply bind_Exit in Hk as [Hex|(u & s1 & ->%fprintf_stderr_Ret & Hk)]; [done|].
    by injection Hk as <- <-. }
  cbn [is_null] in Hk.
  remember (alloc_pick (heap s)) as c eqn:Hce. clear Hce.
  apply bind_Exit in Hk as [Hex|(q1 & s2 & Hq1 & Hk)]; [by apply no_exit_strdup in Hex|].
  apply bind_Exit in Hk as [Hex|(q2 & s3 & Hq2 & Hk)]; [by apply no_exit_strdup in Hex|].
  apply strdup_Ret in Hq1 as (str1 & _ & Hq1).
  apply strdup_Ret in Hq2 as (str2 & _ & Hq2).
  assert (∀ q (k : M ptr) s0,
            (free q;; k) s0 = Exit code s' →
            ∃ s1, heap s1 = release q (heap s0) ∧ stdout s1 = stdout s0 ∧
                  stderr s1 = stderr s0 ∧ k s1 = Exit code s') as Hfree.
  { intros q k s0 [Hex|(u & s1 & [_ ->]%free_Ret & Hk')]%bind_Exit.
    - by apply no_exit_free in Hex.
    - by exists (set_heap (release q) s0). }
  assert (is_null q1 || is_null q2 = true →
          code = 1 ∧ heap s' = release (Some c) (release q2 (release q1 (heap s3))) ∧
          stdout s' = stdout s3 ∧ stderr s' = stderr s3 +:+ msg_strings) as Htail.
  { intros Hnull. rewrite Hnull in Hk.
    apply bind_Exit in Hk as [Hex|(u & s4 & ->%fprintf_stderr_Ret & Hk)]; [done|].
    destruct (Hfree _ _ _ Hk) as (s5 & Hh5 & Ho5 & He5 & Hk5).
    destruct (Hfree _ _ _ Hk5) as (s6 & Hh6 & Ho6 & He6 & Hk6).
    destruct (Hfree _ _ _ Hk6) as (s7 & Hh7 & Ho7 & He7 & Hk7).
    clear Hk Hk5 Hk6. rename Hk7 into Hk.
    injection Hk as <- <-. rewrite Hh7, Hh6, Hh5, Ho7, Ho6, Ho5, He7, He6, He5. done. }
  destruct Hq1 as [(Hg1 & -> & ->)|(Hg1 & -> & ->)].
  - destruct Hq2 as [(_ & -> & ->)|(_ & -> & ->)].
    + destruct (Htail eq_refl) as (-> & -> & -> & ->). simpl.
      by rewrite delete_insert_id.
    + (* the copy of the id refused, the copy of the type granted *)
      destruct (Htail eq_refl) as (-> & -> & -> & ->). simpl.
      rewrite delete_insert_id by apply alloc_pick_fresh.
      by rewrite delete_insert_id.
  - destruct Hq2 as [(_ & -> & ->)|(_ & -> & ->)].
    + destruct (Htail eq_refl) as (-> & -> & -> & ->). simpl.
      rewrite delete_insert_id by apply alloc_pick_fresh.
      by rewrite delete_insert_id.
    + exfalso. cbn [is_null orb] in Hk. revert Hk.
      apply no_exit_bind; [apply no_exit_store|]. intros _. apply no_exit_ret.
Qed.

(** X5.  The process ends in two places only, and only for want of memory.
    [create_concept] and [add_slot] exit with status 1 and nothing else;
    at that point the heap and [stdout] are as at the call and [stderr]
    has grown by exactly one diagnostic.  When they return, both streams
    are as at the call.  [print_concept] and [free_concept] never exit.
    This holds for every allocator, every state and all arguments. *)
Theorem exit_discipline `{Allocator} (s : state) :
  (∀ id type,
     match create_concept id type s with
     | Ret _ s' => stdout s' = stdout s ∧ stderr s' = stderr s
     | Exit code s' =>
         code = 1 ∧ heap s' = heap s ∧ stdout s' = stdout s ∧
         (stderr s' = stderr s +:+ msg_concept ∨
          stderr s' = stderr s +:+ msg_strings)
     | Undef => True
     end) ∧
  (∀ concept slot_name target,
     match add_slot concept slot_name target s with
     | Ret _ s' => stdout s' = stdout s ∧ stderr s' = stderr s
     | Exit code s' =>
         code = 1 ∧ heap s' = heap s ∧ stdout s' = stdout s ∧
         stderr s' = stderr s +:+ msg_slots
     | Undef => True
     end) ∧
  (∀ concept code s',
     print_concept concept s ≠ Exit code s' ∧
     free_concept concept s ≠ Exit code s').
Proof.
  split_and!.
  - intros id type. destruct (create_concept id type s) as [p s'|code s'|] eqn:Hrun;
      [| |done].
    + by apply create_concept_Ret in Hrun as (i & t & _ & _ & _ & _ & _ & _ & ->).
    + apply create_concept_Exit in Hrun as (-> & -> & -> & ->).
      split_and!; try done. destruct (alloc_grant (heap s) BUninit); auto.
  - intros concept slot_name target.
    destruct (add_slot concept slot_name target s) as [u s'|code s'|] eqn:Hrun;
      [| |done].
    + destruct concept as [c|], slot_name as [n|], target as [t|];
        try by injection Hrun as _ <-.
      by destruct (add_slot_inv _ _ _ _ _ _ Hrun)
        as (r & str & q & arr & old & new & Hr & Hn & Hold & Hc' & Harr' & Hi & Hmax
            & Hnew & Hsame & Hcapn & Hq & Hframe & Hback & Hout & Herr & _).
    + by apply add_slot_Exit in Hrun as (-> & ->).
  - intros concept code s'. split.
    + apply no_exit_observer, observer_print_concept.
    + apply no_exit_free_concept.
Qed.

(** ** Sound stores are kept *)

Lemma names_of_written L : names_of (Some <$> L) = omap name L.
Proof.
  induction L as [|sl L IH]; [done|].
  rewrite fmap_cons, names_of_cons_Some, IH. simpl. by destruct (name sl).
Qed.

Lemma owned_strings_live h c r L :
  live h c r L →
  owned_strings h r = option_list (id r) ++ option_list (types r) ++ omap name L.
Proof.
  intros (Hc & Hcount & _ & cells & Harr & _ & Htake).
  unfold owned_strings.
  by rewrite (cells_of_array _ _ _ Harr), Hcount, Nat2Z.id, Htake, names_of_written.
Qed.

Lemma owned_unfold h c r :
  h !! c = Some (BConcept r) → owned h c = owned_strings h r ++ option_list (slots r).
Proof. intros Hc. unfold owned. by rewrite Hc. Qed.

Lemma live_agree h h' c r L :
  live h c r L → h' !! c = Some (BConcept r) →
  (∀ y, slots r = Some y → h' !! y = h !! y) → live h' c r L.
Proof.
  intros (Hc & ? & ? & cells & Harr & ?) Hc' Hy. split_and!; try done.
  exists cells. split; [|done].
  destruct (slots r) as [y|]; simpl in *; [by rewrite Hy|done].
Qed.

Lemma tidy_agree h h' c r :
  h !! c = Some (BConcept r) → h' !! c = Some (BConcept r) →
  (∀ y, slots r = Some y → h' !! y = h !! y) → tidy h c r → tidy h' c r.
Proof.
  intros Hc Hc' Hy [(L & Hlive & Ht) Hnd]. split.
  - exists L. split; [by eapply live_agree|done].
  - by rewrite (owned_agree h h' c r).
Qed.

Lemma sound_store_step h h' c :
  sound_store h → wf_store h' →
  (∀ x r, x ≠ c → h' !! x = Some (BConcept r) → h !! x = Some (BConcept r)) →
  (∀ x r y, x ≠ c → h' !! x = Some (BConcept r) → y ∈ owned h x →
            h' !! y = h !! y) →
  (∀ r, h' !! c = Some (BConcept r) → tidy h' c r) →
  sound_store h'.
Proof.
  intros [Hwf Htidy] Hwf' Hold Hkeep Hc. split; [done|]. intros x r Hx.
  destruct (decide (x = c)) as [->|Hxc]; [by apply Hc|].
  apply (tidy_agree h); [by apply Hold|done| |by apply Htidy, Hold].
  intros y Hy. apply (Hkeep x r); [done..|].
  eapply owned_slots; [by apply Hold|done].
Qed.

Lemma sound_store_concept_free h : concept_free h → sound_store h.
Proof.
  intros Hfree. split; [by apply wf_store_concept_free|].
  intros c r Hc. by destruct (Hfree c _ Hc).
Qed.

Lemma sound_free_concept concept s u s' :
  free_concept concept s = Ret u s' → sound_store (heap s) → sound_store (heap s').
Proof.
  destruct concept as [c|]; [|by intros [= _ <-]].
  intros Hrun Hsound. pose proof Hsound as [Hwf _].
  pose proof (wf_free_concept _ _ _ _ Hrun Hwf) as Hwf'.
  apply free_concept_lookup in Hrun as [[rc Hc] Hlook].
  apply (sound_store_step (heap s) (heap s') c); [done|done|..].
  - intros x r _. rewrite Hlook. by case_decide.
  - intros x r y Hxc Hx Hy. rewrite Hlook. rewrite decide_False; [done|].
    unfold released. rewrite elem_of_app, list_elem_of_singleton. intros [Hyc| ->].
    + destruct Hwf as [_ Hex]. by apply Hxc, (Hex x c y).
    + by apply (owned_not_concept _ _ _ rc Hwf) in Hy.
  - intros r. rewrite Hlook. rewrite decide_True; [done|].
    unfold released. rewrite elem_of_app, list_elem_of_singleton. by right.
Qed.

Lemma sound_create_concept `{Allocator} id type s p s' :
  create_concept id type s = Ret p s' → sound_store (heap s) → sound_store (heap s').
Proof.
  intros Hrun Hsound. pose proof Hsound as [Hwf _].
  pose proof (wf_create_concept _ _ _ _ _ Hrun Hwf) as Hwf'. revert Hwf'.
  apply create_concept_Ret in Hrun as (i & t & Hid & Hty & _ & _ & _ & -> & ->).
  cbv zeta in *. simpl.
  pose proof (alloc_pick_fresh (heap s)) as Hc.
  remember (alloc_pick (heap s)) as c eqn:Hce.
  pose proof (alloc_pick_fresh (<[c := BUninit]> (heap s))) as Ha.
  remember (alloc_pick (<[c := BUninit]> (heap s))) as a eqn:Hae.
  pose proof (alloc_pick_fresh (<[a := BStr i]> (<[c := BUninit]> (heap s)))) as Hb.
  remember (alloc_pick (<[a := BStr i]> (<[c := BUninit]> (heap s)))) as b eqn:Hbe.
  apply lookup_insert_None in Ha as [Ha Hac].
  apply lookup_insert_None in Hb as [Hb Hba].
  apply lookup_insert_None in Hb as [Hb Hbc].
  clear Hce Hae Hbe Hid Hty.
  remember (<[c := BConcept (mkConcept (Some a) (Some b) NULL 0 0)]>
              (<[b := BStr t]> (<[a := BStr i]> (<[c := BUninit]> (heap s))))) as h'
    eqn:Hh'.
  assert (∀ x, x ≠ c → x ≠ a → x ≠ b → h' !! x = heap s !! x) as Hsame.
  { intros x ???. subst h'. by rewrite !lookup_insert_ne by done. }
  assert (h' !! a = Some (BStr i) ∧ h' !! b = Some (BStr t) ∧
          h' !! c = Some (BConcept (mkConcept (Some a) (Some b) NULL 0 0)))
    as (Ha' & Hb' & Hc').
  { subst h'. rewrite lookup_insert_eq.
    rewrite (lookup_insert_ne _ c a), (lookup_insert_ne _ b a), lookup_insert_eq by done.
    by rewrite (lookup_insert_ne _ c b), lookup_insert_eq by done. }
  clear Hh'. intros Hwf'.
  assert (∀ x y, y ∈ owned (heap s) x → y ≠ c ∧ y ≠ a ∧ y ≠ b) as Hfresh.
  { intros x y Hy.
    destruct (owned_typed _ _ _ Hwf Hy) as [[? ?]|[? ?]]; split_and!; congruence. }
  apply (sound_store_step (heap s) h' c); [done|done|..].
  - intros x r Hxc Hx. rewrite <- Hsame; [done|done|..]; congruence.
  - intros x r y Hxc Hx Hy. destruct (Hfresh x y Hy) as (? & ? & ?). by apply Hsame.
  - intros r. rewrite Hc'. intros [= <-]. split.
    + exists []. split; [|constructor]. split_and!; simpl; try done.
      exists []. by split_and!.
    + rewrite (owned_unfold _ _ _ Hc'). unfold owned_strings. simpl.
      apply NoDup_cons. split; [|apply NoDup_singleton].
      rewrite list_elem_of_singleton. congruence.
Qed.

Lemma add_slot_live_inv `{Allocator} c n t s u s' r L :
  add_slot (Some c) (Some n) (Some t) s = Ret u s' →
  live (heap s) c r L →
  ∃ q arr,
    live (heap s') c
      (mkConcept (id r) (types r) (Some arr) (slot_count r + 1)
         (next_capacity (slot_count r) (slot_capacity r)))
      (L ++ [mkSlot q (Some t)]) ∧
    (q = NULL ∧ ¬ granting ∨
     ∃ a str, q = Some a ∧ heap s !! n = Some (BStr str) ∧
       heap s' !! a = Some (BStr str) ∧ a ≠ arr ∧ a ≠ c ∧
       (heap s !! a = None ∨ slots r = Some a)) ∧
    (heap s !! arr = None ∨ slots r = Some arr) ∧
    (∀ x, x ≠ c → x ≠ arr → q ≠ Some x →
          heap s' !! x = release (slots r) (heap s) !! x) ∧
    stdout s' = stdout s ∧ stderr s' = stderr s.
Proof.
  intros Hrun Hlive.
  pose proof (live_bounds _ _ _ _ Hlive) as [Hb _].
  destruct Hlive as (Hr & Hcount & Hcapmax & cells & Harr & Hcap & Htake).
  destruct (add_slot_inv _ _ _ _ _ _ Hrun)
    as (r0 & str0 & q & arr & old & new & Hr0 & Hn0 & Hold & Hc' & Harr' & Hi & Hmax
        & Hnew & Hsame & Hcapn & Hq & Hframe & _ & Hout & Herr & Hfresh & Hexact).
  simplify_eq.
  pose proof (array_at_inj _ _ _ _ Hold Harr) as ->.
  exists q, arr. split_and!; try done.
  - (* live *)
    split; [done|]. simpl. rewrite length_app. simpl.
    assert (slot_capacity r ≤ slot_count r →
            (length cells ≤ Z.to_nat (new_capacity_of (slot_capacity r)))%nat) as Hgrow.
    { intros Hle. unfold new_capacity_of.
      destruct (Z.eqb_spec (slot_capacity r) 0); lia. }
    split_and!.
    + lia.
    + unfold next_capacity.
      destruct (Z.leb_spec (slot_capacity r) (slot_count r)); [|done].
      by apply Hcapn.
    + eexists. split; [exact Harr'|]. rewrite length_insert. split.
      * unfold next_capacity. case_decide.
        -- destruct (Z.leb_spec (slot_capacity r) (slot_count r)); [lia|done].
        -- destruct (Z.leb_spec (slot_capacity r) (slot_count r)); [|lia].
           rewrite length_resize. specialize (Hcapn ltac:(lia)). lia.
      * replace (Z.to_nat (slot_count r)) with (length L) by lia.
        replace (length L + 1)%nat with (S (length L)) by lia.
        erewrite take_S_r; last first.
        { apply list_lookup_insert_eq. lia. }
        rewrite take_insert_ge by done. rewrite fmap_app. simpl. f_equal.
        rewrite <- Htake. case_decide; [done|].
        rewrite take_resize_le by (specialize (Hgrow ltac:(lia)); lia).
        rewrite resize_spec. replace (length L - length cells)%nat with 0%nat by lia.
        simpl. by rewrite app_nil_r.
  - destruct Hq as [?|(a & -> & ? & ? & ? & ?)]; [by left|right]. by exists a, str0.
  - destruct (decide (slot_count r < slot_capacity r)) as [Hlt|Hge].
    + right. auto.
    + destruct (release_lookup_None _ _ _ (Hfresh ltac:(lia))); auto.
Qed.

Lemma sound_add_slot `{Allocator} concept slot_name target s u s' :
  add_slot concept slot_name target s = Ret u s' →
  sound_store (heap s) → sound_store (heap s').
Proof.
  destruct concept as [c|], slot_name as [n|], target as [t|];
    try by intros [= _ <-].
  intros Hrun Hsound. pose proof Hsound as [Hwf Htidy].
  pose proof (wf_add_slot _ _ _ _ _ _ Hrun Hwf) as Hwf'.
  assert (∃ r, heap s !! c = Some (BConcept r)) as [r Hr].
  { destruct (add_slot_inv _ _ _ _ _ _ Hrun) as (r & _ & _ & _ & _ & _ & ? & _). eauto. }
  destruct (Htidy c r Hr) as [(L & Hlive & Htargets) Hnd].
  destruct (add_slot_live_inv _ _ _ _ _ _ _ _ Hrun Hlive)
    as (q & arr & Hlive' & Hq & Harr & Hexact & _).
  pose proof Hwf as [Hty Hex]. destruct (Hty c r Hr) as [Hstrs Harrs].
  rewrite Forall_forall in Hstrs.
  pose proof Hlive' as (Hc' & _).
  rewrite (owned_unfold _ _ _ Hr) in Hnd.
  apply NoDup_app in Hnd as (Hnd_s & Hnd_sa & _).
  (* a block owned by another concept is not touched *)
  assert (∀ x y, x ≠ c → y ∈ owned (heap s) x → heap s' !! y = heap s !! y) as Hother.
  { intros x y Hxc Hy.
    assert (y ∉ owned (heap s) c) as Hyc by (intros ?; by apply Hxc, (Hex x c y)).
    assert (is_Some (heap s !! y)) as [b Hb].
    { destruct (owned_typed _ _ _ Hwf Hy) as [[? ?]|[? ?]]; eauto. }
    assert (slots r ≠ Some y) as Hsy.
    { intros Hs. apply Hyc. by eapply owned_slots. }
    rewrite Hexact, release_lookup_ne; try done.
    - intros ->. by apply (owned_not_concept _ _ _ r Hwf) in Hy.
    - intros ->. destruct Harr; congruence.
    - intros ->. destruct Hq as [[? _]|(a & str & [= <-] & _ & _ & _ & _ & [?|?])];
        congruence. }
  apply (sound_store_step (heap s) (heap s') c); [done|done|..].
  - intros x rx Hxc Hx.
    assert (x ≠ arr) as Hxa.
    { intros ->. destruct Hlive' as (_ & _ & _ & cells & Ha & _). simpl in Ha.
      congruence. }
    assert (q ≠ Some x) as Hxq.
    { intros ->. destruct Hq as [[? _]|(a & str & [= <-] & _ & ? & _)]; congruence. }
    rewrite Hexact in Hx by done. destruct (slots r) as [o|]; simpl in Hx; [|done].
    by apply lookup_delete_Some in Hx as [_ ?].
  - intros x rx y Hxc _ Hy. by apply (Hother x).
  - intros r'. rewrite Hc'. intros [= <-]. split.
    + eexists. split; [exact Hlive'|]. apply Forall_app. split; [done|].
      repeat constructor. simpl. eauto.
    + rewrite (owned_unfold _ _ _ Hc').
      pose proof (owned_strings_live _ _ _ _ Hlive') as Hos.
      rewrite omap_app in Hos. simpl in Hos.
      match type of Hos with owned_strings ?h ?r' = _ =>
        assert (owned_strings h r' = owned_strings (heap s) r ++ option_list q) as ->
      end.
      { rewrite Hos, (owned_strings_live _ _ _ _ Hlive), <- !app_assoc.
        by destruct q. }
      clear Hos. simpl.
      assert (∀ y, heap s !! y = None ∨ slots r = Some y →
                   y ∉ owned_strings (heap s) r) as Hnew.
      { intros y [Hy|Hy] Hin.
        - destruct (Hstrs y Hin). congruence.
        - apply (Hnd_sa y Hin). rewrite Hy. simpl. by apply list_elem_of_singleton. }
      apply NoDup_app. split_and!.
      * apply NoDup_app. split_and!; [done| |].
        -- intros y Hy Hyq.
           destruct Hq as [[-> _]|(a & str & -> & _ & _ & _ & _ & Ha)];
             simpl in Hyq; [by apply elem_of_nil in Hyq|].
           apply list_elem_of_singleton in Hyq. subst y. by apply (Hnew a).
        -- destruct q; simpl; [apply NoDup_singleton|apply NoDup_nil_2].
      * intros y Hy Hya. apply list_elem_of_singleton in Hya. subst y.
        apply elem_of_app in Hy as [Hy|Hy]; [by apply (Hnew arr)|].
        destruct Hq as [[-> _]|(a & str & -> & _ & _ & ? & _)];
          simpl in Hy; [by apply elem_of_nil in Hy|].
        apply list_elem_of_singleton in Hy. congruence.
      * apply NoDup_singleton.
Qed.

Lemma sound_api_run `{Allocator} call s u s' :
  api_run call s = Ret u s' → sound_store (heap s) → sound_store (heap s').
Proof.
  destruct call as [id type|concept slot_name target|concept|concept]; simpl.
  - intros (p & s1 & Hrun & [_ ->]%ret_Ret)%bind_Ret. by eapply sound_create_concept.
  - apply sound_add_slot.
  - intros Hrun. pose proof (observer_print_concept concept s) as Hobs.
    rewrite Hrun in Hobs. destruct Hobs as (-> & _). done.
  - apply sound_free_concept.
Qed.

Lemma sound_api_runs `{Allocator} calls : ∀ s u s',
  api_runs calls s = Ret u s' → sound_store (heap s) → sound_store (heap s').
Proof.
  induction calls as [|call calls IH]; intros s u s'; simpl.
  { by intros [= _ <-]. }
  intros (u1 & s1 & Hrun & Hrest)%bind_Ret Hsound.
  apply (IH s1 u s'); [done|]. by eapply sound_api_run.
Qed.

(** X6.  The four operations keep their store sound.  A heap without
    concepts is sound, and whatever sequence of calls of [create_concept],
    [add_slot], [print_concept] and [free_concept] a client makes from a
    sound heap, with any arguments and any allocator, the heap it returns
    in is sound again: no block is owned by two concepts, the blocks one
    concept owns are pairwise distinct strings and one array, every
    concept's count is the number of its committed slots and within its
    capacity, the capacity is the length of its array, and every
    committed slot has a target. *)
Theorem sound_store_kept `{Allocator} (calls : list api_call) (s s' : state) :
  concept_free (heap s) ∨ sound_store (heap s) →
  api_runs calls s = Ret tt s' →
  sound_store (heap s').
Proof.
  intros Hs Hrun. apply (sound_api_runs calls s tt s' Hrun).
  destruct Hs; [by apply sound_store_concept_free|done].
Qed.

Lemma sound_store_kept_witness :
  sound_store
    (heap (after (api_runs
                    [CreateConcept (Some lit_john) (Some lit_Person);
                     CreateConcept (Some lit_book) (Some lit_Object);
                     AddSlot (Some john) (Some lit_owns) (Some book);
                     AddSlot (Some book) (Some lit_owns) (Some john);
                     PrintConcept (Some book);
                     FreeConcept (Some john)]) boot)).
Proof.
  apply (sound_store_kept
           [CreateConcept (Some lit_john) (Some lit_Person);
            CreateConcept (Some lit_book) (Some lit_Object);
            AddSlot (Some john) (Some lit_owns) (Some book);
            AddSlot (Some book) (Some lit_owns) (Some john);
            PrintConcept (Some book);
            FreeConcept (Some john)]
           boot).
  - left. apply (bool_decide_unpack _). vm_compute. exact I.
  - vm_compute. reflexivity.
Defined.

(** ** [free_concept] returns on every concept of a sound store *)

Lemma free_ptr_run p s :
  (p = NULL ∨ is_Some (deref (heap s) p)) →
  free p s = Ret tt (set_heap (release p) s).
Proof. intros Hp. by apply free_Ret. Qed.

Lemma free_names_run c r cells n : ∀ i s,
  heap s !! c = Some (BConcept r) →
  deref (heap s) (slots r) = Some (BSlots cells) →
  (∀ k, (i ≤ k < i + n)%nat → ∃ sl, cells !! k = Some (Some sl)) →
  NoDup (names_of (take n (drop i cells))) →
  (∀ y, y ∈ names_of (take n (drop i cells)) →
        is_Some (heap s !! y) ∧ y ≠ c ∧ slots r ≠ Some y) →
  Z.of_nat (i + n) ≤ INT_MAX →
  ∃ s', for_loop n (Z.of_nat i) (free_name (Some c)) s = Ret tt s' ∧
        (∀ x, x ∉ names_of (take n (drop i cells)) → heap s' !! x = heap s !! x).
Proof.
  induction n as [|n IH]; intros i s Hc Hcells Hall Hnd Hown Hmax; simpl.
  { by exists s. }
  destruct (Hall i ltac:(lia)) as [sl Hsl].
  rewrite (drop_S _ _ _ Hsl) in Hnd, Hown |- *. simpl take in Hnd, Hown |- *.
  rewrite names_of_cons_Some in Hnd, Hown |- *.
  apply NoDup_app in Hnd as (_ & Hdisj & Hnd).
  setoid_rewrite elem_of_app in Hown.
  unfold free_name at 1.
  erewrite bind_run; last first.
  { erewrite bind_run; last first.
    { apply load_slot_Ret. exists r, cells. rewrite Nat2Z.id. split_and!; try done. lia. }
    apply free_ptr_run. destruct (name sl) as [y|] eqn:Hy; [right|by left].
    simpl. apply (Hown y). left. simpl. by apply list_elem_of_singleton. }
  erewrite bind_run by (apply int_add_run; unfold INT_MIN, INT_MAX in *; lia).
  replace (Z.of_nat i + 1) with (Z.of_nat (S i)) by lia.
  assert (∀ x, x ∉ option_list (name sl) →
               release (name sl) (heap s) !! x = heap s !! x) as Hkeep.
  { intros x Hx. apply release_lookup_ne. intros Hn. apply Hx. rewrite Hn. simpl.
    by apply list_elem_of_singleton. }
  assert (∀ y, y ∈ names_of (take n (drop (S i) cells)) → y ∉ option_list (name sl))
    as Hfresh.
  { intros y Hy Hy'. by apply (Hdisj y). }
  destruct (IH (S i) (set_heap (release (name sl)) s)) as (s' & Hrun & Hsame).
  - simpl. rewrite Hkeep; [done|]. intros Hx.
    destruct (Hown c) as (_ & ? & _); auto.
  - simpl. destruct (slots r) as [a|] eqn:Ha; [|done]. simpl in *.
    rewrite Hkeep; [done|]. intros Hx.
    destruct (Hown a) as (_ & _ & ?); auto.
  - intros k Hk. apply Hall. lia.
  - done.
  - intros y Hy. simpl. rewrite Hkeep by auto. apply Hown. auto.
  - lia.
  - exists s'. split; [done|]. intros x Hx. rewrite elem_of_app in Hx.
    rewrite Hsame by auto. simpl. apply Hkeep. auto.
Qed.

Lemma free_concept_run c r L s :
  live (heap s) c r L →
  NoDup (owned (heap s) c) →
  (∀ y, y ∈ owned (heap s) c → is_Some (heap s !! y) ∧ y ≠ c) →
  ∃ s', free_concept (Some c) s = Ret tt s'.
Proof.
  intros Hlive Hnd Hown.
  pose proof (live_bounds _ _ _ _ Hlive) as [Hb Hsome].
  pose proof (owned_strings_live _ _ _ _ Hlive) as Hos.
  pose proof Hlive as (Hc & Hcount & Hcapmax & cells & Harr & Hcap & Htake).
  rewrite (owned_unfold _ _ _ Hc), Hos in Hnd, Hown. clear Hos.
  setoid_rewrite elem_of_app in Hown. setoid_rewrite elem_of_app in Hown.
  setoid_rewrite elem_of_app in Hown.
  apply NoDup_app in Hnd as (Hnd1 & Hd1 & _).
  apply NoDup_app in Hnd1 as (_ & Hd2 & Hnd2).
  apply NoDup_app in Hnd2 as (_ & Hd3 & Hnd3).
  setoid_rewrite elem_of_app in Hd1. setoid_rewrite elem_of_app in Hd1.
  setoid_rewrite elem_of_app in Hd2.
  assert (∀ (p : ptr) (x : loc), x ∈ option_list p ↔ p = Some x) as Hopt.
  { intros [y|] x; simpl.
    - rewrite list_elem_of_singleton. split; congruence.
    - split; [by intros ?%elem_of_nil|done]. }
  setoid_rewrite Hopt in Hown. setoid_rewrite Hopt in Hd1.
  setoid_rewrite Hopt in Hd2. setoid_rewrite Hopt in Hd3.
  rewrite free_concept_unfold.
  erewrite bind_run by (by apply load_concept_run).
  erewrite bind_run; last first.
  { apply free_ptr_run. destruct (id r) as [a|] eqn:Ha; [right|by left].
    simpl. apply (Hown a). auto. }
  set (h1 := release (id r) (heap s)).
  assert (h1 !! c = Some (BConcept r)) as Hc1.
  { unfold h1. rewrite release_lookup_ne; [done|]. intros Hx.
    destruct (Hown c) as [_ ?]; auto. }
  erewrite bind_run by (by apply load_concept_run).
  erewrite bind_run; last first.
  { apply free_ptr_run. destruct (types r) as [b|] eqn:Hty; [right|by left].
    simpl. fold h1. unfold h1. rewrite release_lookup_ne.
    - apply (Hown b). auto.
    - intros Hx. apply (Hd2 b Hx). auto. }
  set (h2 := release (types r) h1).
  assert (∀ x, id r ≠ Some x → types r ≠ Some x → h2 !! x = heap s !! x) as Hh2.
  { intros x ??. unfold h2, h1. by rewrite !release_lookup_ne. }
  assert (h2 !! c = Some (BConcept r)) as Hc2.
  { rewrite Hh2; [done|intros Hx|intros Hx]; destruct (Hown c) as [_ ?]; auto. }
  erewrite bind_run by (by apply load_concept_run).
  assert (names_of (take (Z.to_nat (slot_count r)) (drop 0 cells)) = omap name L)
    as Hnames.
  { by rewrite drop_0, Hcount, Nat2Z.id, Htake, names_of_written. }
  assert (∃ s3, for_loop (Z.to_nat (slot_count r)) 0 (free_name (Some c))
                  (set_heap (release (types r)) (set_heap (release (id r)) s))
                = Ret tt s3 ∧
                ∀ x, x ∉ omap name L → heap s3 !! x = h2 !! x) as (s3 & Hloop & Hh3).
  { destruct L as [|sl0 L0].
    { simpl in Hcount. rewrite Hcount. simpl. eexists. split; [done|]. done. }
    destruct (slots r) as [a|] eqn:Ha; simpl in Harr;
      [|subst cells; simpl in *; lia].
    assert (h2 !! a = Some (BSlots cells)) as Ha2.
    { rewrite Hh2; [done|intros Hx|intros Hx]; apply (Hd1 a); auto. }
    rewrite <- Hnames.
    apply (free_names_run c r cells (Z.to_nat (slot_count r)) 0%nat).
    - done.
    - by rewrite Ha.
    - intros k Hk. apply (f_equal (λ l : list (option Slot), l !! k)) in Htake.
      rewrite lookup_take_lt in Htake by lia. rewrite list_lookup_fmap in Htake.
      destruct (lookup_lt_is_Some_2 (sl0 :: L0) k) as [sl Hsl]; [lia|].
      rewrite Hsl in Htake. eauto.
    - by rewrite Hnames.
    - intros y Hy. rewrite Hnames in Hy. simpl.
      assert (id r ≠ Some y) by (intros ?; apply (Hd2 y); auto).
      assert (types r ≠ Some y) by (intros ?; by apply (Hd3 y)).
      fold h1. fold h2. rewrite Hh2 by done. split_and!.
      + apply (Hown y). auto.
      + apply (Hown y). auto.
      + intros Hs. rewrite Ha in Hs. apply (Hd1 y); auto.
    - lia. }
  erewrite bind_run by exact Hloop.
  assert (heap s3 !! c = Some (BConcept r)) as Hc3.
  { rewrite Hh3; [done|]. intros Hx. destruct (Hown c) as [_ ?]; auto. }
  erewrite bind_run by (by apply load_concept_run).
  erewrite bind_run; last first.
  { apply free_ptr_run. destruct (slots r) as [a|] eqn:Ha; [right|by left].
    simpl. simpl in Harr. rewrite Hh3, Hh2; [eauto|..].
    - intros ?. apply (Hd1 a); auto.
    - intros ?. apply (Hd1 a); auto.
    - intros ?. apply (Hd1 a); auto. }
  eexists. apply free_ptr_run. right. simpl.
  rewrite release_lookup_ne; [eauto|]. intros Hx.
  destruct (Hown c) as [_ ?]; auto.
Qed.

Lemma sound_owned_allocated h c y :
  sound_store h → y ∈ owned h c → is_Some (h !! y) ∧ y ≠ c.
Proof.
  intros [Hwf _] Hy. destruct (owned_concept _ _ _ Hy) as (r & Hc & _). split.
  - destruct (owned_typed _ _ _ Hwf Hy) as [[? ?]|[? ?]]; eauto.
  - intros ->. by apply (owned_not_concept _ _ _ r Hwf) in Hy.
Qed.

(** X7.  In a sound store [free_concept] is defined on every concept: it
    returns, whatever the concept's slots point to (another concept, the
    concept itself, a concept torn down before).  The concept is gone
    afterwards and the store is sound again, so the concepts of a sound
    store can be torn down one after the other in any order. *)
Theorem free_concept_returns (c : loc) (r : Concept) (s : state) :
  sound_store (heap s) →
  heap s !! c = Some (BConcept r) →
  ∃ s', free_concept (Some c) s = Ret tt s' ∧
        heap s' !! c = None ∧ sound_store (heap s').
Proof.
  intros Hsound Hc. pose proof Hsound as [_ Htidy].
  destruct (Htidy c r Hc) as [(L & Hlive & _) Hnd].
  destruct (free_concept_run c r L s Hlive Hnd) as [s' Hrun].
  { intros y Hy. by eapply sound_owned_allocated. }
  exists s'. split_and!; [done| |by eapply sound_free_concept].
  apply free_concept_lookup in Hrun as [_ Hlook]. rewrite Hlook, decide_True; [done|].
  unfold released. apply elem_of_app. right. by apply list_elem_of_singleton.
Qed.

Lemma cyclic_sound : sound_store (heap cyclic).
Proof.
  apply (sound_api_runs
           [CreateConcept (Some lit_john) (Some lit_Person);
            CreateConcept (Some lit_book) (Some lit_Object);
            AddSlot (Some john) (Some lit_owns) (Some book);
            AddSlot (Some book) (Some lit_owns) (Some john)] boot tt).
  - vm_compute. reflexivity.
  - apply sound_store_concept_free, (bool_decide_unpack _). vm_compute. exact I.
Qed.

Lemma free_concept_returns_witness :
  ∃ s', free_concept (Some john) cyclic = Ret tt s' ∧
        heap s' !! john = None ∧ sound_store (heap s').
Proof.
  apply (free_concept_returns john
           (mkConcept (Some 7%positive) (Some 8%positive) (Some 12%positive) 1 2)
           cyclic).
  - exact cyclic_sound.
  - vm_compute. reflexivity.
Defined.

(** ** [add_slot] is defined on every concept of a sound store *)

Lemma add_slot_defined `{Allocator} c n t s r L str :
  live (heap s) c r L → heap s !! n = Some (BStr str) →
  Z.of_nat (length L) < 2 ^ 30 →
  (slot_capacity r ≤ slot_count r ∧
   alloc_grant (heap s) (grown_array (heap s) r) = false ∧
   add_slot (Some c) (Some n) (Some t) s =
   Exit 1 (mkState (heap s) (stdout s) (stderr s +:+ msg_slots))) ∨
  ((slot_count r < slot_capacity r ∨
    alloc_grant (heap s) (grown_array (heap s) r) = true) ∧
   ∃ s', add_slot (Some c) (Some n) (Some t) s = Ret tt s').
Proof.
  intros Hlive Hn Hlen.
  pose proof (live_bounds _ _ _ _ Hlive) as [Hb Hsome].
  pose proof Hlive as (Hr & Hcount & Hcapmax & cells & Harr & Hcap & Htake).
  destruct (decide (slot_count r < slot_capacity r)) as [Hlt|Hge].
  - right. split; [by left|]. setoid_rewrite add_slot_unfold.
    erewrite bind_run; last first.
    { apply (grow_slots_Ret _ _ tt). exists r. split; [done|]. by left. }
    destruct (Hsome Hlt) as [a Ha]. rewrite Ha in Harr. simpl in Harr.
    destruct (alloc_grant (heap s) (BStr str)) eqn:Hg.
    + eexists. apply commit_slot_Ret.
      eexists r, str, a, cells, (Some (alloc_pick (heap s))), _.
      split_and!; try done; try lia. right. by split_and!.
    + eexists. apply commit_slot_Ret.
      eexists r, str, a, cells, NULL, _.
      split_and!; try done; try lia. left. by split_and!.
  - destruct (alloc_grant (heap s) (grown_array (heap s) r)) eqn:Hg; last first.
    { left. split_and!; [lia|done|]. rewrite add_slot_unfold. unfold bind at 1.
      by rewrite (grow_slots_refused c s r L) by (done || lia). }
    right. split; [by right|]. setoid_rewrite add_slot_unfold.
    assert (slot_capacity r = slot_count r) as Heq by lia.
    assert (0 ≤ new_capacity_of (slot_capacity r) ≤ INT_MAX ∧
            slot_capacity r < new_capacity_of (slot_capacity r)) as [Hn0 Hn1].
    { unfold new_capacity_of, INT_MAX.
      destruct (Z.eqb_spec (slot_capacity r) 0); lia. }
    pose proof (alloc_pick_fresh (release (slots r) (heap s))) as Hf0.
    assert (slots r ≠ Some c) as Hsc by eauto using array_not_concept.
    assert (slots r ≠ Some n) as Hsn.
    { intros Hs. rewrite Hs in Harr. simpl in Harr. congruence. }
    erewrite bind_run; last first.
    { apply (grow_slots_Ret _ _ tt). exists r. split; [done|]. right.
      split; [lia|]. exists cells. split_and!; try done; try lia.
      unfold grown_array in Hg. by rewrite (cells_of_array _ _ _ Harr) in Hg. }
    remember (alloc_pick (release (slots r) (heap s))) as a0 eqn:Ha0. clear Ha0.
    assert (a0 ≠ c) as Hac.
    { intros ->. rewrite release_lookup_ne in Hf0 by done. congruence. }
    assert (a0 ≠ n) as Han.
    { intros ->. rewrite release_lookup_ne in Hf0 by done. congruence. }
    match goal with |- ∃ s', commit_slot _ _ _ (set_heap (λ _, ?h) s) = _ =>
      remember h as hg eqn:Hhg end.
    assert (hg !! c = Some (BConcept (mkConcept (id r) (types r) (Some a0)
              (slot_count r) (new_capacity_of (slot_capacity r)))) ∧
            hg !! a0 = Some (BSlots (resize (Z.to_nat
              (new_capacity_of (slot_capacity r))) None cells)) ∧
            hg !! n = Some (BStr str)) as (Hgc & Hga & Hgn).
    { subst hg. rewrite lookup_insert_eq, lookup_insert_ne, lookup_insert_eq by done.
      rewrite !lookup_insert_ne by congruence.
      by rewrite release_lookup_ne by done. }
    clear Hhg.
    destruct (alloc_grant hg (BStr str)) eqn:Hgg.
    + eexists. apply commit_slot_Ret.
      eexists _, str, a0, _, (Some (alloc_pick hg)), _. simpl.
      split_and!; try done; simpl; try lia.
      * rewrite length_resize. lia.
      * right. by split_and!.
    + eexists. apply commit_slot_Ret.
      eexists _, str, a0, _, NULL, _. simpl.
      split_and!; try done; simpl; try lia.
      * rewrite length_resize. lia.
      * left. by split_and!.
Qed.

(** X8.  In a sound store [add_slot] has no undefined behaviour on a
    concept with fewer than 2^30 slots and a name that is a C string,
    whatever the allocator does and whatever the target pointer is (it is
    stored, never followed).  When the concept is full and the allocator
    refuses the larger array, the call exits with status 1 in the state of
    the call plus the diagnostic on [stderr]; in every other case it
    returns, the count is one more, and the store is sound again. *)
Theorem add_slot_never_undefined `{Allocator} (c n t : loc) (s : state)
    (r : Concept) (str : string) :
  sound_store (heap s) →
  heap s !! c = Some (BConcept r) →
  heap s !! n = Some (BStr str) →
  slot_count r < 2 ^ 30 →
  (slot_capacity r ≤ slot_count r ∧
   alloc_grant (heap s) (grown_array (heap s) r) = false ∧
   add_slot (Some c) (Some n) (Some t) s =
   Exit 1 (mkState (heap s) (stdout s) (stderr s +:+ msg_slots))) ∨
  ((slot_count r < slot_capacity r ∨
    alloc_grant (heap s) (grown_array (heap s) r) = true) ∧
   ∃ s' r', add_slot (Some c) (Some n) (Some t) s = Ret tt s' ∧
     heap s' !! c = Some (BConcept r') ∧
     slot_count r' = slot_count r + 1 ∧
     sound_store (heap s')).
Proof.
  intros Hsound Hc Hn Hcount. pose proof Hsound as [_ Htidy].
  destruct (Htidy c r Hc) as [(L & Hlive & _) _].
  pose proof Hlive as (_ & Hlen & _).
  destruct (add_slot_defined c n t s r L str) as [?|[Hcase [s' Hrun]]];
    [done|done|lia|by left|right].
  split; [done|].
  destruct (add_slot_live_inv _ _ _ _ _ _ _ _ Hrun Hlive)
    as (q & arr & (Hc' & _) & _).
  eexists s', _. split_and!; [done|exact Hc'|done|by eapply sound_add_slot].
Qed.

Lemma add_slot_never_undefined_witness :
  (2 ≤ 1 ∧
   @alloc_grant (frugal 14) (heap cyclic)
     (grown_array (heap cyclic)
        (mkConcept (Some 7%positive) (Some 8%positive) (Some 12%positive) 1 2))
     = false ∧
   @add_slot (frugal 14) (Some john) (Some lit_owns) (Some john) cyclic =
   Exit 1 (mkState (heap cyclic) (stdout cyclic) (stderr cyclic +:+ msg_slots))) ∨
  ((1 < 2 ∨
    @alloc_grant (frugal 14) (heap cyclic)
      (grown_array (heap cyclic)
         (mkConcept (Some 7%positive) (Some 8%positive) (Some 12%positive) 1 2))
      = true) ∧
   ∃ s' r', @add_slot (frugal 14) (Some john) (Some lit_owns) (Some john) cyclic =
              Ret tt s' ∧
     heap s' !! john = Some (BConcept r') ∧
     slot_count r' = 1 + 1 ∧
     sound_store (heap s')).
Proof.
  apply (@add_slot_never_undefined (frugal 14) john lit_owns john cyclic
           (mkConcept (Some 7%positive) (Some 8%positive) (Some 12%positive) 1 2)
           "owns").
  - exact cyclic_sound.
  - vm_compute. reflexivity.
  - vm_compute. reflexivity.
  - simpl. lia.
Defined.

(** ** After teardown *)

Lemma render_dangling h t r L sl c :
  h !! t = Some (BConcept r) → committed h r = Some L → sl ∈ L →
  target sl = Some c → concept_at h (Some c) = None → render h t = None.
Proof.
  intros Ht HL Hsl Htarget Hc. unfold render. rewrite Ht, HL.
  destruct (str_at h (id r)); [|done]. destruct (str_at h (types r)); [|done].
  case_decide; [|done].
  destruct (render_slots h 1 L) as [body|] eqn:Hbody; [|done].
  destruct (render_slots_each h L 1 body sl Hbody Hsl) as (j & text & Hrs).
  unfold render_slot in Hrs. destruct (str_at h (name sl)); [|done].
  rewrite Htarget in Hrs. unfold render_target in Hrs. by rewrite Hc in Hrs.
Qed.

(** X9.  Once [free_concept] has returned, the pointer is dead: printing
    it, appending to it and freeing it a second time are all undefined
    behaviour, and so is printing any concept that still has a committed
    slot with the torn-down concept as target.  Nothing in the code
    detects either use. *)
Theorem use_after_free `{Allocator} (c : loc) (s s' : state) :
  free_concept (Some c) s = Ret tt s' →
  print_concept (Some c) s' = Undef ∧
  free_concept (Some c) s' = Undef ∧
  (∀ n t, add_slot (Some c) (Some n) (Some t) s' = Undef) ∧
  (∀ t r L sl, heap s' !! t = Some (BConcept r) → committed (heap s') r = Some L →
     sl ∈ L → target sl = Some c → print_concept (Some t) s' = Undef).
Proof.
  intros Hrun. apply free_concept_lookup in Hrun as [_ Hlook].
  assert (heap s' !! c = None) as Hc.
  { rewrite Hlook, decide_True; [done|].
    unfold released. apply elem_of_app. right. by apply list_elem_of_singleton. }
  split_and!.
  - rewrite print_concept_run. unfold render. by rewrite Hc.
  - rewrite free_concept_unfold. unfold bind, load_concept, bind, load. by rewrite Hc.
  - intros n t. unfold add_slot. simpl. unfold bind, load_concept, bind, load.
    by rewrite Hc.
  - intros t r L sl Ht HL Hsl Htarget. rewrite print_concept_run.
    rewrite (render_dangling _ t r L sl c); try done.
    unfold concept_at. simpl. by rewrite Hc.
Qed.

Lemma use_after_free_witness :
  print_concept (Some john) cyclic_torn = Undef ∧
  free_concept (Some john) cyclic_torn = Undef ∧
  (∀ n t, add_slot (Some john) (Some n) (Some t) cyclic_torn = Undef) ∧
  (∀ t r L sl, heap cyclic_torn !! t = Some (BConcept r) →
     committed (heap cyclic_torn) r = Some L →
     sl ∈ L → target sl = Some john → print_concept (Some t) cyclic_torn = Undef).
Proof.
  apply (use_after_free john cyclic cyclic_torn). vm_compute. reflexivity.
Defined.

(** ** What is built is what teardown releases *)

Lemma elem_of_option_list (p : ptr) (x : loc) : x ∈ option_list p ↔ p = Some x.
Proof.
  destruct p as [y|]; simpl.
  - rewrite list_elem_of_singleton. split; congruence.
  - split; [by intros ?%elem_of_nil|done].
Qed.

Lemma add_slot_adds `{Allocator} h0 c n t s r L str :
  granting →
  live (heap s) c r L → adds_concept h0 (heap s) c →
  heap s !! n = Some (BStr str) → Z.of_nat (length L) < 2 ^ 30 →
  ∃ s' r' q,
    add_slot (Some c) (Some n) (Some t) s = Ret tt s' ∧
    live (heap s') c r' (L ++ [mkSlot q (Some t)]) ∧
    adds_concept h0 (heap s') c ∧
    (∀ x b, h0 !! x = Some b → heap s !! x = Some b → heap s' !! x = Some b) ∧
    stdout s' = stdout s ∧ stderr s' = stderr s.
Proof.
  intros Hgrant Hlive [Hnd Hadds] Hn Hlen.
  destruct (add_slot_total c n t s r L str) as [s' Hrun]; [done..|].
  destruct (add_slot_live_inv _ _ _ _ _ _ _ _ Hrun Hlive)
    as (q & arr & Hlive' & Hq & Harr & Hexact & Hout & Herr).
  destruct Hq as [[_ []]|(a & str' & -> & _ & Ha' & Haarr & Hac & Ha)]; [done|].
  pose proof Hlive as (Hc & _). pose proof Hlive' as (Hc' & _ & _ & cells' & Harr' & _).
  simpl in Harr'.
  (* the blocks before and after *)
  unfold released in Hnd, Hadds.
  rewrite (owned_unfold _ _ _ Hc) in Hnd, Hadds.
  assert (released (heap s') c =
          (owned_strings (heap s) r ++ [a]) ++ [arr] ++ [c]) as Hrel'.
  { unfold released. rewrite (owned_unfold _ _ _ Hc'). simpl.
    rewrite (owned_strings_live _ _ _ _ Hlive'), (owned_strings_live _ _ _ _ Hlive).
    rewrite omap_app. simpl. by rewrite <- !app_assoc. }
  remember (owned_strings (heap s) r) as strs eqn:HS. clear HS.
  assert (∀ x, x ∈ strs ∨ slots r = Some x ∨ x = c → is_Some (heap s !! x) ∧ h0 !! x = None)
    as Hold.
  { intros x Hx. specialize (Hadds x). rewrite decide_True in Hadds; [done|].
    rewrite !elem_of_app, elem_of_option_list, list_elem_of_singleton. tauto. }
  assert (∀ x, x ∉ strs → slots r ≠ Some x → x ≠ c → heap s !! x = h0 !! x) as Hrest.
  { intros x ???. specialize (Hadds x). rewrite decide_False in Hadds; [done|].
    rewrite !elem_of_app, elem_of_option_list, list_elem_of_singleton. tauto. }
  apply NoDup_app in Hnd as (HndSo & Hc_not & _).
  apply NoDup_app in HndSo as (HndS & HSo & _).
  setoid_rewrite elem_of_option_list in HSo.
  setoid_rewrite list_elem_of_singleton in Hc_not.
  setoid_rewrite elem_of_app in Hc_not. setoid_rewrite elem_of_option_list in Hc_not.
  assert (∀ y, heap s !! y = None ∨ slots r = Some y → (y ∉ strs) ∧ y ≠ c) as Hnew.
  { intros y [Hy|Hy]; split.
    - intros Hin. destruct (Hold y) as [[? ?] _]; [auto|congruence].
    - congruence.
    - intros Hin. by apply (HSo y).
    - intros ->. apply (Hc_not c); auto. }
  destruct (Hnew a Ha) as [HaS _]. destruct (Hnew arr Harr) as [HarrS Harrc].
  assert (∀ y, heap s !! y = None ∨ slots r = Some y → h0 !! y = None) as Hnew0.
  { intros y [Hy|Hy]; [|apply Hold; auto].
    destruct (Hnew y (or_introl Hy)) as [? ?]. rewrite <- Hrest; try done.
    intros Hs. destruct (Hold y) as [[? ?] _]; [auto|congruence]. }
  eexists s', _, (Some a). split_and!; [done|exact Hlive'| |..|done|done].
  - split.
    + rewrite Hrel'. apply NoDup_app. split_and!.
      * apply NoDup_app. split_and!; [done| |apply NoDup_singleton].
        intros y Hy ->%list_elem_of_singleton. done.
      * intros y [Hy| ->%list_elem_of_singleton]%elem_of_app; simpl.
        -- rewrite elem_of_cons, list_elem_of_singleton. intros [->| ->]; [done|].
           apply (Hc_not c); auto.
        -- rewrite elem_of_cons, list_elem_of_singleton. intros [?| ->]; done.
      * simpl. apply NoDup_cons. split; [|apply NoDup_singleton].
        rewrite list_elem_of_singleton. done.
    + intros x. rewrite Hrel'. case_decide as Hx.
      * rewrite !elem_of_app, !list_elem_of_singleton in Hx.
        destruct Hx as [[Hx| ->]|[->| ->]].
        -- assert (x ≠ c) by (intros ->; apply (Hc_not c); auto).
           assert (x ≠ arr) by congruence. assert (x ≠ a) by congruence.
           rewrite Hexact by congruence.
           rewrite release_lookup_ne by (intros ?; by apply (HSo x)).
           apply Hold. auto.
        -- split; [by rewrite Ha'|by apply Hnew0].
        -- split; [by rewrite Harr'|by apply Hnew0].
        -- split; [by rewrite Hc'|apply Hold; auto].
      * rewrite !elem_of_app, !list_elem_of_singleton in Hx.
        rewrite Hexact by (try congruence; naive_solver).
        destruct (decide (slots r = Some x)) as [Hs|Hs].
        -- rewrite Hs. simpl. rewrite lookup_delete_eq. symmetry. apply Hold. auto.
        -- rewrite release_lookup_ne by done. apply Hrest; naive_solver.
  - intros x b Hx0 Hx.
    assert ((x ∉ strs) ∧ slots r ≠ Some x ∧ x ≠ c) as (? & ? & ?).
    { split_and!; intros ?; destruct (Hold x) as [_ ?]; auto; congruence. }
    rewrite Hexact, release_lookup_ne; try done.
    + intros ->. destruct Harr; congruence.
    + intros [= ->]. destruct Ha; congruence.
Qed.

Lemma add_slots_adds `{Allocator} h0 c calls : ∀ s r L,
  granting →
  live (heap s) c r L → adds_concept h0 (heap s) c →
  Forall (λ call, is_Some (str_at h0 call.1) ∧ is_Some call.2) calls →
  (∀ x b, h0 !! x = Some b → heap s !! x = Some b) →
  Z.of_nat (length L + length calls) ≤ 2 ^ 30 →
  ∃ s' r' L',
    add_slots (Some c) calls s = Ret tt s' ∧
    live (heap s') c r' L' ∧
    adds_concept h0 (heap s') c ∧
    stdout s' = stdout s ∧ stderr s' = stderr s.
Proof.
  induction calls as [|[np tp] calls IH]; intros s r L Hgrant Hlive Hadds Hvalid Hsub Hlen.
  { exists s, r, L. by split_and!. }
  apply Forall_cons in Hvalid as [[Hnp Htp] Hvalid]. simpl in Hnp, Htp.
  destruct Hnp as [str Hstr], Htp as [t ->]. simpl in *.
  apply str_at_Some in Hstr. destruct np as [n|]; [|done]. simpl in Hstr.
  destruct (add_slot_adds h0 c n t s r L str)
    as (s1 & r1 & q & Hrun & Hlive1 & Hadds1 & Hkeep & Hout & Herr);
    [done|done|done|by apply Hsub|lia|].
  destruct (IH s1 r1 (L ++ [mkSlot q (Some t)]))
    as (s' & r' & L' & Hrun' & Hlive' & Hadds' & Hout' & Herr');
    [done|done|done|done| |rewrite length_app; simpl; lia|].
  { intros x b Hx. apply (Hkeep x b Hx). by apply Hsub. }
  exists s', r', L'. erewrite bind_run by exact Hrun.
  split_and!; try done; congruence.
Qed.

(** X10.  Nothing leaks and nothing else is lost.  With the allocator
    granting, creating a concept from two C strings, appending any
    sequence of at most 2^30 slots whose names are C strings of the
    caller, and tearing the concept down all return, and the machine is
    then exactly where it started: the same heap, block for block, and
    the same streams.  Every block the three operations allocated has
    been released, once, and no block of the caller has been touched. *)
Theorem create_add_free_restores `{Allocator} (id type : ptr)
    (calls : list (ptr * ptr)) (s : state) :
  granting →
  is_Some (str_at (heap s) id) → is_Some (str_at (heap s) type) →
  Forall (valid_call (heap s)) calls →
  Z.of_nat (length calls) ≤ 2 ^ 30 →
  ∃ c s1 s2,
    create_concept id type s = Ret (Some c) s1 ∧
    add_slots (Some c) calls s1 = Ret tt s2 ∧
    free_concept (Some c) s2 = Ret tt s.
Proof.
  intros Hgrant [s_id Hid] [s_type Hty] Hvalid Hlen.
  pose proof (create_concept_cases id type s s_id s_type Hid Hty) as Hrun.
  cbv zeta in Hrun. rewrite !Hgrant in Hrun. simpl in Hrun.
  pose proof (alloc_pick_fresh (heap s)) as Hc.
  remember (alloc_pick (heap s)) as c eqn:Hce.
  pose proof (alloc_pick_fresh (<[c := BUninit]> (heap s))) as Ha.
  remember (alloc_pick (<[c := BUninit]> (heap s))) as a eqn:Hae.
  pose proof (alloc_pick_fresh (<[a := BStr s_id]> (<[c := BUninit]> (heap s)))) as Hb.
  remember (alloc_pick (<[a := BStr s_id]> (<[c := BUninit]> (heap s)))) as b eqn:Hbe.
  apply lookup_insert_None in Ha as [Ha Hac].
  apply lookup_insert_None in Hb as [Hb Hba].
  apply lookup_insert_None in Hb as [Hb Hbc].
  clear Hce Hae Hbe.
  remember (<[c := BConcept (mkConcept (Some a) (Some b) NULL 0 0)]>
              (<[b := BStr s_type]> (<[a := BStr s_id]> (<[c := BUninit]> (heap s)))))
    as h1 eqn:Hh1.
  assert (∀ x, x ≠ c → x ≠ a → x ≠ b → h1 !! x = heap s !! x) as Hsame.
  { intros x ???. subst h1. by rewrite !lookup_insert_ne by done. }
  assert (h1 !! a = Some (BStr s_id) ∧ h1 !! b = Some (BStr s_type) ∧
          h1 !! c = Some (BConcept (mkConcept (Some a) (Some b) NULL 0 0)))
    as (Ha1 & Hb1 & Hc1).
  { subst h1. rewrite lookup_insert_eq.
    rewrite (lookup_insert_ne _ c a), (lookup_insert_ne _ b a), lookup_insert_eq by done.
    by rewrite (lookup_insert_ne _ c b), lookup_insert_eq by done. }
  clear Hh1.
  set (s1 := set_heap (λ _, h1) s) in *.
  assert (live h1 c (mkConcept (Some a) (Some b) NULL 0 0) []) as Hlive.
  { split_and!; simpl; try done. exists []. by split_and!. }
  assert (released h1 c = [a; b; c]) as Hrel.
  { unfold released. rewrite (owned_unfold _ _ _ Hc1). reflexivity. }
  assert (adds_concept (heap s) h1 c) as Hadds.
  { split.
    - rewrite Hrel. repeat (apply NoDup_cons; split); try apply NoDup_nil_2;
        set_solver.
    - intros x. rewrite Hrel. case_decide as Hx; simpl.
      + rewrite !elem_of_cons in Hx. destruct Hx as [->|[->|[->|Hx]]];
          [by rewrite Ha1|by rewrite Hb1|by rewrite Hc1|by apply elem_of_nil in Hx].
      + rewrite !elem_of_cons in Hx. apply Hsame; naive_solver. }
  destruct (add_slots_adds (heap s) c calls s1 _ [] Hgrant Hlive Hadds)
    as (s2 & r2 & L2 & Hrun2 & Hlive2 & [Hnd2 Hadds2] & Hout2 & Herr2).
  { eapply Forall_impl; [exact Hvalid|]. by intros [p q] [? ?]. }
  { intros x blk Hx. simpl. rewrite Hsame; [done|..]; congruence. }
  { simpl. lia. }
  destruct (free_concept_run c r2 L2 s2) as [s3 Hrun3]; [done|..].
  { unfold released in Hnd2. by apply NoDup_app in Hnd2 as (? & _). }
  { intros y Hy. specialize (Hadds2 y).
    assert (y ∈ released (heap s2) c) as Hin by (apply elem_of_app; by left).
    rewrite decide_True in Hadds2 by done. split; [apply Hadds2|].
    intros ->. unfold released in Hnd2. apply NoDup_app in Hnd2 as (_ & Hd & _).
    apply (Hd c Hy). by apply list_elem_of_singleton. }
  exists c, s1, s2. split_and!; [done|done|].
  rewrite Hrun3. f_equal.
  pose proof (free_concept_Ret _ _ _ _ Hrun3) as (_ & Hout3 & Herr3).
  apply free_concept_lookup in Hrun3 as [_ Hlook].
  assert (heap s3 = heap s) as Hheap.
  { apply map_eq. intros x. rewrite Hlook. specialize (Hadds2 x).
    case_decide; [by destruct Hadds2|done]. }
  destruct s3 as [h3 o3 e3], s as [h o e]. simpl in *. congruence.
Qed.

Lemma create_add_free_restores_witness :
  ∃ c s1 s2,
    create_concept (Some lit_john) (Some lit_Person) two_concepts = Ret (Some c) s1 ∧
    add_slots (Some c) nine_calls s1 = Ret tt s2 ∧
    free_concept (Some c) s2 = Ret tt two_concepts.
Proof.
  apply (create_add_free_restores (Some lit_john) (Some lit_Person) nine_calls
           two_concepts).
  - exact generous_granting.
  - eexists. reflexivity.
  - eexists. reflexivity.
  - repeat constructor; eexists; reflexivity.
  - vm_compute. discriminate.
Defined.

(** ** Appending and printing *)

Section RenderMono.
Variables h h' : gmap positive block.
Hypothesis strings_kept : ∀ x str, h !! x = Some (BStr str) → h' !! x = Some (BStr str).
Hypothesis ids_kept : ∀ x rx, h !! x = Some (BConcept rx) →
  ∃ rx', h' !! x = Some (BConcept rx') ∧ id rx' = id rx.

Lemma str_at_mono p str : str_at h p = Some str → str_at h' p = Some str.
Proof.
  rewrite !str_at_Some. destruct p as [x|]; simpl; [|done]. apply strings_kept.
Qed.

Lemma render_target_mono t text :
  render_target h t = Some text → render_target h' t = Some text.
Proof.
  unfold render_target, concept_at. destruct t as [x|]; [|done]. simpl.
  destruct (h !! x) as [[| |tr|]|] eqn:Hx; try done.
  destruct (ids_kept x tr Hx) as (tr' & -> & ->). apply str_at_mono.
Qed.

Lemma render_slot_mono i sl text :
  render_slot h i sl = Some text → render_slot h' i sl = Some text.
Proof.
  unfold render_slot.
  destruct (str_at h (name sl)) as [s_name|] eqn:Hn; [|done].
  destruct (render_target h (target sl)) as [s_tid|] eqn:Ht; [|done].
  by rewrite (str_at_mono _ _ Hn), (render_target_mono _ _ Ht).
Qed.

Lemma render_slots_mono L : ∀ i text,
  render_slots h i L = Some text → render_slots h' i L = Some text.
Proof.
  induction L as [|sl L IH]; intros i text; simpl; [done|].
  destruct (render_slot h i sl) as [t1|] eqn:H1; [|done].
  destruct (render_slots h (i + 1) L) as [rest|] eqn:Hrest; [|done].
  by rewrite (render_slot_mono _ _ _ H1), (IH _ _ Hrest).
Qed.

Lemma render_mono x r text :
  h !! x = Some (BConcept r) → h' !! x = Some (BConcept r) →
  (∀ y, slots r = Some y → h' !! y = h !! y) →
  render h x = Some text → render h' x = Some text.
Proof.
  intros Hx Hx' Harr. unfold render. rewrite Hx, Hx'.
  destruct (str_at h (id r)) as [s_id|] eqn:Hid; [|done].
  destruct (str_at h (types r)) as [s_ty|] eqn:Hty; [|done].
  rewrite (str_at_mono _ _ Hid), (str_at_mono _ _ Hty).
  assert (committed h' r = committed h r) as ->.
  { unfold committed, cells_at, deref. destruct (slots r) as [y|]; [|done].
    by rewrite Harr. }
  destruct (committed h r) as [L|]; [|done]. case_decide; [|done].
  destruct (render_slots h 1 L) as [body|] eqn:Hbody; [|done].
  by rewrite (render_slots_mono _ _ _ Hbody).
Qed.
End RenderMono.

Lemma render_live h c r L s_id s_types body :
  live h c r L →
  str_at h (id r) = Some s_id → str_at h (types r) = Some s_types →
  render_slots h 1 L = Some body →
  render h c = Some (header_text s_id s_types (slot_count r) +:+ body).
Proof.
  intros Hlive Hid Hty Hbody. unfold render.
  pose proof Hlive as (-> & Hcount & Hmax & cells & _ & Hcap & Htake).
  rewrite Hid, Hty, (live_committed _ _ _ _ Hlive), Hbody.
  rewrite decide_True.
  - unfold header_text. by rewrite !append_assoc.
  - destruct (live_bounds _ _ _ _ Hlive) as [? _]. lia.
Qed.

(** X11.  Appending and then printing shows the old slots and then the new
    one.  With the allocator granting, on a live concept with fewer than
    2^30 slots whose id, type and slots can be printed, [add_slot] with a
    name that is a C string and a target that is a concept with an id
    (another concept or the concept itself) returns, and [print_concept]
    then writes the header with the count one higher, the text of the old
    slots exactly as before, and last the new slot: its ordinal is the new
    count, its name the caller's string, its target the target's id. *)
Theorem append_then_print `{Allocator} (c n t : loc) (s : state) (r tr : Concept)
    (L : list Slot) (s_id s_types body str s_tid : string) :
  granting →
  live (heap s) c r L →
  Z.of_nat (length L) < 2 ^ 30 →
  str_at (heap s) (id r) = Some s_id →
  str_at (heap s) (types r) = Some s_types →
  render_slots (heap s) 1 L = Some body →
  heap s !! n = Some (BStr str) →
  heap s !! t = Some (BConcept tr) →
  str_at (heap s) (id tr) = Some s_tid →
  ∃ s1,
    add_slot (Some c) (Some n) (Some t) s = Ret tt s1 ∧
    print_concept (Some c) s1 =
    Ret tt (mkState (heap s1)
              (stdout s +:+
               (header_text s_id s_types (slot_count r + 1) +:+ body +:+
                slot_text (slot_count r + 1) str s_tid))
              (stderr s)).
Proof.
  intros Hgrant Hlive Hlen Hid Hty Hbody Hn Ht Htid.
  destruct (add_slot_live c n t s r L str)
    as (s1 & r1 & a & Hrun & Hlive1 & Ha & _ & Hid1 & Hty1 & _ & Hframe & Hout & Herr);
    [done..|].
  exists s1. split; [done|].
  pose proof Hlive as (Hc & Hcount & _ & cells & Harr & _).
  pose proof Hlive1 as (Hc1 & Hcount1 & _).
  assert (∀ x str, heap s !! x = Some (BStr str) → heap s1 !! x = Some (BStr str))
    as Hstrs.
  { intros x str' Hx. apply Hframe; [done|congruence|]. intros Hs.
    rewrite Hs in Harr. simpl in Harr. congruence. }
  assert (∀ x rx, heap s !! x = Some (BConcept rx) →
            ∃ rx', heap s1 !! x = Some (BConcept rx') ∧ id rx' = id rx) as Hids.
  { intros x rx Hx. destruct (decide (x = c)) as [->|Hxc].
    - exists r1. split; [done|]. congruence.
    - exists rx. split; [|done]. apply Hframe; [done..|]. intros Hs.
      rewrite Hs in Harr. simpl in Harr. congruence. }
  rewrite print_concept_run.
  rewrite (render_live _ _ _ _ s_id s_types
             (body +:+ slot_text (slot_count r + 1) str s_tid) Hlive1).
  - assert (slot_count r1 = slot_count r + 1) as ->.
    { rewrite Hcount1, Hcount, length_app. simpl. lia. }
    by rewrite Hout, Herr.
  - rewrite Hid1. by apply (str_at_mono (heap s)).
  - rewrite Hty1. by apply (str_at_mono (heap s)).
  - rewrite render_slots_app. rewrite (render_slots_mono (heap s) _ Hstrs Hids _ _ _ Hbody).
    simpl. unfold render_slot. simpl. unfold str_at at 1. simpl. rewrite Ha.
    unfold concept_at. simpl. destruct (Hids t tr Ht) as (tr' & -> & ->).
    rewrite (str_at_mono (heap s) _ Hstrs _ _ Htid).
    rewrite Hcount. unfold slot_text. rewrite append_empty_r.
    by rewrite (Z.add_comm 1).
Qed.

Lemma append_then_print_witness :
  ∃ s1,
    add_slot (Some book) (Some lit_owns) (Some john) linked = Ret tt s1 ∧
    print_concept (Some book) s1 =
    Ret tt (mkState (heap s1)
              (stdout linked +:+
               (header_text "book" "Object" (0 + 1) +:+ EmptyString +:+
                slot_text (0 + 1) "owns" "john"))
              (stderr linked)).
Proof.
  apply (append_then_print book lit_owns john linked
           (mkConcept (Some 10%positive) (Some 11%positive) NULL 0 0)
           (mkConcept (Some 7%positive) (Some 8%positive) (Some 12%positive) 1 2)
           []).
  - exact generous_granting.
  - split_and!; [vm_compute; reflexivity|reflexivity|unfold INT_MAX; simpl; lia|].
    exists []. split_and!; reflexivity.
  - simpl. lia.
  - vm_compute. reflexivity.
  - vm_compute. reflexivity.
  - reflexivity.
  - vm_compute. reflexivity.
  - vm_compute. reflexivity.
  - vm_compute. reflexivity.
Defined.

Lemma create_concept_frame `{Allocator} id type s p s' :
  create_concept id type s = Ret p s' →
  ∀ x blk, heap s !! x = Some blk → heap s' !! x = Some blk.
Proof.
  intros (i & t & _ & _ & _ & _ & _ & -> & ->)%create_concept_Ret x blk Hx.
  cbv zeta. simpl.
  pose proof (alloc_pick_fresh (heap s)) as Hc.
  remember (alloc_pick (heap s)) as c eqn:Hce.
  pose proof (alloc_pick_fresh (<[c := BUninit]> (heap s))) as Ha.
  remember (alloc_pick (<[c := BUninit]> (heap s))) as a eqn:Hae.
  pose proof (alloc_pick_fresh (<[a := BStr i]> (<[c := BUninit]> (heap s)))) as Hb.
  remember (alloc_pick (<[a := BStr i]> (<[c := BUninit]> (heap s)))) as b eqn:Hbe.
  apply lookup_insert_None in Ha as [Ha Hac].
  apply lookup_insert_None in Hb as [Hb Hba].
  apply lookup_insert_None in Hb as [Hb Hbc].
  by rewrite !lookup_insert_ne by congruence.
Qed.

(** X12.  In a sound store, constructing a concept and appending to one
    never change what another concept prints.  Whenever [create_concept]
    returns, every concept that had a text has the same text; whenever
    [add_slot] returns, every concept other than the one appended to has
    the same text as before, also when one of its slots has the grown
    concept as target.  This holds for every allocator. *)
Theorem other_texts_kept `{Allocator} (s : state) :
  sound_store (heap s) →
  (∀ id type p s' x text,
     create_concept id type s = Ret p s' →
     render (heap s) x = Some text → render (heap s') x = Some text) ∧
  (∀ concept slot_name target s' x text,
     add_slot concept slot_name target s = Ret tt s' →
     concept ≠ Some x →
     render (heap s) x = Some text → render (heap s') x = Some text).
Proof.
  intros Hsound. split.
  - intros id type p s' x text Hrun Hr.
    pose proof (create_concept_frame _ _ _ _ _ Hrun) as Hframe.
    destruct (heap s !! x) as [[| |r|]|] eqn:Hx;
      try (unfold render in Hr; by rewrite Hx in Hr).
    apply (render_mono (heap s) (heap s')) with (r := r); auto.
    + intros y ry Hy. exists ry. auto.
    + intros y Hy. pose proof Hsound as [[Hty _] _].
      destruct (Hty x r Hx) as [_ Harr]. destruct (Harr y Hy) as [cells Hcells].
      by rewrite Hcells, (Hframe _ _ Hcells).
  - intros concept slot_name target s' x text Hrun Hne Hr.
    destruct concept as [c|], slot_name as [n|], target as [t|];
      try by injection Hrun as <-.
    assert (x ≠ c) as Hxc by congruence.
    destruct (add_slot_inv _ _ _ _ _ _ Hrun)
      as (r & str & q & arr & old & new & Hc & Hn & Hold & Hc' & Harr' & Hi & Hmax
          & Hnew & Hsame & Hcapn & Hq & Hframe & Hback & Hout & Herr & _).
    pose proof Hsound as [Hwf _]. pose proof Hwf as [Hty Hex].
    destruct (heap s !! x) as [[| |rx|]|] eqn:Hx;
      try (unfold render in Hr; by rewrite Hx in Hr).
    assert (∀ y b, heap s !! y = Some b → (∀ cells, b ≠ BSlots cells) → y ≠ c →
                   heap s' !! y = Some b) as Hkeep.
    { intros y b Hy Hb Hyc. apply Hframe; [done..|]. intros Hs.
      rewrite Hs in Hold. simpl in Hold. rewrite Hy in Hold. injection Hold as ->.
      by eapply Hb. }
    apply (render_mono (heap s) (heap s')) with (r := rx); auto.
    + intros y str' Hy. apply Hkeep; [done|done|congruence].
    + intros y ry Hy. destruct (decide (y = c)) as [->|Hyc].
      * eexists. split; [exact Hc'|]. simpl. congruence.
      * exists ry. split; [|done]. by apply Hkeep.
    + intros y Hy. destruct (Hty x rx Hx) as [_ Harr].
      destruct (Harr y Hy) as [cells Hcells]. rewrite Hcells.
      apply Hframe; [done|congruence|]. intros Hs. apply Hxc.
      apply (Hex x c y); by eapply owned_slots.
Qed.

Lemma other_texts_kept_witness :
  render (heap (after (create_concept (Some lit_john) (Some lit_Person)) linked)) john
    = Some demo_text ∧
  render (heap cyclic) john = Some demo_text.
Proof.
  destruct (other_texts_kept linked) as [Hcreate Hadd].
  - apply (sound_api_runs
             [CreateConcept (Some lit_john) (Some lit_Person);
              CreateConcept (Some lit_book) (Some lit_Object);
              AddSlot (Some john) (Some lit_owns) (Some book)] boot tt).
    + vm_compute. reflexivity.
    + apply sound_store_concept_free, (bool_decide_unpack _). vm_compute. exact I.
  - split.
    + apply (Hcreate (Some lit_john) (Some lit_Person) (Some 14%positive)).
      * vm_compute. reflexivity.
      * vm_compute. reflexivity.
    + apply (Hadd (Some book) (Some lit_owns) (Some john)).
      * vm_compute. reflexivity.
      * discriminate.
      * vm_compute. reflexivity.
Defined.

(** ** The capacity stays within twice the count *)

Lemma capacity_after_bounds n : ∀ count capacity,
  (count = 0 ∧ capacity = 0 ∨
   (∃ k, 1 ≤ k ∧ capacity = 2 ^ k) ∧ 1 ≤ count ≤ capacity ∧
   (count = 1 → capacity = 2) ∧ (2 ≤ count → capacity < 2 * count)) →
  let capacity' := capacity_after n count capacity in
  let count' := count + Z.of_nat n in
  count' = 0 ∧ capacity' = 0 ∨
  (∃ k, 1 ≤ k ∧ capacity' = 2 ^ k) ∧ 1 ≤ count' ≤ capacity' ∧
  (count' = 1 → capacity' = 2) ∧ (2 ≤ count' → capacity' < 2 * count').
Proof.
  induction n as [|n IH]; intros count capacity Hinv; cbv zeta.
  { simpl. by rewrite Z.add_0_r. }
  simpl capacity_after.
  replace (count + Z.of_nat (S n)) with (count + 1 + Z.of_nat n) by lia.
  apply (IH (count + 1) (next_capacity count capacity)). right.
  unfold next_capacity, new_capacity_of.
  destruct Hinv as [[-> ->]|([k [Hk ->]] & Hc & H1 & H2)]; simpl.
  { split_and!; try lia. exists 1. split; [lia|done]. }
  assert (0 < 2 ^ k) by (apply Z.pow_pos_nonneg; lia).
  destruct (Z.leb_spec (2 ^ k) count).
  - destruct (Z.eqb_spec (2 ^ k) 0); [lia|]. split_and!; try lia.
    exists (k + 1). split; [lia|]. rewrite Z.pow_add_r by lia. lia.
  - split_and!; try lia. eauto.
Qed.

(** X13.  The slot array is never more than twice as long as it need be.
    With the allocator granting, a concept made by [create_concept] and
    then appended to [n] times, [1 <= n <= 2^30], has count [n] and a
    capacity that is a power of two, at least 2 and at least [n]; from the
    second append on the capacity is below [2 * n], so fewer than [n]
    cells of the array are unused. *)
Theorem capacity_within_twice `{Allocator} (id type : ptr)
    (calls : list (ptr * ptr)) (s : state) :
  granting →
  is_Some (str_at (heap s) id) → is_Some (str_at (heap s) type) →
  Forall (valid_call (heap s)) calls →
  1 ≤ Z.of_nat (length calls) ≤ 2 ^ 30 →
  ∃ c s0 s' r',
    create_concept id type s = Ret (Some c) s0 ∧
    add_slots (Some c) calls s0 = Ret tt s' ∧
    heap s' !! c = Some (BConcept r') ∧
    slot_count r' = Z.of_nat (length calls) ∧
    (∃ k, 1 ≤ k ∧ slot_capacity r' = 2 ^ k) ∧
    slot_count r' ≤ slot_capacity r' ∧
    (2 ≤ slot_count r' → slot_capacity r' < 2 * slot_count r').
Proof.
  intros Hgrant Hid Hty Hvalid Hlen.
  destruct (create_concept_live id type s)
    as (c & r & s0 & Hrun & Hlive & Hn0 & Hc0 & Hsub); [done..|].
  destruct (add_slots_live c calls s0 r [] Hlive)
    as (s' & r' & L & Hrun' & Hlive' & Hall & _ & _ & _ & _ & Hcap & _);
    [|done|simpl; lia|].
  { eapply Forall_impl; [exact Hvalid|]. intros call. by apply valid_call_mono. }
  exists c, s0, s', r'. simpl in Hlive'. pose proof Hlive' as (Hc' & Hcount & _).
  apply Forall2_length in Hall. rewrite Hall in Hcount.
  rewrite Hn0, Hc0 in Hcap.
  destruct (capacity_after_bounds (length calls) 0 0) as [[? _]|(Hk & Hb & _ & H2)];
    [by left|lia|].
  simpl in Hb, H2. rewrite <- Hcap in Hk, Hb, H2.
  split_and!; try done; try lia.
Qed.

Lemma capacity_within_twice_witness :
  ∃ c s0 s' r',
    create_concept (Some lit_john) (Some lit_Person) boot = Ret (Some c) s0 ∧
    add_slots (Some c) nine_calls s0 = Ret tt s' ∧
    heap s' !! c = Some (BConcept r') ∧
    slot_count r' = Z.of_nat (length nine_calls) ∧
    (∃ k, 1 ≤ k ∧ slot_capacity r' = 2 ^ k) ∧
    slot_count r' ≤ slot_capacity r' ∧
    (2 ≤ slot_count r' → slot_capacity r' < 2 * slot_count r').
Proof.
  apply (capacity_within_twice (Some lit_john) (Some lit_Person) nine_calls boot).
  - exact generous_granting.
  - eexists. reflexivity.
  - eexists. reflexivity.
  - repeat constructor; eexists; reflexivity.
  - simpl. lia.
Defined.

(** ** [main] under an allocator that may refuse *)

Lemma create_concept_either `{Allocator} id type s s_id s_type :
  str_at (heap s) id = Some s_id →
  str_at (heap s) type = Some s_type →
  (∃ s', create_concept id type s = Exit 1 s' ∧ stdout s' = stdout s ∧
         (stderr s' = stderr s +:+ msg_concept ∨
          stderr s' = stderr s +:+ msg_strings)) ∨
  (∃ c a b s',
     create_concept id type s = Ret (Some c) s' ∧
     heap s' !! c = Some (BConcept (mkConcept (Some a) (Some b) NULL 0 0)) ∧
     heap s' !! a = Some (BStr s_id) ∧ heap s' !! b = Some (BStr s_type) ∧
     heap s !! c = None ∧ a ≠ b ∧ a ≠ c ∧ b ≠ c ∧
     (∀ x blk, heap s !! x = Some blk → heap s' !! x = Some blk) ∧
     stdout s' = stdout s ∧ stderr s' = stderr s).
Proof.
  intros Hid Hty. rewrite (create_concept_cases id type s s_id s_type) by done.
  destruct (alloc_grant (heap s) BUninit);
    [|left; eexists; split; [done|]; simpl; auto].
  destruct (_ && _); [|left; eexists; split; [done|]; simpl; auto].
  right.
  pose proof (alloc_pick_fresh (heap s)) as Hc.
  remember (alloc_pick (heap s)) as c eqn:Hce.
  pose proof (alloc_pick_fresh (<[c := BUninit]> (heap s))) as Ha.
  remember (alloc_pick (<[c := BUninit]> (heap s))) as a eqn:Hae.
  pose proof (alloc_pick_fresh (<[a := BStr s_id]> (<[c := BUninit]> (heap s)))) as Hb.
  remember (alloc_pick (<[a := BStr s_id]> (<[c := BUninit]> (heap s)))) as b eqn:Hbe.
  apply lookup_insert_None in Ha as [Ha Hac].
  apply lookup_insert_None in Hb as [Hb Hba].
  apply lookup_insert_None in Hb as [Hb Hbc].
  clear Hce Hae Hbe.
  exists c, a, b. eexists. split; [done|]. simpl.
  rewrite lookup_insert_eq.
  rewrite (lookup_insert_ne _ c a), (lookup_insert_ne _ b a), lookup_insert_eq by done.
  rewrite (lookup_insert_ne _ c b), lookup_insert_eq by done.
  split_and!; try done.
  intros x blk Hx. rewrite !lookup_insert_ne by congruence. done.
Qed.

(** X14.  [main] for every allocator, started with its five string
    literals in memory.  Either it returns 0, and then it has written the
    whole text of the scenario to [stdout] and nothing to [stderr]; or it
    exits with status 1, and then it has written nothing to [stdout] and
    one diagnostic to [stderr]: [main] never prints part of the text.
    Its behaviour can be undefined only under an allocator that refuses a
    request. *)
Theorem main_outcome `{Allocator} (s : state) :
  main_image ⊆ heap s →
  match main s with
  | Ret v s' => v = 0 ∧ stdout s' = stdout s +:+ demo_text ∧ stderr s' = stderr s
  | Exit code s' =>
      code = 1 ∧ stdout s' = stdout s ∧
      (stderr s' = stderr s +:+ msg_concept ∨
       stderr s' = stderr s +:+ msg_strings ∨
       stderr s' = stderr s +:+ msg_slots)
  | Undef => ¬ granting
  end.
Proof.
  intros Himg.
  assert (∀ x blk, main_image !! x = Some blk → heap s !! x = Some blk) as Hlit.
  { intros x blk Hx. by eapply lookup_weaken. }
  unfold main.
  destruct (create_concept_either (Some lit_john) (Some lit_Person) s "john" "Person")
    as [(s' & Hrun1 & Hout1 & Herr1)
       |(john & a1 & b1 & s1 & Hrun1 & Hc1 & Ha1 & Hb1 & Hfc1 & _ & Ha1c & _
         & Hframe1 & Hout1 & Herr1)].
  { apply str_at_Some. by apply Hlit. }
  { apply str_at_Some. by apply Hlit. }
  { unfold bind at 1. rewrite Hrun1. split_and!; [done|done|tauto]. }
  erewrite bind_run by exact Hrun1.
  destruct (create_concept_either (Some lit_book) (Some lit_Object) s1 "book" "Object")
    as [(s' & Hrun2 & Hout2 & Herr2)
       |(book & a2 & b2 & s2 & Hrun2 & Hc2 & Ha2 & Hb2 & Hfc2 & _ & Ha2c & _
         & Hframe2 & Hout2 & Herr2)].
  { apply str_at_Some. by apply Hframe1, Hlit. }
  { apply str_at_Some. by apply Hframe1, Hlit. }
  { unfold bind at 1. rewrite Hrun2. rewrite Hout2, Hout1.
    destruct Herr2 as [-> | ->]; rewrite Herr1; split_and!; tauto. }
  erewrite bind_run by exact Hrun2.
  assert (john ≠ book) as Hjb by congruence.
  pose proof (Hframe2 _ _ Hc1) as Hj2.
  assert (live (heap s2) john (mkConcept (Some a1) (Some b1) NULL 0 0) []) as Hlive.
  { split_and!; [done|done|done|]. exists []. by split_and!. }
  destruct (add_slot_defined john lit_owns book s2 _ [] "owns" Hlive)
    as [(_ & _ & Hrun3)|[_ [s3 Hrun3]]].
  { by apply Hframe2, Hframe1, Hlit. }
  { simpl. lia. }
  { unfold bind at 1. rewrite Hrun3. simpl. rewrite Hout2, Hout1, Herr2, Herr1. tauto. }
  erewrite bind_run by exact Hrun3.
  destruct (add_slot_live_inv _ _ _ _ _ _ _ _ Hrun3 Hlive)
    as (q & arr & Hlive3 & Hq & Harr & Hexact & Hout3 & Herr3).
  simpl in Hlive3, Hexact, Harr.
  unfold bind at 1. rewrite print_concept_run.
  destruct Hq as [[-> Hno]|(a3 & str & -> & Hstr & Ha3 & Ha3arr & Ha3c & Ha3f)].
  { by rewrite (render_nameless _ _ _ [] _ Hlive3). }
  assert (str = "owns") as ->.
  { pose proof (Hframe2 _ _ (Hframe1 _ _ (Hlit lit_owns _ eq_refl))). congruence. }
  destruct Harr as [Harr|?]; [|done]. destruct Ha3f as [Ha3f|?]; [|done].
  assert (∀ x blk, heap s2 !! x = Some blk → x ≠ john → heap s3 !! x = Some blk)
    as Hkeep.
  { intros x blk Hx Hxj. rewrite Hexact; [done|done|congruence|congruence]. }
  assert (render (heap s3) john = Some demo_text) as ->.
  { rewrite (render_live _ _ _ _ "john" "Person"
               (slot_text 1 "owns" "book") Hlive3); simpl.
    - reflexivity.
    - apply str_at_Some. simpl. apply Hkeep; [by apply Hframe2|done].
    - apply str_at_Some. simpl. apply Hkeep; [by apply Hframe2|congruence].
    - unfold render_slot, str_at. simpl. rewrite Ha3.
      unfold concept_at, str_at. simpl.
      rewrite (Hkeep book _ Hc2) by done. simpl.
      rewrite (Hkeep a2 _ Ha2) by congruence.
      unfold slot_text. by rewrite append_empty_r. }
  simpl. rewrite Hout3, Hout2, Hout1, Herr3, Herr2, Herr1. done.
Qed.

Lemma main_outcome_witness :
  match @main (picky (long_string 5)) boot with
  | Ret v s' => v = 0 ∧ stdout s' = stdout boot +:+ demo_text ∧ stderr s' = stderr boot
  | Exit code s' =>
      code = 1 ∧ stdout s' = stdout boot ∧
      (stderr s' = stderr boot +:+ msg_concept ∨
       stderr s' = stderr boot +:+ msg_strings ∨
       stderr s' = stderr boot +:+ msg_slots)
  | Undef => ¬ @granting (picky (long_string 5))
  end.
Proof. apply (@main_outcome (picky (long_string 5)) boot). reflexivity. Defined.

(** With the copy of ["john"] refused and the copy of ["Person"] granted,
    [main] exits in its first [create_concept]. *)
Example main_id_refused :
  @main (picky (long_string 5)) boot =
  Exit 1 (mkState (heap boot) (stdout boot) (stderr boot +:+ msg_strings)).
Proof. vm_compute. reflexivity. Qed.

(** ** Teardown in any order *)

Lemma released_after_free c1 c2 r2 s u s1 :
  sound_store (heap s) → free_concept (Some c1) s = Ret u s1 → c2 ≠ c1 →
  heap s !! c2 = Some (BConcept r2) →
  heap s1 !! c2 = Some (BConcept r2) ∧ released (heap s1) c2 = released (heap s) c2.
Proof.
  intros [Hwf _] Hrun Hne Hc2. pose proof Hwf as [Hty Hex].
  apply free_concept_lookup in Hrun as [[r1 Hc1] Hlook].
  assert (∀ y, y ∈ owned (heap s) c2 ∨ y = c2 → heap s1 !! y = heap s !! y) as Hsame.
  { intros y Hy. rewrite Hlook, decide_False; [done|]. unfold released.
    rewrite elem_of_app, list_elem_of_singleton. intros [Hy1| ->].
    - destruct Hy as [Hy| ->]; [by apply Hne, (Hex c2 c1 y)|].
      by apply (owned_not_concept _ _ _ r2 Hwf) in Hy1.
    - destruct Hy as [Hy| ->]; [|done].
      by apply (owned_not_concept _ _ _ r1 Hwf) in Hy. }
  assert (heap s1 !! c2 = Some (BConcept r2)) as Hc2' by (rewrite Hsame; auto).
  split; [done|]. unfold released. f_equal.
  apply (owned_agree (heap s) (heap s1) c2 r2); [done..|].
  intros y Hy. apply Hsame. left. by eapply owned_slots.
Qed.

(** X15.  Teardown commutes.  In a sound store, two different concepts can
    be torn down in either order: both calls return either way, and the
    machine ends in the same state, whatever the two concepts' slots point
    to (each other included). *)
Theorem teardown_commutes (c1 c2 : loc) (r1 r2 : Concept) (s : state) :
  sound_store (heap s) →
  c1 ≠ c2 →
  heap s !! c1 = Some (BConcept r1) →
  heap s !! c2 = Some (BConcept r2) →
  ∃ s1 s2 s',
    free_concept (Some c1) s = Ret tt s1 ∧ free_concept (Some c2) s1 = Ret tt s' ∧
    free_concept (Some c2) s = Ret tt s2 ∧ free_concept (Some c1) s2 = Ret tt s'.
Proof.
  intros Hsound Hne Hc1 Hc2.
  assert (∀ c r (s0 : state), sound_store (heap s0) → heap s0 !! c = Some (BConcept r) →
            ∃ s', free_concept (Some c) s0 = Ret tt s') as Htotal.
  { intros c r s0 Hs0 Hc. pose proof Hs0 as [_ Htidy].
    destruct (Htidy c r Hc) as [(L & Hlive & _) Hnd].
    apply (free_concept_run c r L s0 Hlive Hnd).
    intros y Hy. by eapply sound_owned_allocated. }
  destruct (Htotal c1 r1 s Hsound Hc1) as [s1 Hrun1].
  destruct (Htotal c2 r2 s Hsound Hc2) as [s2 Hrun2].
  destruct (released_after_free c1 c2 r2 s tt s1) as [Hc2' Hrel2]; [done..|].
  destruct (released_after_free c2 c1 r1 s tt s2) as [Hc1' Hrel1]; [done..|].
  destruct (Htotal c2 r2 s1) as [s12 Hrun12]; [by eapply sound_free_concept|done|].
  destruct (Htotal c1 r1 s2) as [s21 Hrun21]; [by eapply sound_free_concept|done|].
  exists s1, s2, s12. split_and!; [done..|]. rewrite Hrun21. f_equal.
  pose proof (free_concept_Ret _ _ _ _ Hrun1) as (_ & Ho1 & He1).
  pose proof (free_concept_Ret _ _ _ _ Hrun2) as (_ & Ho2 & He2).
  pose proof (free_concept_Ret _ _ _ _ Hrun12) as (_ & Ho12 & He12).
  pose proof (free_concept_Ret _ _ _ _ Hrun21) as (_ & Ho21 & He21).
  apply free_concept_lookup in Hrun1 as [_ Hl1].
  apply free_concept_lookup in Hrun2 as [_ Hl2].
  apply free_concept_lookup in Hrun12 as [_ Hl12].
  apply free_concept_lookup in Hrun21 as [_ Hl21].
  assert (heap s21 = heap s12) as Hheap.
  { apply map_eq. intros x. rewrite Hl21, Hl12, Hl1, Hl2, Hrel1, Hrel2.
    by repeat case_decide. }
  destruct s21 as [h21 o21 e21], s12 as [h12 o12 e12]. simpl in *. congruence.
Qed.

Lemma teardown_commutes_witness :
  ∃ s1 s2 s',
    free_concept (Some john) cyclic = Ret tt s1 ∧
    free_concept (Some book) s1 = Ret tt s' ∧
    free_concept (Some book) cyclic = Ret tt s2 ∧
    free_concept (Some john) s2 = Ret tt s'.
Proof.
  apply (teardown_commutes john book
           (mkConcept (Some 7%positive) (Some 8%positive) (Some 12%positive) 1 2)
           (mkConcept (Some 10%positive) (Some 11%positive) (Some 14%positive) 1 2)
           cyclic).
  - exact cyclic_sound.
  - discriminate.
  - vm_compute. reflexivity.
  - vm_compute. reflexivity.
Defined.

(** ** Arguments and sizes that are not checked *)

(** X16.  [create_concept] does not check its arguments, unlike
    [add_slot].  With a [NULL] id or a [NULL] type its behaviour is
    undefined as soon as the record has been allocated ([strdup] is handed
    the null pointer); only when the allocator refuses the record does the
    call end before, with the exit of the allocation failure. *)
Theorem create_concept_unchecked `{Allocator} (id type : ptr) (s : state) :
  id = NULL ∨ type = NULL →
  create_concept id type s =
  if alloc_grant (heap s) BUninit then Undef
  else Exit 1 (mkState (heap s) (stdout s) (stderr s +:+ msg_concept)).
Proof.
  intros Hnull. unfold create_concept.
  destruct (alloc_grant (heap s) BUninit) eqn:Hg.
  2:{ erewrite bind_run by (apply malloc_Ret; by left). reflexivity. }
  erewrite bind_run by (apply malloc_Ret; right; done). cbn [is_null].
  destruct id as [i|].
  - destruct Hnull as [?| ->]; [done|].
    unfold bind at 1. destruct (strdup (Some i) _) as [q s1|code s1|] eqn:Hs.
    + reflexivity.
    + by apply no_exit_strdup in Hs.
    + reflexivity.
  - reflexivity.
Qed.

Lemma create_concept_unchecked_witness :
  create_concept NULL (Some lit_Person) boot =
  if alloc_grant (heap boot) BUninit then Undef
  else Exit 1 (mkState (heap boot) (stdout boot) (stderr boot +:+ msg_concept)).
Proof. apply (create_concept_unchecked NULL (Some lit_Person) boot). by left. Defined.

(** X17.  The doubling of the capacity overflows [int] at 2^30.  On a
    record that is full with a capacity of 2^30 or more, [add_slot]
    computes [slot_capacity * 2] beyond [INT_MAX]: signed overflow, so the
    behaviour of the call is undefined, before any memory is requested.
    A concept can therefore hold at most 2^30 slots. *)
Theorem add_slot_overflow `{Allocator} (c n t : loc) (s : state) (r : Concept) :
  heap s !! c = Some (BConcept r) →
  slot_capacity r ≤ slot_count r →
  2 ^ 30 ≤ slot_capacity r →
  add_slot (Some c) (Some n) (Some t) s = Undef.
Proof.
  intros Hc Hfull Hbig. rewrite add_slot_unfold. unfold bind at 1.
  assert (grow_slots (Some c) s = Undef) as ->; [|done].
  unfold grow_slots. erewrite bind_run by (by apply load_concept_run).
  destruct (Z.leb_spec (slot_capacity r) (slot_count r)); [|lia].
  destruct (Z.eqb_spec (slot_capacity r) 0); [lia|].
  unfold bind at 1, int_mul, int_of, in_int.
  destruct (Z.leb_spec (slot_capacity r * 2) INT_MAX) as [Hle|_].
  { unfold INT_MAX in Hle. lia. }
  by rewrite andb_false_r.
Qed.

Lemma add_slot_overflow_witness :
  add_slot (Some 1%positive) (Some 2%positive) (Some 1%positive) brim = Undef.
Proof.
  apply (add_slot_overflow 1%positive 2%positive 1%positive brim
           (mkConcept NULL NULL NULL (2 ^ 30) (2 ^ 30))).
  - reflexivity.
  - simpl. lia.
  - simpl. lia.
Defined.

(** ** Appends in call order *)

(** X18.  Appends are kept in call order.  Starting from a live concept
    without slots, with the allocator granting, any sequence of at most
    2^30 calls of [add_slot] that each pass a present name and a present
    target runs to its end and leaves a
    live concept whose count is the number of calls and whose slots are,
    cell by cell in call order, one slot per call: the slot's target is the
    very pointer of the call, and its name is a present pointer, different
    from the caller's, to a buffer holding the caller's string.  The name
    buffers of the slots are pairwise distinct, so calls that repeat a name
    (with the same or another target) leave independent slots. *)
Theorem add_slots_in_call_order `{Allocator} (c : loc) (r : Concept)
    (calls : list (ptr * ptr)) (s : state) :
  granting →
  live (heap s) c r [] →
  Forall (valid_call (heap s)) calls →
  Z.of_nat (length calls) ≤ 2 ^ 30 →
  ∃ s' r' L,
    add_slots (Some c) calls s = Ret tt s' ∧
    live (heap s') c r' L ∧
    slot_count r' = Z.of_nat (length calls) ∧
    Forall2 (λ sl call,
      target sl = call.2 ∧ is_Some (name sl) ∧ name sl ≠ call.1 ∧
      str_at (heap s') (name sl) = str_at (heap s) call.1) L calls ∧
    NoDup (name <$> L).
Proof.
  intros Hgrant Hlive Hvalid Hlen.
  destruct (add_slots_live c calls s r [] Hlive Hvalid Hgrant)
    as (s' & r' & L & Hrun & Hlive' & Hall & Hfresh & Hnodup & _); [simpl; lia|].
  simpl in Hlive'. exists s', r', L. split_and!; try done.
  - destruct Hlive' as (_ & -> & _). f_equal. by apply Forall2_length in Hall.
  - eapply Forall2_impl_lr; [exact Hall|exact Hfresh|exact Hvalid|].
    intros sl [p q] (Ht & Hn & Hs) Hnone [[str Hp] _]. simpl in *.
    split_and!; try done. intros Heq. rewrite Heq in Hnone. congruence.
Qed.

Lemma add_slots_in_call_order_witness :
  ∃ s' r' L,
    add_slots (Some john) nine_calls two_concepts = Ret tt s' ∧
    live (heap s') john r' L ∧
    slot_count r' = Z.of_nat (length nine_calls) ∧
    Forall2 (λ sl call,
      target sl = call.2 ∧ is_Some (name sl) ∧ name sl ≠ call.1 ∧
      str_at (heap s') (name sl) = str_at (heap two_concepts) call.1) L nine_calls ∧
    NoDup (name <$> L).
Proof.
  apply (add_slots_in_call_order john
           (mkConcept (Some 7%positive) (Some 8%positive) NULL 0 0)).
  - exact generous_granting.
  - split_and!; [reflexivity|reflexivity|unfold INT_MAX; simpl; lia|].
    exists []. split_and!; reflexivity.
  - repeat constructor; eexists; reflexivity.
  - vm_compute. discriminate.
Defined.
